(** * Problema cipher core: a shallow embedding of [problema.c]

    The development follows [src/problema.h] and [src/problema.c], and the
    key derivation of [src/main.c].

    Modelling conventions.
    - [byte_t] and [unicode_t] values are integers in [Z]; the wrap-around of
      unsigned 32-bit arithmetic and the truncation of a store into a
      [byte_t] are written out ([u32], [byte_t_cast]).  [int] arithmetic is
      kept in [Z] with C's truncating remainder [Z.rem]; none of the modelled
      computations leaves the range of [int] on a context produced by
      [problema_init].
    - The 65536-entry tables ([mapping]) and the 256-entry S-boxes are finite
      maps from index to value ([gmap Z Z]) read with [tget] and written with
      [tset]; the small arrays (key, feedback, notches, blocks) are lists read
      with [aget] and written with [aset].
    - A pointer that the code compares with [NULL] is an [option].
    - The process-wide [debug_mode] flag only guards [printf] calls; tracing
      output is not part of the model.
    - [malloc] is taken to succeed. *)

From Stdlib Require Import ZArith List Lia Bool.
From stdpp Require Import gmap.
Import ListNotations.
Local Open Scope Z_scope.

(** ** Constants of [problema.h] *)

Definition PROBLEMA_KEY_SIZE : Z := 32.
Definition PROBLEMA_BLOCK_SIZE : Z := 16.
Definition PROBLEMA_NUM_ROTORS : Z := 8.
Definition PROBLEMA_ROTOR_SIZE : Z := 65536.
Definition PROBLEMA_NUM_ROUNDS : Z := 14.
Definition PROBLEMA_SBOX_SIZE : Z := 256.

Definition PROBLEMA_SUCCESS : Z := 0.
Definition PROBLEMA_ERROR_NULL_POINTER : Z := -1.
Definition PROBLEMA_ERROR_INVALID_KEY : Z := -2.
Definition PROBLEMA_ERROR_NOT_INITIALIZED : Z := -3.
Definition PROBLEMA_ERROR_BUFFER_TOO_SMALL : Z := -4.
Definition PROBLEMA_ERROR_INVALID_UTF8 : Z := -5.

(** ** Machine integers and arrays *)

(** Conversion to [unicode_t] (unsigned 32 bits). *)
Definition u32 (z : Z) : Z := z mod 4294967296.

(** Store into a [byte_t]. *)
Definition byte_t_cast (z : Z) : Z := z mod 256.

Definition is_byte (b : Z) : Prop := 0 <= b < 256.

(** Large tables. Reading an index that was never written yields 0. *)
Definition tget (t : gmap Z Z) (i : Z) : Z := default 0 (t !! i).
Definition tset (t : gmap Z Z) (i v : Z) : gmap Z Z := <[i := v]> t.

(** Small arrays. *)
Definition aget (l : list Z) (i : Z) : Z := nth (Z.to_nat i) l 0.
Definition aset (l : list Z) (i v : Z) : list Z := <[Z.to_nat i := v]> l.

(** [memset(dst, 0, n)] and [memcpy(dst, src, n)] on the leading [n] cells. *)
Definition memset0 (dst : list Z) (n : Z) : list Z :=
  repeat 0 (Z.to_nat n) ++ drop (Z.to_nat n) dst.
Definition memcpy (dst src : list Z) (n : Z) : list Z :=
  take (Z.to_nat n) src ++ drop (Z.to_nat n) dst.

Fixpoint list_Z_eqb (a b : list Z) : bool :=
  match a, b with
  | [], [] => true
  | x :: a', y :: b' => (x =? y) && list_Z_eqb a' b'
  | _, _ => false
  end.

(** [memcmp(a, b, n) == 0] *)
Definition memcmp_eq (a b : list Z) (n : Z) : bool :=
  list_Z_eqb (take (Z.to_nat n) a) (take (Z.to_nat n) b).

(** ** Counted loops

    [for_up n i body a] runs [body i], [body (i+1)], ... ([n] iterations);
    [for_down n i body a] runs [body i], [body (i-1)], ... *)

Fixpoint for_up {A : Type} (n : nat) (i : Z) (body : Z -> A -> A) (a : A) : A :=
  match n with
  | O => a
  | S k => for_up k (i + 1) body (body i a)
  end.

Fixpoint for_down {A : Type} (n : nat) (i : Z) (body : Z -> A -> A) (a : A) : A :=
  match n with
  | O => a
  | S k => for_down k (i - 1) body (body i a)
  end.

(** ** Data model ([problema.h]) *)

Record ProblemaRotor := mkRotor {
  mapping : gmap Z Z;
  position : Z;
  notch_positions : list Z;
  num_notches : Z
}.

Record ProblemaPlugboard := mkPlugboard {
  plugboard_mapping : gmap Z Z
}.

Record ProblemaAES := mkAES {
  sbox : gmap Z Z;
  inv_sbox : gmap Z Z;
  round_keys : list (list Z)
}.

Record ProblemaContext := mkContext {
  rotors : list ProblemaRotor;
  inverse_rotors : list ProblemaRotor;
  plugboard : ProblemaPlugboard;
  aes : ProblemaAES;
  key : list Z;
  feedback : list Z;
  initial_feedback : list Z;
  encrypt_mode : bool;
  initialized : bool
}.

Definition blank_rotor : ProblemaRotor := mkRotor ∅ 0 (repeat 0 8) 0.

(** A zero-filled context (static storage, or [calloc]). *)
Definition blank_context : ProblemaContext :=
  mkContext (repeat blank_rotor 8) (repeat blank_rotor 8)
            (mkPlugboard ∅) (mkAES ∅ ∅ (repeat (repeat 0 16) 15))
            (repeat 0 32) (repeat 0 16) (repeat 0 16) false false.

Definition rotor_at (l : list ProblemaRotor) (r : Z) : ProblemaRotor :=
  nth (Z.to_nat r) l blank_rotor.
Definition rotor_put (l : list ProblemaRotor) (r : Z) (x : ProblemaRotor)
  : list ProblemaRotor := <[Z.to_nat r := x]> l.

Definition with_position (x : ProblemaRotor) (p : Z) : ProblemaRotor :=
  mkRotor (mapping x) p (notch_positions x) (num_notches x).
Definition with_mapping (x : ProblemaRotor) (m : gmap Z Z) : ProblemaRotor :=
  mkRotor m (position x) (notch_positions x) (num_notches x).
Definition with_notch_positions (x : ProblemaRotor) (np : list Z) : ProblemaRotor :=
  mkRotor (mapping x) (position x) np (num_notches x).
Definition with_num_notches (x : ProblemaRotor) (n : Z) : ProblemaRotor :=
  mkRotor (mapping x) (position x) (notch_positions x) n.

Definition with_rotors (c : ProblemaContext) (v : list ProblemaRotor) :=
  mkContext v (inverse_rotors c) (plugboard c) (aes c) (key c) (feedback c)
            (initial_feedback c) (encrypt_mode c) (initialized c).
Definition with_inverse_rotors (c : ProblemaContext) (v : list ProblemaRotor) :=
  mkContext (rotors c) v (plugboard c) (aes c) (key c) (feedback c)
            (initial_feedback c) (encrypt_mode c) (initialized c).
Definition with_plugboard (c : ProblemaContext) (v : ProblemaPlugboard) :=
  mkContext (rotors c) (inverse_rotors c) v (aes c) (key c) (feedback c)
            (initial_feedback c) (encrypt_mode c) (initialized c).
Definition with_aes (c : ProblemaContext) (v : ProblemaAES) :=
  mkContext (rotors c) (inverse_rotors c) (plugboard c) v (key c) (feedback c)
            (initial_feedback c) (encrypt_mode c) (initialized c).
Definition with_key (c : ProblemaContext) (v : list Z) :=
  mkContext (rotors c) (inverse_rotors c) (plugboard c) (aes c) v (feedback c)
            (initial_feedback c) (encrypt_mode c) (initialized c).
Definition with_feedback (c : ProblemaContext) (v : list Z) :=
  mkContext (rotors c) (inverse_rotors c) (plugboard c) (aes c) (key c) v
            (initial_feedback c) (encrypt_mode c) (initialized c).
Definition with_initial_feedback (c : ProblemaContext) (v : list Z) :=
  mkContext (rotors c) (inverse_rotors c) (plugboard c) (aes c) (key c)
            (feedback c) v (encrypt_mode c) (initialized c).
Definition with_encrypt_mode (c : ProblemaContext) (v : bool) :=
  mkContext (rotors c) (inverse_rotors c) (plugboard c) (aes c) (key c)
            (feedback c) (initial_feedback c) v (initialized c).
Definition with_initialized (c : ProblemaContext) (v : bool) :=
  mkContext (rotors c) (inverse_rotors c) (plugboard c) (aes c) (key c)
            (feedback c) (initial_feedback c) (encrypt_mode c) v.

(** [ctx->key[i % PROBLEMA_KEY_SIZE]] *)
Definition key_byte (k : list Z) (i : Z) : Z := aget k (Z.rem i PROBLEMA_KEY_SIZE).

(** ** Key schedule ([init_rotors], [init_plugboard], [init_aes_components]) *)

(** [temp = t[i]; t[i] = t[j]; t[j] = temp] *)
Definition swap_cells (t : gmap Z Z) (i j : Z) : gmap Z Z :=
  let temp := tget t i in
  tset (tset t i (tget t j)) j temp.

(** [for (i = 0; i < n; i++) t[i] = i] *)
Definition fill_identity (n : Z) (t : gmap Z Z) : gmap Z Z :=
  for_up (Z.to_nat n) 0 (fun i t => tset t i i) t.

(** The Fisher-Yates loop of [init_rotors] for rotor [r]:
    [for (i = SIZE - 1; i > 0; i--) { j = (key[(r+i) % 32] * i) % (i+1); swap }] *)
Definition shuffle_rotor (k : list Z) (r : Z) (t : gmap Z Z) : gmap Z Z :=
  for_down (Z.to_nat (PROBLEMA_ROTOR_SIZE - 1)) (PROBLEMA_ROTOR_SIZE - 1)
    (fun i t => swap_cells t i (Z.rem (key_byte k (r + i) * i) (i + 1))) t.

(** [for (i = 0; i < n; i++) inv[m[i]] = i] *)
Definition invert_table (n : Z) (m inv : gmap Z Z) : gmap Z Z :=
  for_up (Z.to_nat n) 0 (fun i inv => tset inv (tget m i) i) inv.

(** Body of the loop of [init_rotors] for one index [r]. *)
Definition init_rotor (r : Z) (ctx : ProblemaContext) : ProblemaContext :=
  let k := key ctx in
  let fw := rotor_at (rotors ctx) r in
  let fw := with_position fw (Z.rem (key_byte k r) PROBLEMA_ROTOR_SIZE) in
  let fw := with_num_notches fw (Z.rem (key_byte k (r + 1)) 7 + 1) in
  let fw := with_notch_positions fw
              (for_up (Z.to_nat (num_notches fw)) 0
                 (fun n np => aset np n
                    (Z.rem (key_byte k (r + n + 2) * 251) PROBLEMA_ROTOR_SIZE))
                 (notch_positions fw)) in
  let fw := with_mapping fw (fill_identity PROBLEMA_ROTOR_SIZE (mapping fw)) in
  let fw := with_mapping fw (shuffle_rotor k r (mapping fw)) in
  let iv := rotor_at (inverse_rotors ctx) r in
  let iv := with_mapping iv
              (invert_table PROBLEMA_ROTOR_SIZE (mapping fw) (mapping iv)) in
  let iv := with_position iv (position fw) in
  let iv := with_num_notches iv (num_notches fw) in
  let iv := with_notch_positions iv
              (for_up (Z.to_nat (num_notches fw)) 0
                 (fun n np => aset np n (aget (notch_positions fw) n))
                 (notch_positions iv)) in
  with_inverse_rotors (with_rotors ctx (rotor_put (rotors ctx) r fw))
                      (rotor_put (inverse_rotors ctx) r iv).

Definition init_rotors (ctx : ProblemaContext) : ProblemaContext :=
  for_up (Z.to_nat PROBLEMA_NUM_ROTORS) 0 init_rotor ctx.

Definition plug_a (k : list Z) (i : Z) : Z :=
  Z.rem (key_byte k i * 251 + key_byte k (i + 1)) PROBLEMA_ROTOR_SIZE.
Definition plug_b (k : list Z) (i : Z) : Z :=
  Z.rem (key_byte k (i + 2) * 251 + key_byte k (i + 3)) PROBLEMA_ROTOR_SIZE.

Definition init_plugboard (ctx : ProblemaContext) : ProblemaContext :=
  let k := key ctx in
  let m := fill_identity PROBLEMA_ROTOR_SIZE (plugboard_mapping (plugboard ctx)) in
  let num_swaps := Z.rem (aget k 0) 100 + 50 in
  let m := for_up (Z.to_nat num_swaps) 0
             (fun i m => swap_cells m (plug_a k i) (plug_b k i)) m in
  with_plugboard ctx (mkPlugboard m).

(** The S-box shuffle:
    [for (i = 255; i > 0; i--) { j = (key[i % 32] * i) % (i+1); swap }] *)
Definition shuffle_sbox (k : list Z) (t : gmap Z Z) : gmap Z Z :=
  for_down (Z.to_nat (PROBLEMA_SBOX_SIZE - 1)) (PROBLEMA_SBOX_SIZE - 1)
    (fun i t => swap_cells t i (Z.rem (key_byte k i * i) (i + 1))) t.

(** [round_keys[round][i] = key[(i + round * 4) % 32]] for one [round]. *)
Definition round_key_row (k : list Z) (round : Z) (row : list Z) : list Z :=
  for_up (Z.to_nat PROBLEMA_BLOCK_SIZE) 0
    (fun i row => aset row i (key_byte k (i + round * 4))) row.

Definition init_aes_components (ctx : ProblemaContext) : ProblemaContext :=
  let k := key ctx in
  let a := aes ctx in
  let s := fill_identity PROBLEMA_SBOX_SIZE (sbox a) in
  let s := shuffle_sbox k s in
  let si := invert_table PROBLEMA_SBOX_SIZE s (inv_sbox a) in
  let rk := for_up (Z.to_nat (PROBLEMA_NUM_ROUNDS + 1)) 0
              (fun round rk =>
                 <[Z.to_nat round :=
                     round_key_row k round (nth (Z.to_nat round) rk [])]> rk)
              (round_keys a) in
  with_aes ctx (mkAES s si rk).

(** [problema_init]: the updated context (if any) and the return code. *)
Definition problema_init (ctx : option ProblemaContext) (k : option (list Z))
  : option ProblemaContext * Z :=
  match ctx, k with
  | Some c, Some kb =>
      let c := with_key c (memcpy (key c) kb PROBLEMA_KEY_SIZE) in
      let c := init_rotors c in
      let c := init_plugboard c in
      let c := init_aes_components c in
      let c := with_feedback c (memset0 (feedback c) PROBLEMA_BLOCK_SIZE) in
      let c := with_initial_feedback c
                 (memset0 (initial_feedback c) PROBLEMA_BLOCK_SIZE) in
      let c := with_encrypt_mode c true in
      let c := with_initialized c true in
      (Some c, PROBLEMA_SUCCESS)
  | _, _ => (ctx, PROBLEMA_ERROR_NULL_POINTER)
  end.

(** [problema_cleanup] *)
Definition problema_cleanup (ctx : option ProblemaContext) : option ProblemaContext :=
  match ctx with
  | None => None
  | Some c =>
      let c := with_key c (memset0 (key c) PROBLEMA_KEY_SIZE) in
      let c := with_feedback c (memset0 (feedback c) PROBLEMA_BLOCK_SIZE) in
      Some (with_initialized c false)
  end.

(** ** Rotor bank ([rotate_rotors], [apply_plugboard], [apply_rotors_*]) *)

(** The notch scan of [rotate_rotors]:
    [for (n = 0; n < num_notches; n++) if (position == notch_positions[n]) ...] *)
Fixpoint at_notch_from (n : nat) (i : Z) (x : ProblemaRotor) : bool :=
  match n with
  | O => false
  | S k =>
      if position x =? aget (notch_positions x) i then true
      else at_notch_from k (i + 1) x
  end.

Definition at_notch (x : ProblemaRotor) : bool :=
  at_notch_from (Z.to_nat (num_notches x)) 0 x.

(** [rotors[r].position = (rotors[r].position + 1) % SIZE;
     inverse_rotors[r].position = rotors[r].position;] *)
Definition advance_rotor (ctx : ProblemaContext) (r : Z) : ProblemaContext :=
  let fw := rotor_at (rotors ctx) r in
  let ctx := with_rotors ctx
               (rotor_put (rotors ctx) r
                  (with_position fw (Z.rem (position fw + 1) PROBLEMA_ROTOR_SIZE))) in
  with_inverse_rotors ctx
    (rotor_put (inverse_rotors ctx) r
       (with_position (rotor_at (inverse_rotors ctx) r)
                      (position (rotor_at (rotors ctx) r)))).

(** The carry loop [for (r = 0; r < NUM_ROTORS - 1; r++)] with its [break]. *)
Fixpoint carry_from (n : nat) (r : Z) (ctx : ProblemaContext) : ProblemaContext :=
  match n with
  | O => ctx
  | S k =>
      if at_notch (rotor_at (rotors ctx) r)
      then carry_from k (r + 1) (advance_rotor ctx (r + 1))
      else ctx
  end.

Definition rotate_rotors (ctx : ProblemaContext) : ProblemaContext :=
  carry_from (Z.to_nat (PROBLEMA_NUM_ROTORS - 1)) 0 (advance_rotor ctx 0).

Definition apply_plugboard (ctx : ProblemaContext) (input : Z) : Z :=
  if input <? PROBLEMA_ROTOR_SIZE
  then tget (plugboard_mapping (plugboard ctx)) input
  else input.

(** One iteration of the loop of [apply_rotors_forward]. *)
Definition rotor_forward_step (ctx : ProblemaContext) (r output : Z) : Z :=
  let pos := position (rotor_at (rotors ctx) r) in
  let output := tget (mapping (rotor_at (rotors ctx) r))
                     (u32 (output + pos) mod PROBLEMA_ROTOR_SIZE) in
  u32 (output + PROBLEMA_ROTOR_SIZE - pos) mod PROBLEMA_ROTOR_SIZE.

Definition apply_rotors_forward (ctx : ProblemaContext) (input : Z) : Z :=
  if input >=? PROBLEMA_ROTOR_SIZE then input
  else for_up (Z.to_nat PROBLEMA_NUM_ROTORS) 0 (rotor_forward_step ctx) input.

(** One iteration of the loop of [apply_rotors_backward]. *)
Definition rotor_backward_step (ctx : ProblemaContext) (r output : Z) : Z :=
  let pos := position (rotor_at (inverse_rotors ctx) r) in
  let output := u32 (output + pos) mod PROBLEMA_ROTOR_SIZE in
  let output := tget (mapping (rotor_at (inverse_rotors ctx) r)) output in
  u32 (output + PROBLEMA_ROTOR_SIZE - pos) mod PROBLEMA_ROTOR_SIZE.

Definition apply_rotors_backward (ctx : ProblemaContext) (input : Z) : Z :=
  if input >=? PROBLEMA_ROTOR_SIZE then input
  else for_down (Z.to_nat PROBLEMA_NUM_ROTORS) (PROBLEMA_NUM_ROTORS - 1)
         (rotor_backward_step ctx) input.

(** ** Character pipeline ([problema_encrypt_char], [problema_decrypt_char]) *)

(** [{ (x >> 24) & 0xFF, (x >> 16) & 0xFF, (x >> 8) & 0xFF, x & 0xFF }] *)
Definition split_bytes (x : Z) : list Z :=
  [ Z.land (Z.shiftr x 24) 255; Z.land (Z.shiftr x 16) 255;
    Z.land (Z.shiftr x 8) 255; Z.land x 255 ].

(** [(b[0] << 24) | (b[1] << 16) | (b[2] << 8) | b[3]] *)
Definition join_bytes (b : list Z) : Z :=
  Z.lor (Z.lor (Z.lor (u32 (Z.shiftl (aget b 0) 24)) (u32 (Z.shiftl (aget b 1) 16)))
               (u32 (Z.shiftl (aget b 2) 8)))
        (aget b 3).

(** [for (i = 0; i < 4; i++) char_bytes[i] ^= ctx->feedback[i % BLOCK_SIZE]] *)
Definition xor_feedback4 (ctx : ProblemaContext) (char_bytes : list Z) : list Z :=
  for_up 4 0
    (fun i cb => aset cb i
       (byte_t_cast (Z.lxor (aget cb i)
                            (aget (feedback ctx) (Z.rem i PROBLEMA_BLOCK_SIZE)))))
    char_bytes.

(** [for (i = 0; i < 4; i++) ctx->feedback[i % BLOCK_SIZE] = bytes[i]] *)
Definition store_feedback4 (ctx : ProblemaContext) (bytes : list Z) : ProblemaContext :=
  for_up 4 0
    (fun i c => with_feedback c
       (aset (feedback c) (Z.rem i PROBLEMA_BLOCK_SIZE) (aget bytes i)))
    ctx.

Definition problema_encrypt_char (ctx : option ProblemaContext) (input : Z)
  : option ProblemaContext * Z :=
  match ctx with
  | None => (None, input)
  | Some c =>
      if negb (initialized c) then (Some c, input)
      else
        let c := with_encrypt_mode c true in
        let output := input in
        let output := apply_plugboard c output in
        let output := apply_rotors_forward c output in
        let c := rotate_rotors c in
        let output := apply_rotors_backward c output in
        let char_bytes := split_bytes output in
        let c := if memcmp_eq (feedback c) (initial_feedback c) PROBLEMA_BLOCK_SIZE
                 then with_initial_feedback c
                        (memcpy (initial_feedback c) (feedback c) PROBLEMA_BLOCK_SIZE)
                 else c in
        let char_bytes := xor_feedback4 c char_bytes in
        let output := join_bytes char_bytes in
        let c := store_feedback4 c char_bytes in
        (Some c, output)
  end.

Definition problema_decrypt_char (ctx : option ProblemaContext) (input : Z)
  : option ProblemaContext * Z :=
  match ctx with
  | None => (None, input)
  | Some c =>
      if negb (initialized c) then (Some c, input)
      else
        let c := with_encrypt_mode c false in
        let output := input in
        let input_bytes := split_bytes input in
        let char_bytes := split_bytes output in
        let char_bytes := xor_feedback4 c char_bytes in
        let output := join_bytes char_bytes in
        let c := store_feedback4 c input_bytes in
        let output := apply_rotors_backward c output in
        let c := rotate_rotors c in
        let output := apply_rotors_forward c output in
        let output := apply_plugboard c output in
        (Some c, output)
  end.

(** ** Reduced AES and block mode *)

Definition apply_aes_transformation (ctx : ProblemaContext) (block : list Z) : list Z :=
  let temp := repeat 0 16 in
  (* SubBytes *)
  let temp := for_up 16 0
                (fun i temp => aset temp i (tget (sbox (aes ctx)) (aget block i)))
                temp in
  (* ShiftRows *)
  let block := for_up 4 0
                 (fun i block =>
                    for_up 4 0
                      (fun j block =>
                         aset block (i * 4 + j) (aget temp (i * 4 + Z.rem (j + i) 4)))
                      block)
                 block in
  (* MixColumns *)
  let temp := memcpy temp block PROBLEMA_BLOCK_SIZE in
  let block := for_up 4 0
                 (fun i block =>
                    let a := aget temp (i * 4 + 0) in
                    let b := aget temp (i * 4 + 1) in
                    let c := aget temp (i * 4 + 2) in
                    let d := aget temp (i * 4 + 3) in
                    let block := aset block (i * 4 + 0)
                                   (byte_t_cast (Z.lxor (Z.lxor a b) 0)) in
                    let block := aset block (i * 4 + 1)
                                   (byte_t_cast (Z.lxor (Z.lxor b c) 0)) in
                    let block := aset block (i * 4 + 2)
                                   (byte_t_cast (Z.lxor (Z.lxor c d) 0)) in
                    aset block (i * 4 + 3) (byte_t_cast (Z.lxor (Z.lxor d a) 0)))
                 block in
  (* AddRoundKey *)
  for_up 16 0
    (fun i block => aset block i
       (byte_t_cast (Z.lxor (aget block i) (aget (nth 0 (round_keys (aes ctx)) []) i))))
    block.

Definition apply_inverse_aes_transformation (ctx : ProblemaContext) (block : list Z)
  : list Z :=
  let temp := repeat 0 16 in
  (* AddRoundKey *)
  let block := for_up 16 0
                 (fun i block => aset block i
                    (byte_t_cast (Z.lxor (aget block i)
                                         (aget (nth 0 (round_keys (aes ctx)) []) i))))
                 block in
  (* InvMixColumns *)
  let temp := memcpy temp block PROBLEMA_BLOCK_SIZE in
  let block := for_up 4 0
                 (fun i block =>
                    let a := aget temp (i * 4 + 0) in
                    let b := aget temp (i * 4 + 1) in
                    let c := aget temp (i * 4 + 2) in
                    let d := aget temp (i * 4 + 3) in
                    let block := aset block (i * 4 + 0)
                                   (byte_t_cast (Z.lxor (Z.lxor d a) 0)) in
                    let block := aset block (i * 4 + 1)
                                   (byte_t_cast (Z.lxor (Z.lxor a b) 0)) in
                    let block := aset block (i * 4 + 2)
                                   (byte_t_cast (Z.lxor (Z.lxor b c) 0)) in
                    aset block (i * 4 + 3) (byte_t_cast (Z.lxor (Z.lxor c d) 0)))
                 block in
  (* InvShiftRows *)
  let temp := memcpy temp block PROBLEMA_BLOCK_SIZE in
  let block := for_up 4 0
                 (fun i block =>
                    for_up 4 0
                      (fun j block =>
                         aset block (i * 4 + Z.rem (j + i) 4) (aget temp (i * 4 + j)))
                      block)
                 block in
  (* InvSubBytes *)
  for_up 16 0
    (fun i block => aset block i (tget (inv_sbox (aes ctx)) (aget block i)))
    block.

Definition update_feedback (ctx : ProblemaContext) (block : list Z) : ProblemaContext :=
  for_up (Z.to_nat PROBLEMA_BLOCK_SIZE) 0
    (fun i c => with_feedback c (aset (feedback c) i (aget block i)))
    ctx.

(** [for (i = 0; i < BLOCK_SIZE; i++) output[i] ^= ctx->feedback[i]] *)
Definition xor_feedback_block (ctx : ProblemaContext) (output : list Z) : list Z :=
  for_up (Z.to_nat PROBLEMA_BLOCK_SIZE) 0
    (fun i out => aset out i (byte_t_cast (Z.lxor (aget out i) (aget (feedback ctx) i))))
    output.

(** Block mode: the context and the contents of [output] after the call. *)
Definition problema_encrypt_block (ctx : option ProblemaContext)
    (input output : option (list Z)) : option ProblemaContext * option (list Z) :=
  match ctx, input, output with
  | Some c, Some inp, Some out =>
      if negb (initialized c) then (ctx, output)
      else
        let out := memcpy out inp PROBLEMA_BLOCK_SIZE in
        let out := xor_feedback_block c out in
        let out := apply_aes_transformation c out in
        let c := update_feedback c out in
        (Some c, Some out)
  | _, _, _ => (ctx, output)
  end.

Definition problema_decrypt_block (ctx : option ProblemaContext)
    (input output : option (list Z)) : option ProblemaContext * option (list Z) :=
  match ctx, input, output with
  | Some c, Some inp, Some out =>
      if negb (initialized c) then (ctx, output)
      else
        let temp_block := memcpy (repeat 0 16) inp PROBLEMA_BLOCK_SIZE in
        let out := memcpy out inp PROBLEMA_BLOCK_SIZE in
        let out := apply_inverse_aes_transformation c out in
        let out := xor_feedback_block c out in
        let c := update_feedback c temp_block in
        (Some c, Some out)
  | _, _, _ => (ctx, output)
  end.

(** ** UTF-8 codec ([utf8_to_unicode], [unicode_to_utf8]) *)

(** [(b & 0xC0) == 0x80] *)
Definition is_cont (b : Z) : bool := Z.land b 192 =? 128.

(** The [while] loop of [utf8_to_unicode].  [utf8] is the input from index
    [i] on, [j] the number of code points already stored; the result is the
    return code and the code points stored from index [j] on. *)
Fixpoint utf8_to_unicode_from (utf8 : list Z) (j unicode_size : Z) : Z * list Z :=
  match utf8 with
  | [] => (PROBLEMA_SUCCESS, [])
  | b0 :: rest =>
      if negb (j <? unicode_size) then (PROBLEMA_ERROR_BUFFER_TOO_SMALL, [])
      else if Z.land b0 128 =? 0 then
        let '(rc, out) := utf8_to_unicode_from rest (j + 1) unicode_size in
        (rc, b0 :: out)
      else if Z.land b0 224 =? 192 then
        match rest with
        | b1 :: rest' =>
            if negb (is_cont b1) then (PROBLEMA_ERROR_INVALID_UTF8, [])
            else
              let cp := Z.lor (Z.shiftl (Z.land b0 31) 6) (Z.land b1 63) in
              let '(rc, out) := utf8_to_unicode_from rest' (j + 1) unicode_size in
              (rc, cp :: out)
        | _ => (PROBLEMA_ERROR_INVALID_UTF8, [])
        end
      else if Z.land b0 240 =? 224 then
        match rest with
        | b1 :: b2 :: rest' =>
            if negb (is_cont b1) || negb (is_cont b2)
            then (PROBLEMA_ERROR_INVALID_UTF8, [])
            else
              let cp := Z.lor (Z.lor (Z.shiftl (Z.land b0 15) 12)
                                     (Z.shiftl (Z.land b1 63) 6))
                              (Z.land b2 63) in
              let '(rc, out) := utf8_to_unicode_from rest' (j + 1) unicode_size in
              (rc, cp :: out)
        | _ => (PROBLEMA_ERROR_INVALID_UTF8, [])
        end
      else if Z.land b0 248 =? 240 then
        match rest with
        | b1 :: b2 :: b3 :: rest' =>
            if negb (is_cont b1) || negb (is_cont b2) || negb (is_cont b3)
            then (PROBLEMA_ERROR_INVALID_UTF8, [])
            else
              let cp := Z.lor (Z.lor (Z.lor (Z.shiftl (Z.land b0 7) 18)
                                            (Z.shiftl (Z.land b1 63) 12))
                                     (Z.shiftl (Z.land b2 63) 6))
                              (Z.land b3 63) in
              let '(rc, out) := utf8_to_unicode_from rest' (j + 1) unicode_size in
              (rc, cp :: out)
        | _ => (PROBLEMA_ERROR_INVALID_UTF8, [])
        end
      else (PROBLEMA_ERROR_INVALID_UTF8, [])
  end.

(** [utf8_to_unicode(utf8, utf8_len, unicode, unicode_size, unicode_len)].
    [utf8] is [None] for a NULL input, else the [utf8_len] input bytes;
    [unicode] is [None] when [unicode] or [unicode_len] is NULL, else
    [unicode_size].  The result is the return code and the code points
    stored in [unicode]; [*unicode_len] is assigned their number unless the
    code is NULL_POINTER or INVALID_UTF8. *)
Definition utf8_to_unicode (utf8 : option (list Z)) (unicode : option Z) : Z * list Z :=
  match utf8, unicode with
  | Some bytes, Some unicode_size => utf8_to_unicode_from bytes 0 unicode_size
  | _, _ => (PROBLEMA_ERROR_NULL_POINTER, [])
  end.

(** The [for] loop of [unicode_to_utf8]; [j] is the number of bytes already
    written.  The result is the return code and the bytes written from
    index [j] on. *)
Fixpoint unicode_to_utf8_from (unicode : list Z) (j utf8_size : Z) : Z * list Z :=
  match unicode with
  | [] => (PROBLEMA_SUCCESS, [])
  | code :: rest =>
      if code <=? 127 then
        if j + 1 >? utf8_size then (PROBLEMA_ERROR_BUFFER_TOO_SMALL, [])
        else
          let '(rc, out) := unicode_to_utf8_from rest (j + 1) utf8_size in
          (rc, byte_t_cast code :: out)
      else if code <=? 2047 then
        if j + 2 >? utf8_size then (PROBLEMA_ERROR_BUFFER_TOO_SMALL, [])
        else
          let '(rc, out) := unicode_to_utf8_from rest (j + 2) utf8_size in
          (rc, byte_t_cast (Z.lor 192 (Z.shiftr code 6))
               :: byte_t_cast (Z.lor 128 (Z.land code 63)) :: out)
      else if code <=? 65535 then
        if j + 3 >? utf8_size then (PROBLEMA_ERROR_BUFFER_TOO_SMALL, [])
        else
          let '(rc, out) := unicode_to_utf8_from rest (j + 3) utf8_size in
          (rc, byte_t_cast (Z.lor 224 (Z.shiftr code 12))
               :: byte_t_cast (Z.lor 128 (Z.land (Z.shiftr code 6) 63))
               :: byte_t_cast (Z.lor 128 (Z.land code 63)) :: out)
      else if code <=? 1114111 then
        if j + 4 >? utf8_size then (PROBLEMA_ERROR_BUFFER_TOO_SMALL, [])
        else
          let '(rc, out) := unicode_to_utf8_from rest (j + 4) utf8_size in
          (rc, byte_t_cast (Z.lor 240 (Z.shiftr code 18))
               :: byte_t_cast (Z.lor 128 (Z.land (Z.shiftr code 12) 63))
               :: byte_t_cast (Z.lor 128 (Z.land (Z.shiftr code 6) 63))
               :: byte_t_cast (Z.lor 128 (Z.land code 63)) :: out)
      else (PROBLEMA_ERROR_INVALID_UTF8, [])
  end.

(** [unicode_to_utf8(unicode, unicode_len, utf8, utf8_size, utf8_len)].
    [utf8] is [None] when [utf8] or [utf8_len] is NULL, else [utf8_size].
    The result is the return code and the bytes written to [utf8];
    [*utf8_len] is assigned their number only on SUCCESS. *)
Definition unicode_to_utf8 (unicode : option (list Z)) (utf8 : option Z) : Z * list Z :=
  match unicode, utf8 with
  | Some cps, Some utf8_size => unicode_to_utf8_from cps 0 utf8_size
  | _, _ => (PROBLEMA_ERROR_NULL_POINTER, [])
  end.

(** ** String mode ([problema_encrypt], [problema_decrypt]) *)

(** The per-character loops: the context is threaded through the calls and
    each cell of [unicode_buffer] is replaced by its image. *)
Fixpoint encrypt_chars (c : option ProblemaContext) (cps : list Z)
  : option ProblemaContext * list Z :=
  match cps with
  | [] => (c, [])
  | x :: rest =>
      let '(c1, y) := problema_encrypt_char c x in
      let '(c2, ys) := encrypt_chars c1 rest in
      (c2, y :: ys)
  end.

Fixpoint decrypt_chars (c : option ProblemaContext) (cps : list Z)
  : option ProblemaContext * list Z :=
  match cps with
  | [] => (c, [])
  | x :: rest =>
      let '(c1, y) := problema_decrypt_char c x in
      let '(c2, ys) := decrypt_chars c1 rest in
      (c2, y :: ys)
  end.

(** The statements of [problema_encrypt] between the checks and the
    conversion of the input: mode flag and feedback reset.  (The local
    [initial_rotors_pos] is written and never read.) *)
Definition encrypt_entry (c : ProblemaContext) : ProblemaContext :=
  let c := with_encrypt_mode c true in
  let c := with_feedback c (memset0 (feedback c) PROBLEMA_BLOCK_SIZE) in
  with_initial_feedback c (memset0 (initial_feedback c) PROBLEMA_BLOCK_SIZE).

Definition decrypt_entry (c : ProblemaContext) : ProblemaContext :=
  let c := with_encrypt_mode c false in
  with_feedback c (memset0 (feedback c) PROBLEMA_BLOCK_SIZE).

(** [problema_encrypt(ctx, input, input_len, output, output_size, output_len)].
    [input] is [None] for NULL, else the [input_len] bytes; [output] is
    [None] when [output] or [output_len] is NULL, else [output_size].  The
    result is the context after the call, the return code and the bytes
    written to [output]. *)
Definition problema_encrypt (ctx : option ProblemaContext)
    (input : option (list Z)) (output : option Z)
  : option ProblemaContext * Z * list Z :=
  match ctx, input, output with
  | Some c, Some inp, Some output_size =>
      if negb (initialized c) then (ctx, PROBLEMA_ERROR_NOT_INITIALIZED, [])
      else
        let c := encrypt_entry c in
        let '(result, unicode_buffer) :=
          utf8_to_unicode (Some inp) (Some (Z.of_nat (length inp))) in
        if negb (result =? PROBLEMA_SUCCESS) then (Some c, result, [])
        else
          let '(c', unicode_buffer) := encrypt_chars (Some c) unicode_buffer in
          let '(result, out) := unicode_to_utf8 (Some unicode_buffer) (Some output_size) in
          (c', result, out)
  | _, _, _ => (ctx, PROBLEMA_ERROR_NULL_POINTER, [])
  end.

Definition problema_decrypt (ctx : option ProblemaContext)
    (input : option (list Z)) (output : option Z)
  : option ProblemaContext * Z * list Z :=
  match ctx, input, output with
  | Some c, Some inp, Some output_size =>
      if negb (initialized c) then (ctx, PROBLEMA_ERROR_NOT_INITIALIZED, [])
      else
        let c := decrypt_entry c in
        let '(result, unicode_buffer) :=
          utf8_to_unicode (Some inp) (Some (Z.of_nat (length inp))) in
        if negb (result =? PROBLEMA_SUCCESS) then (Some c, result, [])
        else
          let '(c', unicode_buffer) := decrypt_chars (Some c) unicode_buffer in
          let '(result, out) := unicode_to_utf8 (Some unicode_buffer) (Some output_size) in
          (c', result, out)
  | _, _, _ => (ctx, PROBLEMA_ERROR_NULL_POINTER, [])
  end.

(** [problema_error_string]: the index into [error_messages], or [None] for
    the fallback text. *)
Definition problema_error_string (error_code : Z) : option Z :=
  let error_code := - error_code in
  if (error_code >=? 0) && (error_code <? 6) then Some error_code else None.

(** ** Key derivation of the command-line tool ([main.c]) *)

(** [((b << 3) | (b >> 5)) & 0xFF] *)
Definition rotl3 (b : Z) : Z := Z.land (Z.lor (Z.shiftl b 3) (Z.shiftr b 5)) 255.

(** [derive_key_from_string(key_str, key)]: the contents of [key] after the
    call.  [key_str] holds the characters before the terminating NUL, so
    [key_len] is its length; with an empty string the C code divides by zero,
    and the model is only used for non-empty strings.  A character reaches
    the key only through a store into a [byte_t], so only its value modulo
    256 matters, whether [char] is signed or not. *)
Definition derive_key_from_string (key_str : list Z) (key : list Z) : list Z :=
  let key_len := Z.of_nat (length key_str) in
  let key := memset0 key PROBLEMA_KEY_SIZE in
  for_up (Z.to_nat PROBLEMA_KEY_SIZE) 0
    (fun i key =>
       let key := aset key i (byte_t_cast (aget key_str (Z.rem i key_len))) in
       for_up (Z.to_nat key_len) 0
         (fun j key =>
            let key := aset key i
                         (byte_t_cast (Z.lxor (aget key i)
                                              (aget key_str (Z.rem (i + j) key_len)))) in
            aset key i (byte_t_cast (rotl3 (aget key i))))
         key)
    key.

(** * Verification *)

(** ** Reading the spec: predicates used in the statements *)

(** [f] is a bijection of the interval [0, n). *)
Definition bijection_on (n : Z) (f : Z -> Z) : Prop :=
  (forall i, 0 <= i < n -> 0 <= f i < n) /\
  (forall i j, 0 <= i < n -> 0 <= j < n -> f i = f j -> i = j) /\
  (forall y, 0 <= y < n -> exists i, 0 <= i < n /\ f i = y).

(** A 32-byte key. *)
Definition valid_key (k : list Z) : Prop :=
  length k = 32%nat /\ Forall is_byte k.

(** The arrays of the context have their declared lengths. *)
Definition context_sized (c : ProblemaContext) : Prop :=
  length (rotors c) = 8%nat /\ length (inverse_rotors c) = 8%nat /\
  length (key c) = 32%nat /\
  length (feedback c) = 16%nat /\ length (initial_feedback c) = 16%nat.

(** ** Loop invariants *)

Lemma for_up_invariant {A : Type} (P : Z -> A -> Prop) (body : Z -> A -> A) :
  forall (n : nat) (i : Z) (a : A),
    P i a ->
    (forall k x, i <= k < i + Z.of_nat n -> P k x -> P (k + 1) (body k x)) ->
    P (i + Z.of_nat n) (for_up n i body a).
Proof.
  induction n as [|n IH]; intros i a Hi Hstep.
  - simpl. replace (i + Z.of_nat 0) with i by lia. exact Hi.
  - cbn [for_up].
    replace (i + Z.of_nat (S n)) with ((i + 1) + Z.of_nat n) by lia.
    apply IH.
    + apply Hstep; [lia | exact Hi].
    + intros k x Hk. apply Hstep. lia.
Qed.

Lemma for_down_invariant {A : Type} (P : Z -> A -> Prop) (body : Z -> A -> A) :
  forall (n : nat) (i : Z) (a : A),
    P i a ->
    (forall k x, i - Z.of_nat n < k <= i -> P k x -> P (k - 1) (body k x)) ->
    P (i - Z.of_nat n) (for_down n i body a).
Proof.
  induction n as [|n IH]; intros i a Hi Hstep.
  - simpl. replace (i - Z.of_nat 0) with i by lia. exact Hi.
  - cbn [for_down].
    replace (i - Z.of_nat (S n)) with ((i - 1) - Z.of_nat n) by lia.
    apply IH.
    + apply Hstep; [lia | exact Hi].
    + intros k x Hk. apply Hstep. lia.
Qed.

(** ** Tables *)

Lemma tget_tset_eq (t : gmap Z Z) i v : tget (tset t i v) i = v.
Proof. unfold tget, tset. by rewrite lookup_insert_eq. Qed.

Lemma tget_tset_ne (t : gmap Z Z) i j v : i <> j -> tget (tset t i v) j = tget t j.
Proof. intros H. unfold tget, tset. by rewrite lookup_insert_ne. Qed.

(** The transposition of [a] and [b]. *)
Definition transpose (a b y : Z) : Z :=
  if y =? a then b else if y =? b then a else y.

Ltac case_eqb :=
  repeat match goal with
         | |- context [if ?x =? ?y then _ else _] =>
             lazymatch x with
             | context [if _ then _ else _] => fail
             | _ => destruct (Z.eqb_spec x y)
             end
         end.

Lemma transpose_involutive a b y : transpose a b (transpose a b y) = y.
Proof. unfold transpose. case_eqb; lia. Qed.

Lemma transpose_range n a b y :
  0 <= a < n -> 0 <= b < n -> 0 <= y < n -> 0 <= transpose a b y < n.
Proof. unfold transpose. intros. case_eqb; lia. Qed.

(** Reading a table after a swap is reading the old table at the
    transposed index. *)
Lemma tget_swap_cells (t : gmap Z Z) i j y :
  tget (swap_cells t i j) y = tget t (transpose i j y).
Proof.
  unfold swap_cells, transpose.
  destruct (Z.eqb_spec y i) as [->|Hi].
  - destruct (Z.eq_dec j i) as [->|Hj].
    + by rewrite tget_tset_eq.
    + rewrite tget_tset_ne by done. by rewrite tget_tset_eq.
  - destruct (Z.eqb_spec y j) as [->|Hj].
    + by rewrite tget_tset_eq.
    + rewrite !tget_tset_ne by done. done.
Qed.

(** [t] restricted to [0, n) is a permutation, with inverse [g]. *)
Definition perm_table (n : Z) (t : gmap Z Z) : Prop :=
  exists g : Z -> Z,
    (forall i, 0 <= i < n -> 0 <= tget t i < n /\ g (tget t i) = i) /\
    (forall y, 0 <= y < n -> 0 <= g y < n /\ tget t (g y) = y).

Lemma perm_table_bijection n t : perm_table n t -> bijection_on n (tget t).
Proof.
  intros (g & Hf & Hg). repeat split.
  - apply Hf; done.
  - apply Hf; done.
  - intros i j Hi Hj E.
    destruct (Hf i Hi) as [_ <-]. destruct (Hf j Hj) as [_ <-]. by rewrite E.
  - intros y Hy. exists (g y). destruct (Hg y Hy). done.
Qed.

Lemma fill_identity_get n t i :
  0 <= n -> tget (fill_identity n t) i = if (0 <=? i) && (i <? n) then i else tget t i.
Proof.
  intros Hn. unfold fill_identity.
  pose (P := fun (k : Z) (x : gmap Z Z) =>
               forall y, tget x y = if (0 <=? y) && (y <? k) then y else tget t y).
  assert (H : P (0 + Z.of_nat (Z.to_nat n))
                (for_up (Z.to_nat n) 0 (fun i t => tset t i i) t)).
  { apply for_up_invariant.
    - intros y. destruct (0 <=? y) eqn:E1; destruct (y <? 0) eqn:E2; simpl; try done; lia.
    - intros k x Hk HP y. destruct (Z.eq_dec k y) as [->|Hne].
      + rewrite tget_tset_eq.
        destruct (0 <=? y) eqn:E1; destruct (y <? y + 1) eqn:E2; simpl; try done; lia.
      + rewrite tget_tset_ne by done. rewrite HP.
        destruct (0 <=? y) eqn:E1; destruct (y <? k) eqn:E2;
          destruct (y <? k + 1) eqn:E3; simpl; try done; lia. }
  replace (0 + Z.of_nat (Z.to_nat n)) with n in H by lia. apply H.
Qed.

Lemma fill_identity_perm n t : 0 <= n -> perm_table n (fill_identity n t).
Proof.
  intros Hn. exists (fun y => y).
  split; intros i Hi; rewrite fill_identity_get by done;
    destruct (0 <=? i) eqn:E1; destruct (i <? n) eqn:E2; simpl; lia.
Qed.

Lemma swap_cells_perm n t i j :
  0 <= i < n -> 0 <= j < n -> perm_table n t -> perm_table n (swap_cells t i j).
Proof.
  intros Hi Hj (g & Hf & Hg).
  exists (fun y => transpose i j (g y)). split.
  - intros x Hx. rewrite tget_swap_cells.
    pose proof (transpose_range n i j x Hi Hj Hx) as Hr.
    destruct (Hf _ Hr) as [H1 H2]. split; [done|].
    rewrite H2. apply transpose_involutive.
  - intros y Hy. destruct (Hg y Hy) as [H1 H2]. split.
    + by apply transpose_range.
    + rewrite tget_swap_cells, transpose_involutive. done.
Qed.

Lemma invert_table_get n m inv0 :
  0 <= n -> perm_table n m ->
  forall i, 0 <= i < n -> tget (invert_table n m inv0) (tget m i) = i.
Proof.
  intros Hn Hperm. destruct (perm_table_bijection _ _ Hperm) as (_ & Hinj & _).
  unfold invert_table.
  pose (P := fun (k : Z) (x : gmap Z Z) =>
               forall i, 0 <= i < k -> tget x (tget m i) = i).
  assert (H : P (0 + Z.of_nat (Z.to_nat n))
                (for_up (Z.to_nat n) 0 (fun i inv => tset inv (tget m i) i) inv0)).
  { apply for_up_invariant.
    - intros i Hi. lia.
    - intros k x Hk HP i Hi. destruct (Z.eq_dec i k) as [->|Hne].
      + by rewrite tget_tset_eq.
      + rewrite tget_tset_ne; [apply HP; lia|].
        intros E. apply Hne. symmetry. apply Hinj; [lia | lia | done]. }
  replace (0 + Z.of_nat (Z.to_nat n)) with n in H by lia. apply H.
Qed.

(** ** Key bytes *)

Lemma aget_byte (k : list Z) i : Forall is_byte k -> 0 <= aget k i < 256.
Proof.
  intros H. unfold aget.
  destruct (nth_in_or_default (Z.to_nat i) k 0) as [Hin | ->]; [|lia].
  rewrite Forall_forall in H. apply H. by apply list_elem_of_In.
Qed.

Lemma key_byte_range (k : list Z) i : Forall is_byte k -> 0 <= key_byte k i < 256.
Proof. intros H. apply aget_byte. done. Qed.

(** The swap partner chosen by the shuffles lies in [0, i]. *)
Lemma shuffle_index_range b i : 0 <= b -> 0 < i -> 0 <= Z.rem (b * i) (i + 1) <= i.
Proof.
  intros Hb Hi. pose proof (Z.mul_nonneg_nonneg b i Hb).
  rewrite Z.rem_mod_nonneg by lia.
  pose proof (Z.mod_pos_bound (b * i) (i + 1)). lia.
Qed.

Lemma shuffle_rotor_perm k r t :
  Forall is_byte k ->
  perm_table PROBLEMA_ROTOR_SIZE t -> perm_table PROBLEMA_ROTOR_SIZE (shuffle_rotor k r t).
Proof.
  intros Hk Ht. unfold shuffle_rotor.
  set (n := Z.to_nat (PROBLEMA_ROTOR_SIZE - 1)).
  apply (for_down_invariant (fun _ x => perm_table PROBLEMA_ROTOR_SIZE x)
           _ n (PROBLEMA_ROTOR_SIZE - 1) t Ht).
  intros i x Hi Hx.
  assert (Hn : Z.of_nat n = 65535) by (subst n; unfold PROBLEMA_ROTOR_SIZE; lia).
  unfold PROBLEMA_ROTOR_SIZE in *.
  pose proof (key_byte_range k (r + i) Hk).
  pose proof (shuffle_index_range (key_byte k (r + i)) i).
  apply swap_cells_perm; [lia | lia | done].
Qed.

Lemma shuffle_sbox_perm k t :
  Forall is_byte k ->
  perm_table PROBLEMA_SBOX_SIZE t -> perm_table PROBLEMA_SBOX_SIZE (shuffle_sbox k t).
Proof.
  intros Hk Ht. unfold shuffle_sbox.
  set (n := Z.to_nat (PROBLEMA_SBOX_SIZE - 1)).
  apply (for_down_invariant (fun _ x => perm_table PROBLEMA_SBOX_SIZE x)
           _ n (PROBLEMA_SBOX_SIZE - 1) t Ht).
  intros i x Hi Hx.
  assert (Hn : Z.of_nat n = 255) by (subst n; unfold PROBLEMA_SBOX_SIZE; lia).
  unfold PROBLEMA_SBOX_SIZE in *.
  pose proof (key_byte_range k i Hk).
  pose proof (shuffle_index_range (key_byte k i) i).
  apply swap_cells_perm; [lia | lia | done].
Qed.

(** ** Small arrays *)

Lemma rotor_at_put_eq l r x :
  (Z.to_nat r < length l)%nat -> rotor_at (rotor_put l r x) r = x.
Proof.
  intros H. unfold rotor_at, rotor_put.
  rewrite nth_lookup, list_lookup_insert_eq by done. done.
Qed.

Lemma rotor_at_put_ne l r r' x :
  0 <= r -> 0 <= r' -> r <> r' -> rotor_at (rotor_put l r x) r' = rotor_at l r'.
Proof.
  intros H1 H2 H. unfold rotor_at, rotor_put.
  rewrite !nth_lookup, list_lookup_insert_ne by lia. done.
Qed.

Lemma length_rotor_put l r x : length (rotor_put l r x) = length l.
Proof. apply length_insert. Qed.

Lemma aget_aset_eq l i v : (Z.to_nat i < length l)%nat -> aget (aset l i v) i = v.
Proof.
  intros H. unfold aget, aset.
  rewrite nth_lookup, list_lookup_insert_eq by done. done.
Qed.

Lemma aget_aset_ne l i j v : 0 <= i -> 0 <= j -> i <> j -> aget (aset l i v) j = aget l j.
Proof.
  intros H1 H2 H. unfold aget, aset.
  rewrite !nth_lookup, list_lookup_insert_ne by lia. done.
Qed.

Lemma length_aset l i v : length (aset l i v) = length l.
Proof. apply length_insert. Qed.

Lemma memset0_exact l n : length l = Z.to_nat n -> memset0 l n = repeat 0 (Z.to_nat n).
Proof.
  intros H. unfold memset0. rewrite drop_ge by lia. apply app_nil_r.
Qed.

Lemma memcpy_exact dst src n :
  length dst = Z.to_nat n -> length src = Z.to_nat n -> memcpy dst src n = src.
Proof.
  intros H1 H2. unfold memcpy.
  rewrite take_ge by lia. rewrite drop_ge by lia. apply app_nil_r.
Qed.

(** ** The key schedule, field by field *)

Ltac fields :=
  cbn [rotors inverse_rotors plugboard aes key feedback initial_feedback
       encrypt_mode initialized
       with_rotors with_inverse_rotors with_plugboard with_aes with_key
       with_feedback with_initial_feedback with_encrypt_mode with_initialized
       mapping position notch_positions num_notches
       with_mapping with_position with_notch_positions with_num_notches
       plugboard_mapping sbox inv_sbox round_keys].

(** The notch count derived from the key for rotor [r]. *)
Definition key_num_notches (k : list Z) (r : Z) : Z := Z.rem (key_byte k (r + 1)) 7 + 1.

(** The notch array written for rotor [r]. *)
Definition key_notches (k : list Z) (r : Z) (old : list Z) : list Z :=
  for_up (Z.to_nat (key_num_notches k r)) 0
    (fun n np => aset np n (Z.rem (key_byte k (r + n + 2) * 251) PROBLEMA_ROTOR_SIZE))
    old.

(** The forward rotor that [init_rotor] stores at index [r]. *)
Definition forward_of (k : list Z) (r : Z) (old : ProblemaRotor) : ProblemaRotor :=
  mkRotor (shuffle_rotor k r (fill_identity PROBLEMA_ROTOR_SIZE (mapping old)))
          (Z.rem (key_byte k r) PROBLEMA_ROTOR_SIZE)
          (key_notches k r (notch_positions old))
          (key_num_notches k r).

(** The inverse rotor that [init_rotor] stores at index [r]. *)
Definition inverse_of (fw old : ProblemaRotor) : ProblemaRotor :=
  mkRotor (invert_table PROBLEMA_ROTOR_SIZE (mapping fw) (mapping old))
          (position fw)
          (for_up (Z.to_nat (num_notches fw)) 0
             (fun n np => aset np n (aget (notch_positions fw) n))
             (notch_positions old))
          (num_notches fw).

Lemma init_rotor_unfold r c :
  init_rotor r c =
  with_inverse_rotors
    (with_rotors c (rotor_put (rotors c) r (forward_of (key c) r (rotor_at (rotors c) r))))
    (rotor_put (inverse_rotors c) r
       (inverse_of (forward_of (key c) r (rotor_at (rotors c) r))
                   (rotor_at (inverse_rotors c) r))).
Proof. reflexivity. Qed.

(** What [init_rotors] leaves in the context. *)
Definition rotors_initialized (c c' : ProblemaContext) (n : Z) : Prop :=
  key c' = key c /\ plugboard c' = plugboard c /\ aes c' = aes c /\
  feedback c' = feedback c /\ initial_feedback c' = initial_feedback c /\
  encrypt_mode c' = encrypt_mode c /\ initialized c' = initialized c /\
  length (rotors c') = length (rotors c) /\
  length (inverse_rotors c') = length (inverse_rotors c) /\
  (forall r, 0 <= r < n ->
     rotor_at (rotors c') r = forward_of (key c) r (rotor_at (rotors c) r) /\
     rotor_at (inverse_rotors c') r =
       inverse_of (forward_of (key c) r (rotor_at (rotors c) r))
                  (rotor_at (inverse_rotors c) r)) /\
  (forall r, n <= r ->
     rotor_at (rotors c') r = rotor_at (rotors c) r /\
     rotor_at (inverse_rotors c') r = rotor_at (inverse_rotors c) r).

Lemma init_rotors_spec c :
  context_sized c -> rotors_initialized c (init_rotors c) PROBLEMA_NUM_ROTORS.
Proof.
  intros (L1 & L2 & _). unfold init_rotors.
  change PROBLEMA_NUM_ROTORS with (0 + Z.of_nat (Z.to_nat PROBLEMA_NUM_ROTORS)) at 2.
  apply (for_up_invariant (fun n c' => rotors_initialized c c' n)).
  - unfold rotors_initialized. repeat split; try done; lia.
  - intros k x Hk (E1 & E2 & E3 & E4 & E5 & E6 & E7 & E8 & E9 & Hlo & Hhi).
    assert (Hk8 : 0 <= k < 8) by (unfold PROBLEMA_NUM_ROTORS in Hk; lia).
    rewrite init_rotor_unfold. unfold rotors_initialized. fields.
    rewrite !length_rotor_put.
    repeat split; try done.
    + destruct (Z.eq_dec r k) as [->|Hne].
      * rewrite rotor_at_put_eq by lia. rewrite E1.
        destruct (Hhi k) as [-> _]; [lia|]. done.
      * rewrite rotor_at_put_ne by lia. apply Hlo. lia.
    + destruct (Z.eq_dec r k) as [->|Hne].
      * rewrite rotor_at_put_eq by lia. rewrite E1.
        destruct (Hhi k) as [-> ->]; [lia|]. done.
      * rewrite rotor_at_put_ne by lia. apply Hlo. lia.
    + rewrite rotor_at_put_ne by lia. apply Hhi. lia.
    + rewrite rotor_at_put_ne by lia. apply Hhi. lia.
Qed.

(** The plugboard table built from the key. *)
Definition plug_table (k : list Z) (old : gmap Z Z) : gmap Z Z :=
  for_up (Z.to_nat (Z.rem (aget k 0) 100 + 50)) 0
    (fun i m => swap_cells m (plug_a k i) (plug_b k i))
    (fill_identity PROBLEMA_ROTOR_SIZE old).

(** The context that a successful [problema_init] leaves behind. *)
Definition init_context (c0 : ProblemaContext) (k : list Z) : ProblemaContext :=
  let c := with_key c0 (memcpy (key c0) k PROBLEMA_KEY_SIZE) in
  let c := init_aes_components (init_plugboard (init_rotors c)) in
  let c := with_feedback c (memset0 (feedback c) PROBLEMA_BLOCK_SIZE) in
  let c := with_initial_feedback c (memset0 (initial_feedback c) PROBLEMA_BLOCK_SIZE) in
  with_initialized (with_encrypt_mode c true) true.

Lemma problema_init_some c0 k :
  problema_init (Some c0) (Some k) = (Some (init_context c0 k), PROBLEMA_SUCCESS).
Proof. reflexivity. Qed.

(** The round-key table written by [init_aes_components]. *)
Definition key_round_keys (k : list Z) (old : list (list Z)) : list (list Z) :=
  for_up (Z.to_nat (PROBLEMA_NUM_ROUNDS + 1)) 0
    (fun round rk =>
       <[Z.to_nat round := round_key_row k round (nth (Z.to_nat round) rk [])]> rk)
    old.

(** What [init_plugboard] and [init_aes_components] change. *)
Definition plugboard_initialized (c c' : ProblemaContext) : Prop :=
  rotors c' = rotors c /\ inverse_rotors c' = inverse_rotors c /\
  key c' = key c /\ feedback c' = feedback c /\
  initial_feedback c' = initial_feedback c /\ aes c' = aes c /\
  plugboard_mapping (plugboard c') = plug_table (key c) (plugboard_mapping (plugboard c)).

Definition aes_initialized (c c' : ProblemaContext) : Prop :=
  rotors c' = rotors c /\ inverse_rotors c' = inverse_rotors c /\
  plugboard c' = plugboard c /\ key c' = key c /\ feedback c' = feedback c /\
  initial_feedback c' = initial_feedback c /\
  sbox (aes c') = shuffle_sbox (key c) (fill_identity PROBLEMA_SBOX_SIZE (sbox (aes c))) /\
  inv_sbox (aes c') =
    invert_table PROBLEMA_SBOX_SIZE (sbox (aes c')) (inv_sbox (aes c)) /\
  round_keys (aes c') = key_round_keys (key c) (round_keys (aes c)).

Lemma init_plugboard_frame c : plugboard_initialized c (init_plugboard c).
Proof.
  unfold plugboard_initialized, init_plugboard, plug_table. cbv zeta. fields.
  repeat apply conj; reflexivity.
Qed.

Lemma init_aes_components_frame c : aes_initialized c (init_aes_components c).
Proof.
  unfold aes_initialized, init_aes_components. cbv zeta. fields.
  repeat apply conj; reflexivity.
Qed.

Record init_facts (c0 : ProblemaContext) (k : list Z) (c : ProblemaContext) : Prop := {
  init_key : key c = k;
  init_feedback : feedback c = repeat 0 16;
  init_initial_feedback : initial_feedback c = repeat 0 16;
  init_encrypt_mode : encrypt_mode c = true;
  init_initialized : initialized c = true;
  init_len_rotors : length (rotors c) = 8%nat;
  init_len_inverse : length (inverse_rotors c) = 8%nat;
  init_forward : forall r, 0 <= r < 8 ->
    rotor_at (rotors c) r = forward_of k r (rotor_at (rotors c0) r);
  init_inverse : forall r, 0 <= r < 8 ->
    rotor_at (inverse_rotors c) r =
      inverse_of (forward_of k r (rotor_at (rotors c0) r))
                 (rotor_at (inverse_rotors c0) r);
  init_plug : plugboard_mapping (plugboard c) =
                plug_table k (plugboard_mapping (plugboard c0));
  init_sbox : sbox (aes c) =
                shuffle_sbox k (fill_identity PROBLEMA_SBOX_SIZE (sbox (aes c0)));
  init_inv_sbox : inv_sbox (aes c) =
                    invert_table PROBLEMA_SBOX_SIZE (sbox (aes c)) (inv_sbox (aes c0));
  init_round_keys : round_keys (aes c) = key_round_keys k (round_keys (aes c0))
}.

Lemma init_facts_chain c0 k c1 c2 c3 c4 :
  context_sized c0 -> length k = 32%nat ->
  c1 = with_key c0 (memcpy (key c0) k PROBLEMA_KEY_SIZE) ->
  rotors_initialized c1 c2 PROBLEMA_NUM_ROTORS ->
  plugboard_initialized c2 c3 ->
  aes_initialized c3 c4 ->
  init_facts c0 k
    (with_initialized
       (with_encrypt_mode
          (with_initial_feedback
             (with_feedback c4 (memset0 (feedback c4) PROBLEMA_BLOCK_SIZE))
             (memset0 (initial_feedback
                         (with_feedback c4 (memset0 (feedback c4) PROBLEMA_BLOCK_SIZE)))
                      PROBLEMA_BLOCK_SIZE))
          true)
       true).
Proof.
  intros (L1 & L2 & L3 & L4 & L5) Hk -> 
         (E1 & E2 & E3 & E4 & E5 & E6 & E7 & E8 & E9 & Hlo & _)
         (A1 & A2 & A3 & A4 & A5 & A6 & A7)
         (B1 & B2 & B3 & B4 & B5 & B6 & B7 & B8 & B9).
  assert (Hk1 : memcpy (key c0) k PROBLEMA_KEY_SIZE = k).
  { apply memcpy_exact; unfold PROBLEMA_KEY_SIZE; lia. }
  revert E1 E4 E5 E8 E9 Hlo E2 E3. fields. rewrite Hk1.
  intros E1 E4 E5 E8 E9 Hlo E2 E3.
  split; fields.
  - congruence.
  - rewrite B5, A4, E4. apply memset0_exact. unfold PROBLEMA_BLOCK_SIZE. lia.
  - rewrite B6, A5, E5. apply memset0_exact. unfold PROBLEMA_BLOCK_SIZE. lia.
  - done.
  - done.
  - rewrite B1, A1, E8. done.
  - rewrite B2, A2, E9. done.
  - intros r Hr. rewrite B1, A1.
    destruct (Hlo r) as [-> _]; [unfold PROBLEMA_NUM_ROTORS; lia|]. done.
  - intros r Hr. rewrite B2, A2.
    destruct (Hlo r) as [_ ->]; [unfold PROBLEMA_NUM_ROTORS; lia|]. done.
  - rewrite B3, A7, E1, E2. done.
  - rewrite B7, A6, E3, A3, E1. done.
  - rewrite B8, A6, E3. done.
  - rewrite B9, A6, E3, A3, E1. done.
Qed.

Lemma init_context_facts c0 k :
  context_sized c0 -> length k = 32%nat -> init_facts c0 k (init_context c0 k).
Proof.
  intros Hs Hk.
  assert (Hs1 : context_sized (with_key c0 (memcpy (key c0) k PROBLEMA_KEY_SIZE))).
  { destruct Hs as (L1 & L2 & L3 & L4 & L5). unfold context_sized. fields.
    rewrite memcpy_exact by (unfold PROBLEMA_KEY_SIZE; lia). done. }
  exact (init_facts_chain c0 k _ _ _ _ Hs Hk eq_refl
           (init_rotors_spec _ Hs1)
           (init_plugboard_frame _) (init_aes_components_frame _)).
Qed.

Lemma forward_of_perm k r old :
  Forall is_byte k -> perm_table PROBLEMA_ROTOR_SIZE (mapping (forward_of k r old)).
Proof.
  intros Hk. unfold forward_of. fields.
  apply shuffle_rotor_perm; [done|]. apply fill_identity_perm. unfold PROBLEMA_ROTOR_SIZE. lia.
Qed.

Lemma inverse_of_get k r old oldi i :
  Forall is_byte k -> 0 <= i < PROBLEMA_ROTOR_SIZE ->
  tget (mapping (inverse_of (forward_of k r old) oldi))
       (tget (mapping (forward_of k r old)) i) = i.
Proof.
  intros Hk Hi. unfold inverse_of. fields.
  apply invert_table_get; [unfold PROBLEMA_ROTOR_SIZE; lia | | done].
  apply forward_of_perm. done.
Qed.

Lemma key_num_notches_range k r : Forall is_byte k -> 1 <= key_num_notches k r <= 7.
Proof.
  intros Hk. unfold key_num_notches.
  pose proof (key_byte_range k (r + 1) Hk).
  rewrite Z.rem_mod_nonneg by lia.
  pose proof (Z.mod_pos_bound (key_byte k (r + 1)) 7). lia.
Qed.

Lemma sbox_perm k old :
  Forall is_byte k ->
  perm_table PROBLEMA_SBOX_SIZE
    (shuffle_sbox k (fill_identity PROBLEMA_SBOX_SIZE old)).
Proof.
  intros Hk. apply shuffle_sbox_perm; [done|].
  apply fill_identity_perm. unfold PROBLEMA_SBOX_SIZE. lia.
Qed.

Definition zero_key : list Z := repeat 0 32.

Lemma blank_context_sized : context_sized blank_context.
Proof. repeat apply conj; reflexivity. Qed.

Lemma zero_key_valid : valid_key zero_key.
Proof.
  split; [reflexivity|]. unfold zero_key. apply Forall_forall.
  intros x Hx. apply list_elem_of_In, repeat_spec in Hx. subst x. unfold is_byte. lia.
Qed.

(** C7: immediately after a successful [problema_init] with a 32-byte key,
    every rotor mapping is a bijection of [0, 65536) whose inverse rotor
    mapping undoes it, the S-box is a bijection of [0, 256) undone by the
    inverse S-box, and every rotor has between 1 and 7 notches. *)
Theorem C7_key_schedule_invariants (c0 : ProblemaContext) (k : list Z) :
  context_sized c0 -> valid_key k ->
  exists c,
    problema_init (Some c0) (Some k) = (Some c, PROBLEMA_SUCCESS) /\
    (forall r, 0 <= r < 8 ->
       bijection_on 65536 (tget (mapping (rotor_at (rotors c) r))) /\
       (forall i, 0 <= i < 65536 ->
          tget (mapping (rotor_at (inverse_rotors c) r))
               (tget (mapping (rotor_at (rotors c) r)) i) = i) /\
       1 <= num_notches (rotor_at (rotors c) r) <= 7) /\
    bijection_on 256 (tget (sbox (aes c))) /\
    (forall b, 0 <= b < 256 ->
       tget (inv_sbox (aes c)) (tget (sbox (aes c)) b) = b).
Proof.
  intros Hs [Hlen Hk]. exists (init_context c0 k).
  split; [apply problema_init_some|].
  pose proof (init_context_facts c0 k Hs Hlen) as F.
  revert F. generalize (init_context c0 k). intros c [].
  split; [|split].
  - intros r Hr. rewrite init_inverse0, init_forward0 by lia.
    split; [|split].
    + apply perm_table_bijection. by apply forward_of_perm.
    + intros i Hi. by apply inverse_of_get.
    + unfold forward_of. fields. by apply key_num_notches_range.
  - rewrite init_sbox0. apply perm_table_bijection. by apply sbox_perm.
  - intros b Hb. rewrite init_inv_sbox0.
    apply invert_table_get; [unfold PROBLEMA_SBOX_SIZE; lia | | done].
    rewrite init_sbox0. by apply sbox_perm.
Qed.

Lemma C7_key_schedule_invariants_witness :
  exists c,
    problema_init (Some blank_context) (Some zero_key) = (Some c, PROBLEMA_SUCCESS) /\
    (forall r, 0 <= r < 8 ->
       bijection_on 65536 (tget (mapping (rotor_at (rotors c) r))) /\
       (forall i, 0 <= i < 65536 ->
          tget (mapping (rotor_at (inverse_rotors c) r))
               (tget (mapping (rotor_at (rotors c) r)) i) = i) /\
       1 <= num_notches (rotor_at (rotors c) r) <= 7) /\
    bijection_on 256 (tget (sbox (aes c))) /\
    (forall b, 0 <= b < 256 ->
       tget (inv_sbox (aes c)) (tget (sbox (aes c)) b) = b).
Proof.
  apply (C7_key_schedule_invariants blank_context zero_key).
  - repeat apply conj; reflexivity.
  - split; [reflexivity|]. repeat constructor; unfold is_byte; lia.
Defined.

(** ** Rotor advance *)

(** Rotor [x] stands on one of its notch positions. *)
Definition notch_hit (x : ProblemaRotor) : Prop :=
  exists n, 0 <= n < num_notches x /\ position x = aget (notch_positions x) n.

(** Everything of a rotor but its position. *)
Definition same_wiring (x y : ProblemaRotor) : Prop :=
  mapping x = mapping y /\ notch_positions x = notch_positions y /\
  num_notches x = num_notches y.

(** Forward and inverse rotor positions agree (invariant I1 of the spec). *)
Definition positions_synced (c : ProblemaContext) : Prop :=
  forall r, 0 <= r < 8 ->
    position (rotor_at (inverse_rotors c) r) = position (rotor_at (rotors c) r).

Definition positions_in_range (c : ProblemaContext) : Prop :=
  forall r, 0 <= r < 8 -> 0 <= position (rotor_at (rotors c) r) < 65536.

Lemma at_notch_from_spec x : forall n i,
  at_notch_from n i x = true <->
  exists m, i <= m < i + Z.of_nat n /\ position x = aget (notch_positions x) m.
Proof.
  induction n as [|n IH]; intros i; cbn [at_notch_from].
  - split; [discriminate | intros (m & Hm & _); lia].
  - destruct (Z.eqb_spec (position x) (aget (notch_positions x) i)) as [E|E].
    + split; [|done]. intros _. exists i. split; [lia | done].
    + rewrite IH. split.
      * intros (m & Hm & Hp). exists m. split; [lia | done].
      * intros (m & Hm & Hp). exists m. split; [|done].
        destruct (Z.eq_dec m i) as [->|]; [done | lia].
Qed.

Lemma at_notch_spec x : at_notch x = true <-> notch_hit x.
Proof.
  unfold at_notch, notch_hit. rewrite at_notch_from_spec. split.
  - intros (m & Hm & Hp). exists m. split; [lia | done].
  - intros (m & Hm & Hp). exists m. split; [lia | done].
Qed.

(** The effect of a call on the rotor bank: wiring and all other fields are
    kept, lengths are kept. *)
Record bank_step (c c' : ProblemaContext) : Prop := {
  step_len_rotors : length (rotors c') = length (rotors c);
  step_len_inverse : length (inverse_rotors c') = length (inverse_rotors c);
  step_plugboard : plugboard c' = plugboard c;
  step_aes : aes c' = aes c;
  step_key : key c' = key c;
  step_feedback : feedback c' = feedback c;
  step_initial_feedback : initial_feedback c' = initial_feedback c;
  step_encrypt_mode : encrypt_mode c' = encrypt_mode c;
  step_initialized : initialized c' = initialized c;
  step_wiring : forall q, 0 <= q ->
    same_wiring (rotor_at (rotors c') q) (rotor_at (rotors c) q) /\
    same_wiring (rotor_at (inverse_rotors c') q) (rotor_at (inverse_rotors c) q)
}.

Lemma bank_step_refl c : bank_step c c.
Proof. split; done. Qed.

Lemma bank_step_trans c1 c2 c3 : bank_step c1 c2 -> bank_step c2 c3 -> bank_step c1 c3.
Proof.
  intros [] []. split; try congruence.
  intros q Hq.
  destruct (step_wiring0 q Hq) as [(A1 & A2 & A3) (A4 & A5 & A6)].
  destruct (step_wiring1 q Hq) as [(B1 & B2 & B3) (B4 & B5 & B6)].
  split; repeat split; congruence.
Qed.

Lemma advance_rotor_spec c r :
  0 <= r -> (Z.to_nat r < length (rotors c))%nat ->
  (Z.to_nat r < length (inverse_rotors c))%nat ->
  let c' := advance_rotor c r in
  bank_step c c' /\
  position (rotor_at (rotors c') r) =
    Z.rem (position (rotor_at (rotors c) r) + 1) PROBLEMA_ROTOR_SIZE /\
  position (rotor_at (inverse_rotors c') r) = position (rotor_at (rotors c') r) /\
  (forall q, 0 <= q -> q <> r ->
     rotor_at (rotors c') q = rotor_at (rotors c) q /\
     rotor_at (inverse_rotors c') q = rotor_at (inverse_rotors c) q).
Proof.
  intros Hr L1 L2. unfold advance_rotor. cbv zeta. fields.
  repeat apply conj.
  - split; fields; rewrite ?length_rotor_put; try done.
    intros q Hq. destruct (Z.eq_dec q r) as [->|Hne].
    + rewrite !rotor_at_put_eq by done. split; repeat split.
    + rewrite !rotor_at_put_ne by done. split; repeat split.
  - rewrite rotor_at_put_eq by done. reflexivity.
  - rewrite !rotor_at_put_eq by done. reflexivity.
  - intros q Hq Hne. rewrite !rotor_at_put_ne by done. done.
Qed.

(** Rotors [r .. q-1] all stand on a notch. *)
Definition notches_from (c : ProblemaContext) (r q : Z) : Prop :=
  forall t, r <= t < q -> notch_hit (rotor_at (rotors c) t).

Lemma carry_from_spec : forall n r c,
  0 <= r -> r + Z.of_nat n <= 7 ->
  length (rotors c) = 8%nat -> length (inverse_rotors c) = 8%nat ->
  let c' := carry_from n r c in
  bank_step c c' /\
  (forall q, 0 <= q <= r ->
     rotor_at (rotors c') q = rotor_at (rotors c) q /\
     rotor_at (inverse_rotors c') q = rotor_at (inverse_rotors c) q) /\
  (forall q, r < q <= 7 ->
     (q <= r + Z.of_nat n /\ notches_from c' r q ->
        position (rotor_at (rotors c') q) =
          Z.rem (position (rotor_at (rotors c) q) + 1) PROBLEMA_ROTOR_SIZE /\
        position (rotor_at (inverse_rotors c') q) = position (rotor_at (rotors c') q)) /\
     (~ (q <= r + Z.of_nat n /\ notches_from c' r q) ->
        rotor_at (rotors c') q = rotor_at (rotors c) q /\
        rotor_at (inverse_rotors c') q = rotor_at (inverse_rotors c) q)).
Proof.
  induction n as [|n IH]; intros r c Hr Hn L1 L2; cbn [carry_from]; cbv zeta.
  - split; [apply bank_step_refl|]. split; [done|].
    intros q Hq. split; [intros [? _]; lia | done].
  - destruct (at_notch (rotor_at (rotors c) r)) eqn:Hat.
    + destruct (advance_rotor_spec c (r + 1)) as (S1 & P1 & P2 & F1); [lia | lia | lia |].
      cbv zeta in S1, P1, P2, F1.
      specialize (IH (r + 1) (advance_rotor c (r + 1))).
      destruct IH as (S2 & F2 & A2);
        [lia | lia | by rewrite (step_len_rotors _ _ S1)
         | by rewrite (step_len_inverse _ _ S1) |].
      revert S1 P1 P2 F1 S2 F2 A2.
      generalize (carry_from n (r + 1) (advance_rotor c (r + 1))).
      generalize (advance_rotor c (r + 1)).
      intros c1 c' S1 P1 P2 F1 S2 F2 A2.
      assert (Hr' : rotor_at (rotors c') r = rotor_at (rotors c) r).
      { destruct (F2 r) as [-> _]; [lia|]. destruct (F1 r) as [-> _]; [lia | lia | done]. }
      assert (Hhit : notch_hit (rotor_at (rotors c') r)).
      { rewrite Hr'. by apply at_notch_spec. }
      split; [by apply (bank_step_trans c c1 c')|]. split.
      * intros q Hq. destruct (F2 q) as [-> ->]; [lia|].
        destruct (F1 q) as [-> ->]; [lia | lia | done].
      * intros q Hq. destruct (Z.eq_dec q (r + 1)) as [->|Hne].
        -- split.
           ++ intros _. destruct (F2 (r + 1)) as [-> ->]; [lia|]. done.
           ++ intros Hno. exfalso. apply Hno. split; [lia|].
              intros t Ht. replace t with r by lia. done.
        -- destruct (A2 q) as [Y N]; [lia|].
           destruct (F1 q) as [E1 E2]; [lia | lia |]. split.
           ++ intros [Hle Hall]. rewrite <- E1. apply Y. split; [lia|].
              intros t Ht. apply Hall. lia.
           ++ intros Hno. rewrite <- E1, <- E2. apply N. intros [Hle Hall].
              apply Hno. split; [lia|]. intros t Ht.
              destruct (Z.eq_dec t r) as [->|]; [done | apply Hall; lia].
    + split; [apply bank_step_refl|]. split; [done|].
      intros q Hq. split; [|done].
      intros [_ Hall]. exfalso.
      assert (H : notch_hit (rotor_at (rotors c) r)) by (apply Hall; lia).
      apply at_notch_spec in H. congruence.
Qed.

Lemma notch_hit_dec x : {notch_hit x} + {~ notch_hit x}.
Proof.
  destruct (at_notch x) eqn:E.
  - left. by apply at_notch_spec.
  - right. intros H. apply at_notch_spec in H. congruence.
Qed.

(** Whether rotors [0 .. q-1] all stand on a notch is decidable. *)
Lemma classic_notches c q : notches_from c 0 q \/ ~ notches_from c 0 q.
Proof.
  destruct (Z_le_gt_dec q 0) as [Hle|Hgt].
  { left. intros t Ht. lia. }
  assert (H : forall n : nat,
             (forall t, 0 <= t < Z.of_nat n -> notch_hit (rotor_at (rotors c) t)) \/
             ~ (forall t, 0 <= t < Z.of_nat n -> notch_hit (rotor_at (rotors c) t))).
  { induction n as [|n [IH|IH]].
    - left. intros t Ht. lia.
    - destruct (notch_hit_dec (rotor_at (rotors c) (Z.of_nat n))) as [Hn|Hn].
      + left. intros t Ht. destruct (Z.eq_dec t (Z.of_nat n)) as [->|]; [done|].
        apply IH. lia.
      + right. intros Hall. apply Hn, Hall. lia.
    - right. intros Hall. apply IH. intros t Ht. apply Hall. lia. }
  destruct (H (Z.to_nat q)) as [Hall|Hno].
  - left. intros t Ht. apply Hall. lia.
  - right. intros Hall. apply Hno. intros t Ht. apply Hall. lia.
Qed.

Lemma rotate_rotors_spec c :
  length (rotors c) = 8%nat -> length (inverse_rotors c) = 8%nat ->
  let c' := rotate_rotors c in
  bank_step c c' /\
  position (rotor_at (rotors c') 0) =
    Z.rem (position (rotor_at (rotors c) 0) + 1) PROBLEMA_ROTOR_SIZE /\
  position (rotor_at (inverse_rotors c') 0) = position (rotor_at (rotors c') 0) /\
  (forall q, 1 <= q <= 7 ->
     (notches_from c' 0 q ->
        position (rotor_at (rotors c') q) =
          Z.rem (position (rotor_at (rotors c) q) + 1) PROBLEMA_ROTOR_SIZE /\
        position (rotor_at (inverse_rotors c') q) = position (rotor_at (rotors c') q)) /\
     (~ notches_from c' 0 q ->
        rotor_at (rotors c') q = rotor_at (rotors c) q /\
        rotor_at (inverse_rotors c') q = rotor_at (inverse_rotors c) q)).
Proof.
  intros L1 L2. unfold rotate_rotors.
  destruct (advance_rotor_spec c 0) as (S1 & P1 & P2 & F1); [lia | lia | lia |].
  cbv zeta in S1, P1, P2, F1.
  destruct (carry_from_spec (Z.to_nat (PROBLEMA_NUM_ROTORS - 1)) 0 (advance_rotor c 0))
    as (S2 & F2 & A2);
    [lia | unfold PROBLEMA_NUM_ROTORS; lia | by rewrite (step_len_rotors _ _ S1)
     | by rewrite (step_len_inverse _ _ S1) |].
  cbv zeta in S2, F2, A2.
  revert S1 P1 P2 F1 S2 F2 A2.
  generalize (carry_from (Z.to_nat (PROBLEMA_NUM_ROTORS - 1)) 0 (advance_rotor c 0)).
  generalize (advance_rotor c 0).
  intros c1 c' S1 P1 P2 F1 S2 F2 A2. cbv zeta.
  split; [by apply (bank_step_trans c c1 c')|].
  destruct (F2 0) as [E1 E2]; [lia|].
  split; [by rewrite E1|]. split; [by rewrite E1, E2|].
  intros q Hq. destruct (A2 q) as [Y N]; [lia|].
  destruct (F1 q) as [G1 G2]; [lia | lia |]. split.
  - intros Hall. rewrite <- G1. apply Y. split; [unfold PROBLEMA_NUM_ROTORS; lia | done].
  - intros Hno. rewrite <- G1, <- G2. apply N. intros [_ Hall]. done.
Qed.

Lemma rem_succ_mod p : 0 <= p -> Z.rem (p + 1) PROBLEMA_ROTOR_SIZE = (p + 1) mod 65536.
Proof. intros H. apply Z.rem_mod_nonneg; unfold PROBLEMA_ROTOR_SIZE; lia. Qed.

(** C6: one call of the rotor-advance step.  Rotor 0 moves by one modulo
    65536; rotor [q] (1..7) moves by one modulo 65536 exactly when all of
    rotors [0 .. q-1] stand on a notch after their own move, and keeps its
    position otherwise; afterwards every inverse rotor has the position of
    its forward rotor. *)
Theorem C6_rotate_rotors (c : ProblemaContext) :
  context_sized c -> positions_in_range c -> positions_synced c ->
  let pos := fun x r => position (rotor_at (rotors x) r) in
  let c' := rotate_rotors c in
  pos c' 0 = (pos c 0 + 1) mod 65536 /\
  (forall q, 1 <= q <= 7 ->
     (notches_from c' 0 q -> pos c' q = (pos c q + 1) mod 65536) /\
     (~ notches_from c' 0 q -> pos c' q = pos c q)) /\
  positions_synced c'.
Proof.
  intros (L1 & L2 & _) Hrange Hsync. cbv zeta.
  destruct (rotate_rotors_spec c L1 L2) as (S & P0 & I0 & Hq).
  cbv zeta in S, P0, I0, Hq. revert S P0 I0 Hq.
  generalize (rotate_rotors c). intros c' S P0 I0 Hq.
  split; [|split].
  - rewrite P0. apply rem_succ_mod. apply Hrange. lia.
  - intros q Hq'. destruct (Hq q Hq') as [Y N]. split.
    + intros H. destruct (Y H) as [-> _]. apply rem_succ_mod. apply Hrange. lia.
    + intros H. destruct (N H) as [-> _]. done.
  - intros r Hr. destruct (Z.eq_dec r 0) as [->|Hne]; [done|].
    destruct (Hq r) as [Y N]; [lia|].
    destruct (classic_notches c' r) as [H|H].
    + by destruct (Y H).
    + destruct (N H) as [-> ->]. apply Hsync. lia.
Qed.

Lemma C6_rotate_rotors_witness :
  let c := init_context blank_context zero_key in
  let pos := fun x r => position (rotor_at (rotors x) r) in
  let c' := rotate_rotors c in
  pos c' 0 = (pos c 0 + 1) mod 65536 /\
  (forall q, 1 <= q <= 7 ->
     (notches_from c' 0 q -> pos c' q = (pos c q + 1) mod 65536) /\
     (~ notches_from c' 0 q -> pos c' q = pos c q)) /\
  positions_synced c'.
Proof.
  apply (C6_rotate_rotors (init_context blank_context zero_key)).
  - repeat apply conj; lazy; reflexivity.
  - intros r Hr.
    assert (Hc : r = 0 \/ r = 1 \/ r = 2 \/ r = 3 \/ r = 4 \/ r = 5 \/ r = 6 \/ r = 7)
      by lia.
    repeat (destruct Hc as [-> | Hc]); try subst r; lazy;
      (split; [discriminate | reflexivity]).
  - intros r Hr.
    assert (Hc : r = 0 \/ r = 1 \/ r = 2 \/ r = 3 \/ r = 4 \/ r = 5 \/ r = 6 \/ r = 7)
      by lia.
    repeat (destruct Hc as [-> | Hc]); try subst r; lazy; reflexivity.
Defined.

(** ** The character pipeline in closed form *)

Lemma advance_rotor_with_encrypt_mode c r b :
  advance_rotor (with_encrypt_mode c b) r = with_encrypt_mode (advance_rotor c r) b.
Proof. reflexivity. Qed.

Lemma advance_rotor_with_feedback c r v :
  advance_rotor (with_feedback c v) r = with_feedback (advance_rotor c r) v.
Proof. reflexivity. Qed.

Lemma carry_from_with_encrypt_mode b : forall n r c,
  carry_from n r (with_encrypt_mode c b) = with_encrypt_mode (carry_from n r c) b.
Proof.
  induction n as [|n IH]; intros r c; cbn [carry_from]; [done|].
  change (rotors (with_encrypt_mode c b)) with (rotors c).
  destruct (at_notch (rotor_at (rotors c) r)); [|done].
  rewrite advance_rotor_with_encrypt_mode. apply IH.
Qed.

Lemma carry_from_with_feedback v : forall n r c,
  carry_from n r (with_feedback c v) = with_feedback (carry_from n r c) v.
Proof.
  induction n as [|n IH]; intros r c; cbn [carry_from]; [done|].
  change (rotors (with_feedback c v)) with (rotors c).
  destruct (at_notch (rotor_at (rotors c) r)); [|done].
  rewrite advance_rotor_with_feedback. apply IH.
Qed.

Lemma rotate_rotors_with_encrypt_mode c b :
  rotate_rotors (with_encrypt_mode c b) = with_encrypt_mode (rotate_rotors c) b.
Proof.
  unfold rotate_rotors. rewrite advance_rotor_with_encrypt_mode.
  apply carry_from_with_encrypt_mode.
Qed.

Lemma rotate_rotors_with_feedback c v :
  rotate_rotors (with_feedback c v) = with_feedback (rotate_rotors c) v.
Proof.
  unfold rotate_rotors. rewrite advance_rotor_with_feedback.
  apply carry_from_with_feedback.
Qed.

Lemma list_Z_eqb_eq a : forall b, list_Z_eqb a b = true -> a = b.
Proof.
  induction a as [|x a IH]; intros [|y b] H; cbn in H; try done.
  apply andb_prop in H as [H1 H2]. apply Z.eqb_eq in H1. f_equal; [done | by apply IH].
Qed.

Lemma memcmp_memcpy a b n : memcmp_eq a b n = true -> memcpy b a n = b.
Proof.
  unfold memcmp_eq, memcpy. intros H. apply list_Z_eqb_eq in H. rewrite H.
  apply take_drop.
Qed.

Lemma with_initial_feedback_same c : with_initial_feedback c (initial_feedback c) = c.
Proof. by destruct c. Qed.

(** The four bytes after the feedback XOR. *)
Definition xor4 (fb : list Z) (y : Z) : list Z :=
  [ byte_t_cast (Z.lxor (Z.land (Z.shiftr y 24) 255) (aget fb 0));
    byte_t_cast (Z.lxor (Z.land (Z.shiftr y 16) 255) (aget fb 1));
    byte_t_cast (Z.lxor (Z.land (Z.shiftr y 8) 255) (aget fb 2));
    byte_t_cast (Z.lxor (Z.land y 255) (aget fb 3)) ].

(** The feedback buffer after its first four cells are overwritten. *)
Definition put4 (fb bytes : list Z) : list Z :=
  aset (aset (aset (aset fb 0 (aget bytes 0)) 1 (aget bytes 1)) 2 (aget bytes 2))
       3 (aget bytes 3).

Lemma xor_feedback4_eq c y : xor_feedback4 c (split_bytes y) = xor4 (feedback c) y.
Proof. reflexivity. Qed.

Lemma store_feedback4_eq c bytes :
  store_feedback4 c bytes = with_feedback c (put4 (feedback c) bytes).
Proof. reflexivity. Qed.

(** The value that enters the feedback stage of [problema_encrypt_char]. *)
Definition encrypt_core (c : ProblemaContext) (x : Z) : Z :=
  apply_rotors_backward (rotate_rotors c) (apply_rotors_forward c (apply_plugboard c x)).

(** The value that leaves [problema_decrypt_char] for the word [w] obtained
    from the feedback stage. *)
Definition decrypt_core (c : ProblemaContext) (w : Z) : Z :=
  apply_plugboard c (apply_rotors_forward (rotate_rotors c) (apply_rotors_backward c w)).

Lemma apply_rotors_forward_ext c d x :
  rotors c = rotors d -> apply_rotors_forward c x = apply_rotors_forward d x.
Proof.
  intros E. unfold apply_rotors_forward. destruct (x >=? PROBLEMA_ROTOR_SIZE); [done|].
  generalize (Z.to_nat PROBLEMA_NUM_ROTORS) 0 x.
  induction n as [|n IH]; intros i y; cbn [for_up]; [done|].
  unfold rotor_forward_step at 2 4. rewrite E. apply IH.
Qed.

Lemma apply_rotors_backward_ext c d x :
  inverse_rotors c = inverse_rotors d ->
  apply_rotors_backward c x = apply_rotors_backward d x.
Proof.
  intros E. unfold apply_rotors_backward. destruct (x >=? PROBLEMA_ROTOR_SIZE); [done|].
  generalize (Z.to_nat PROBLEMA_NUM_ROTORS) (PROBLEMA_NUM_ROTORS - 1) x.
  induction n as [|n IH]; intros i y; cbn [for_down]; [done|].
  unfold rotor_backward_step at 2 4. rewrite E. apply IH.
Qed.

(** [rotate_rotors] touches nothing but the two rotor arrays. *)
Lemma carry_from_frame : forall n r c,
  let c' := carry_from n r c in
  plugboard c' = plugboard c /\ aes c' = aes c /\ key c' = key c /\
  feedback c' = feedback c /\ initial_feedback c' = initial_feedback c /\
  encrypt_mode c' = encrypt_mode c /\ initialized c' = initialized c.
Proof.
  induction n as [|n IH]; intros r c; cbn [carry_from]; cbv zeta; [done|].
  destruct (at_notch _); [|done].
  specialize (IH (r + 1) (advance_rotor c (r + 1))). cbv zeta in IH.
  revert IH. generalize (carry_from n (r + 1) (advance_rotor c (r + 1))).
  intros c' IH. exact IH.
Qed.

Lemma rotate_rotors_frame c :
  let c' := rotate_rotors c in
  plugboard c' = plugboard c /\ aes c' = aes c /\ key c' = key c /\
  feedback c' = feedback c /\ initial_feedback c' = initial_feedback c /\
  encrypt_mode c' = encrypt_mode c /\ initialized c' = initialized c.
Proof.
  unfold rotate_rotors.
  exact (carry_from_frame (Z.to_nat (PROBLEMA_NUM_ROTORS - 1)) 0 (advance_rotor c 0)).
Qed.

Lemma problema_encrypt_char_eq c x :
  initialized c = true ->
  problema_encrypt_char (Some c) x =
  let c1 := with_encrypt_mode (rotate_rotors c) true in
  let cb := xor4 (feedback c) (encrypt_core c x) in
  (Some (with_feedback c1 (put4 (feedback c) cb)), join_bytes cb).
Proof.
  intros Hi. unfold problema_encrypt_char. rewrite Hi. cbn [negb]. cbv zeta.
  rewrite rotate_rotors_with_encrypt_mode.
  change (apply_plugboard (with_encrypt_mode c true) x) with (apply_plugboard c x).
  change (apply_rotors_forward (with_encrypt_mode c true)) with (apply_rotors_forward c).
  change (apply_rotors_backward (with_encrypt_mode (rotate_rotors c) true))
    with (apply_rotors_backward (rotate_rotors c)).
  fold (encrypt_core c x).
  assert (Hfb : feedback (rotate_rotors c) = feedback c)
    by apply (rotate_rotors_frame c).
  set (c1 := with_encrypt_mode (rotate_rotors c) true).
  assert (E : (if memcmp_eq (feedback c1) (initial_feedback c1) PROBLEMA_BLOCK_SIZE
               then with_initial_feedback c1
                      (memcpy (initial_feedback c1) (feedback c1) PROBLEMA_BLOCK_SIZE)
               else c1) = c1).
  { destruct (memcmp_eq _ _ _) eqn:Hm; [|done].
    rewrite (memcmp_memcpy _ _ _ Hm). apply with_initial_feedback_same. }
  rewrite E. rewrite xor_feedback4_eq, store_feedback4_eq.
  change (feedback c1) with (feedback (rotate_rotors c)). rewrite Hfb. done.
Qed.

Lemma apply_plugboard_ext c d x :
  plugboard c = plugboard d -> apply_plugboard c x = apply_plugboard d x.
Proof. intros E. unfold apply_plugboard. by rewrite E. Qed.

Lemma problema_decrypt_char_eq c x :
  initialized c = true ->
  problema_decrypt_char (Some c) x =
  let fb' := put4 (feedback c) (split_bytes x) in
  let c1 := with_feedback (with_encrypt_mode (rotate_rotors c) false) fb' in
  (Some c1, decrypt_core c (join_bytes (xor4 (feedback c) x))).
Proof.
  intros Hi. unfold problema_decrypt_char. rewrite Hi. cbn [negb]. cbv zeta.
  rewrite xor_feedback4_eq, store_feedback4_eq.
  change (feedback (with_encrypt_mode c false)) with (feedback c).
  rewrite rotate_rotors_with_feedback, rotate_rotors_with_encrypt_mode.
  set (fb' := put4 (feedback c) (split_bytes x)).
  set (w := join_bytes (xor4 (feedback c) x)).
  change (apply_rotors_backward (with_feedback (with_encrypt_mode c false) fb'))
    with (apply_rotors_backward c).
  change (apply_rotors_forward
            (with_feedback (with_encrypt_mode (rotate_rotors c) false) fb'))
    with (apply_rotors_forward (rotate_rotors c)).
  f_equal. unfold decrypt_core.
  destruct (rotate_rotors_frame c) as (Hp & _). cbv zeta in Hp.
  apply apply_plugboard_ext. exact Hp.
Qed.

(** C9: with a null context, or a context whose [initialized] flag is
    false, both per-character operations return their input and leave the
    context as it is; their only result is the code point, so no error is
    reported. *)
Theorem C9_char_passthrough (ctx : option ProblemaContext) (x : Z) :
  ctx = None \/ (exists c, ctx = Some c /\ initialized c = false) ->
  problema_encrypt_char ctx x = (ctx, x) /\ problema_decrypt_char ctx x = (ctx, x).
Proof.
  intros [-> | (c & -> & Hi)].
  - split; reflexivity.
  - unfold problema_encrypt_char, problema_decrypt_char. rewrite Hi. split; reflexivity.
Qed.

Lemma C9_char_passthrough_witness :
  problema_encrypt_char (Some blank_context) 65 = (Some blank_context, 65) /\
  problema_decrypt_char (Some blank_context) 65 = (Some blank_context, 65).
Proof.
  apply (C9_char_passthrough (Some blank_context) 65).
  right. exists blank_context. split; reflexivity.
Defined.



(** ** One rotor advance per character *)

Lemma encrypt_char_bank c x :
  initialized c = true ->
  exists c', problema_encrypt_char (Some c) x =
               (Some c', join_bytes (xor4 (feedback c) (encrypt_core c x))) /\
             rotors c' = rotors (rotate_rotors c) /\
             inverse_rotors c' = inverse_rotors (rotate_rotors c) /\
             initialized c' = true /\
             plugboard c' = plugboard c /\ key c' = key c /\ aes c' = aes c /\
             feedback c' = put4 (feedback c) (xor4 (feedback c) (encrypt_core c x)).
Proof.
  intros Hi. rewrite problema_encrypt_char_eq by done. cbv zeta.
  eexists. split; [reflexivity|]. fields.
  destruct (rotate_rotors_frame c) as (F1 & F2 & F3 & F4 & F5 & F6 & F7).
  cbv zeta in F1, F2, F3, F4, F5, F6, F7.
  repeat apply conj; try reflexivity; congruence.
Qed.

Lemma decrypt_char_bank c x :
  initialized c = true ->
  exists c', problema_decrypt_char (Some c) x =
               (Some c', decrypt_core c (join_bytes (xor4 (feedback c) x))) /\
             rotors c' = rotors (rotate_rotors c) /\
             inverse_rotors c' = inverse_rotors (rotate_rotors c) /\
             initialized c' = true /\
             plugboard c' = plugboard c /\ key c' = key c /\ aes c' = aes c /\
             feedback c' = put4 (feedback c) (split_bytes x).
Proof.
  intros Hi. rewrite problema_decrypt_char_eq by done. cbv zeta.
  eexists. split; [reflexivity|]. fields.
  destruct (rotate_rotors_frame c) as (F1 & F2 & F3 & F4 & F5 & F6 & F7).
  cbv zeta in F1, F2, F3, F4, F5, F6, F7.
  repeat apply conj; try reflexivity; congruence.
Qed.

(** What the induction over a character stream carries along. *)
Definition stream_ready (c : ProblemaContext) : Prop :=
  initialized c = true /\ length (rotors c) = 8%nat /\
  length (inverse_rotors c) = 8%nat /\ 0 <= position (rotor_at (rotors c) 0) < 65536.

Lemma rotate_rotors_ready c c' :
  stream_ready c -> initialized c' = true ->
  rotors c' = rotors (rotate_rotors c) ->
  inverse_rotors c' = inverse_rotors (rotate_rotors c) ->
  stream_ready c' /\
  position (rotor_at (rotors c') 0) = (position (rotor_at (rotors c) 0) + 1) mod 65536.
Proof.
  intros (Hi & L1 & L2 & Hp) Hi' E1 E2.
  destruct (rotate_rotors_spec c L1 L2) as (S & P0 & _). cbv zeta in S, P0.
  rewrite <- E1 in P0. rewrite rem_succ_mod in P0 by lia.
  split; [|done]. unfold stream_ready. rewrite E1, E2.
  rewrite (step_len_rotors _ _ S), (step_len_inverse _ _ S), <- E1, P0.
  pose proof (Z.mod_pos_bound (position (rotor_at (rotors c) 0) + 1) 65536).
  repeat apply conj; try done; lia.
Qed.

Lemma encrypt_chars_position : forall cps c,
  stream_ready c ->
  exists c', fst (encrypt_chars (Some c) cps) = Some c' /\ stream_ready c' /\
    position (rotor_at (rotors c') 0) =
      (position (rotor_at (rotors c) 0) + Z.of_nat (length cps)) mod 65536.
Proof.
  induction cps as [|x cps IH]; intros c Hc.
  - exists c. cbn [encrypt_chars fst length]. split; [done|]. split; [done|].
    destruct Hc as (_ & _ & _ & Hp). rewrite Z.add_0_r, Z.mod_small; lia.
  - pose proof Hc as (Hi & _).
    destruct (encrypt_char_bank c x Hi) as (c1 & E & R1 & R2 & I1 & _).
    destruct (rotate_rotors_ready c c1 Hc I1 R1 R2) as (Hc1 & P1).
    destruct (IH c1 Hc1) as (c' & E' & Hc' & P').
    exists c'. cbn [encrypt_chars]. rewrite E.
    destruct (encrypt_chars (Some c1) cps) as [c2 ys]. cbn [fst] in *.
    split; [done|]. split; [done|].
    rewrite P', P1, Z.add_mod_idemp_l by lia. f_equal. cbn [length]. lia.
Qed.

Lemma decrypt_chars_position : forall cps c,
  stream_ready c ->
  exists c', fst (decrypt_chars (Some c) cps) = Some c' /\ stream_ready c' /\
    position (rotor_at (rotors c') 0) =
      (position (rotor_at (rotors c) 0) + Z.of_nat (length cps)) mod 65536.
Proof.
  induction cps as [|x cps IH]; intros c Hc.
  - exists c. cbn [decrypt_chars fst length]. split; [done|]. split; [done|].
    destruct Hc as (_ & _ & _ & Hp). rewrite Z.add_0_r, Z.mod_small; lia.
  - pose proof Hc as (Hi & _).
    destruct (decrypt_char_bank c x Hi) as (c1 & E & R1 & R2 & I1 & _).
    destruct (rotate_rotors_ready c c1 Hc I1 R1 R2) as (Hc1 & P1).
    destruct (IH c1 Hc1) as (c' & E' & Hc' & P').
    exists c'. cbn [decrypt_chars]. rewrite E.
    destruct (decrypt_chars (Some c1) cps) as [c2 ys]. cbn [fst] in *.
    split; [done|]. split; [done|].
    rewrite P', P1, Z.add_mod_idemp_l by lia. f_equal. cbn [length]. lia.
Qed.

(** C10: on an initialized context every call of [problema_encrypt_char]
    or [problema_decrypt_char] leaves the rotor arrays exactly as one call
    of [rotate_rotors] does, whatever the code point (also above 0xFFFF);
    hence after [n] code points rotor 0 has moved by [n] modulo 65536. *)
Theorem C10_one_advance_per_char (c : ProblemaContext) :
  context_sized c -> initialized c = true ->
  0 <= position (rotor_at (rotors c) 0) < 65536 ->
  (forall x, exists c1 c2,
     fst (problema_encrypt_char (Some c) x) = Some c1 /\
     fst (problema_decrypt_char (Some c) x) = Some c2 /\
     rotors c1 = rotors (rotate_rotors c) /\
     inverse_rotors c1 = inverse_rotors (rotate_rotors c) /\
     rotors c2 = rotors (rotate_rotors c) /\
     inverse_rotors c2 = inverse_rotors (rotate_rotors c)) /\
  (forall cps, exists c1 c2,
     fst (encrypt_chars (Some c) cps) = Some c1 /\
     fst (decrypt_chars (Some c) cps) = Some c2 /\
     position (rotor_at (rotors c1) 0) =
       (position (rotor_at (rotors c) 0) + Z.of_nat (length cps)) mod 65536 /\
     position (rotor_at (rotors c2) 0) =
       (position (rotor_at (rotors c) 0) + Z.of_nat (length cps)) mod 65536).
Proof.
  intros (L1 & L2 & _) Hi Hp.
  assert (Hc : stream_ready c) by done.
  split.
  - intros x.
    destruct (encrypt_char_bank c x Hi) as (c1 & E1 & A1 & A2 & _).
    destruct (decrypt_char_bank c x Hi) as (c2 & E2 & B1 & B2 & _).
    exists c1, c2. rewrite E1, E2. done.
  - intros cps.
    destruct (encrypt_chars_position cps c Hc) as (c1 & E1 & _ & P1).
    destruct (decrypt_chars_position cps c Hc) as (c2 & E2 & _ & P2).
    exists c1, c2. done.
Qed.

Lemma C10_one_advance_per_char_witness :
  let c := init_context blank_context zero_key in
  (forall x, exists c1 c2,
     fst (problema_encrypt_char (Some c) x) = Some c1 /\
     fst (problema_decrypt_char (Some c) x) = Some c2 /\
     rotors c1 = rotors (rotate_rotors c) /\
     inverse_rotors c1 = inverse_rotors (rotate_rotors c) /\
     rotors c2 = rotors (rotate_rotors c) /\
     inverse_rotors c2 = inverse_rotors (rotate_rotors c)) /\
  (forall cps, exists c1 c2,
     fst (encrypt_chars (Some c) cps) = Some c1 /\
     fst (decrypt_chars (Some c) cps) = Some c2 /\
     position (rotor_at (rotors c1) 0) =
       (position (rotor_at (rotors c) 0) + Z.of_nat (length cps)) mod 65536 /\
     position (rotor_at (rotors c2) 0) =
       (position (rotor_at (rotors c) 0) + Z.of_nat (length cps)) mod 65536).
Proof.
  apply (C10_one_advance_per_char (init_context blank_context zero_key)).
  - repeat apply conj; lazy; reflexivity.
  - reflexivity.
  - lazy. split; [discriminate | reflexivity].
Defined.

(** ** Bytes and words *)

Lemma byte_t_cast_range z : 0 <= byte_t_cast z < 256.
Proof. unfold byte_t_cast. apply Z.mod_pos_bound. lia. Qed.

Lemma byte_t_cast_id z : 0 <= z < 256 -> byte_t_cast z = z.
Proof. intros H. unfold byte_t_cast. apply Z.mod_small. done. Qed.

Lemma lor_high_low h l k : 0 <= k -> 0 <= l < 2 ^ k -> Z.lor (h * 2 ^ k) l = h * 2 ^ k + l.
Proof.
  intros Hk Hl. symmetry. apply Z.add_nocarry_lor. apply Z.bits_inj'. intros n Hn.
  rewrite Z.land_spec, Z.bits_0. destruct (Z.lt_ge_cases n k).
  - by rewrite Z.mul_pow2_bits_low by lia.
  - rewrite <- (Z.mod_small l (2 ^ k)) by lia.
    rewrite Z.mod_pow2_bits_high by lia. apply andb_false_r.
Qed.

Lemma join_bytes_sum a b c d :
  is_byte a -> is_byte b -> is_byte c -> is_byte d ->
  join_bytes [a; b; c; d] = a * 16777216 + b * 65536 + c * 256 + d.
Proof.
  unfold is_byte. intros Ha Hb Hc Hd.
  change (join_bytes [a; b; c; d])
    with (Z.lor (Z.lor (Z.lor (u32 (Z.shiftl a 24)) (u32 (Z.shiftl b 16)))
                       (u32 (Z.shiftl c 8))) d).
  rewrite !Z.shiftl_mul_pow2 by lia. unfold u32.
  rewrite !Z.mod_small by lia.
  rewrite <- !Z.lor_assoc.
  rewrite (lor_high_low c d 8) by lia.
  rewrite (lor_high_low b _ 16) by lia.
  rewrite (lor_high_low a _ 24) by lia.
  lia.
Qed.

Lemma aget_aset l i j v :
  0 <= i -> 0 <= j ->
  aget (aset l i v) j = if (i =? j) && (Z.to_nat j <? length l)%nat then v else aget l j.
Proof.
  intros Hi Hj. unfold aget, aset. rewrite !nth_lookup.
  destruct (Z.eqb_spec i j) as [->|Hne]; cbn [andb].
  - destruct (Nat.ltb_spec (Z.to_nat j) (length l)) as [Hlt|Hge].
    + by rewrite list_lookup_insert_eq.
    + by rewrite list_insert_ge by lia.
  - by rewrite list_lookup_insert_ne by lia.
Qed.

(** Overwriting a cell with the value it is known to hold, or reading
    another cell. *)
Lemma aget_put4_0 fb a b c d : aget fb 0 = a -> aget (put4 fb [a; b; c; d]) 0 = a.
Proof.
  intros H. unfold put4. change (aget [a; b; c; d] 0) with a.
  rewrite !aget_aset by lia. cbn [Z.eqb andb].
  destruct (_ <? _)%nat; done.
Qed.

Lemma aget_put4_1 fb a b c d : aget fb 1 = b -> aget (put4 fb [a; b; c; d]) 1 = b.
Proof.
  intros H. unfold put4. change (aget [a; b; c; d] 1) with b.
  rewrite !aget_aset by lia. cbn [Z.eqb Pos.eqb andb].
  destruct (_ <? _)%nat; done.
Qed.

Lemma shiftr_small y n : 0 <= n -> 0 <= y < 2 ^ n -> Z.shiftr y n = 0.
Proof. intros Hn Hy. rewrite Z.shiftr_div_pow2 by done. by apply Z.div_small. Qed.

Lemma xor4_bmp fb y :
  0 <= y < 65536 ->
  xor4 fb y =
  [ byte_t_cast (aget fb 0); byte_t_cast (aget fb 1);
    byte_t_cast (Z.lxor (Z.land (Z.shiftr y 8) 255) (aget fb 2));
    byte_t_cast (Z.lxor (Z.land y 255) (aget fb 3)) ].
Proof.
  intros Hy. unfold xor4.
  rewrite (shiftr_small y 24), (shiftr_small y 16) by lia.
  change (Z.land 0 255) with 0. by rewrite !Z.lxor_0_l.
Qed.

(** ** The plugboard and the cascades stay inside the BMP *)

(** The plugboard table maps [0, 65536) into itself. *)
Definition plug_bmp (c : ProblemaContext) : Prop :=
  forall x, 0 <= x < 65536 -> 0 <= tget (plugboard_mapping (plugboard c)) x < 65536.

Lemma plug_index_range k i :
  Forall is_byte k ->
  0 <= plug_a k i < PROBLEMA_ROTOR_SIZE /\ 0 <= plug_b k i < PROBLEMA_ROTOR_SIZE.
Proof.
  intros Hk. unfold plug_a, plug_b, PROBLEMA_ROTOR_SIZE.
  pose proof (key_byte_range k i Hk). pose proof (key_byte_range k (i + 1) Hk).
  pose proof (key_byte_range k (i + 2) Hk). pose proof (key_byte_range k (i + 3) Hk).
  rewrite !Z.rem_mod_nonneg by lia.
  split; apply Z.mod_pos_bound; lia.
Qed.

Lemma plug_table_perm k old :
  Forall is_byte k -> perm_table PROBLEMA_ROTOR_SIZE (plug_table k old).
Proof.
  intros Hk. unfold plug_table.
  generalize (Z.to_nat (Z.rem (aget k 0) 100 + 50)). intros n.
  apply (for_up_invariant (fun _ m => perm_table PROBLEMA_ROTOR_SIZE m) _ n 0).
  - apply fill_identity_perm. unfold PROBLEMA_ROTOR_SIZE. lia.
  - intros i m _ Hm. destruct (plug_index_range k i Hk). by apply swap_cells_perm.
Qed.

Lemma init_context_plug_bmp c0 k :
  context_sized c0 -> valid_key k -> plug_bmp (init_context c0 k).
Proof.
  intros Hs [Hlen Hk]. pose proof (init_context_facts c0 k Hs Hlen) as F.
  revert F. generalize (init_context c0 k). intros c [].
  unfold plug_bmp. rewrite init_plug0.
  destruct (perm_table_bijection _ _ (plug_table_perm k
              (plugboard_mapping (plugboard c0)) Hk)) as (Hr & _).
  exact Hr.
Qed.

Lemma rotor_forward_step_range c r y :
  0 <= rotor_forward_step c r y < PROBLEMA_ROTOR_SIZE.
Proof. unfold rotor_forward_step. apply Z.mod_pos_bound. unfold PROBLEMA_ROTOR_SIZE. lia. Qed.

Lemma rotor_backward_step_range c r y :
  0 <= rotor_backward_step c r y < PROBLEMA_ROTOR_SIZE.
Proof. unfold rotor_backward_step. apply Z.mod_pos_bound. unfold PROBLEMA_ROTOR_SIZE. lia. Qed.

Lemma apply_rotors_forward_bmp c x :
  0 <= x < 65536 -> 0 <= apply_rotors_forward c x < 65536.
Proof.
  intros Hx. unfold apply_rotors_forward, PROBLEMA_ROTOR_SIZE.
  destruct (Z.geb_spec x 65536); [lia|].
  generalize (Z.to_nat PROBLEMA_NUM_ROTORS). intros n.
  apply (for_up_invariant (fun _ y => 0 <= y < 65536) _ n 0 x Hx).
  intros i y _ _. apply rotor_forward_step_range.
Qed.

Lemma apply_rotors_backward_bmp c x :
  0 <= x < 65536 -> 0 <= apply_rotors_backward c x < 65536.
Proof.
  intros Hx. unfold apply_rotors_backward, PROBLEMA_ROTOR_SIZE.
  destruct (Z.geb_spec x 65536); [lia|].
  generalize (Z.to_nat PROBLEMA_NUM_ROTORS). intros n.
  apply (for_down_invariant (fun _ y => 0 <= y < 65536) _ n _ x Hx).
  intros i y _ _. apply rotor_backward_step_range.
Qed.

Lemma encrypt_core_bmp c x :
  plug_bmp c -> 0 <= x < 65536 -> 0 <= encrypt_core c x < 65536.
Proof.
  intros Hp Hx. unfold encrypt_core.
  apply apply_rotors_backward_bmp, apply_rotors_forward_bmp.
  unfold apply_plugboard, PROBLEMA_ROTOR_SIZE.
  destruct (Z.ltb_spec x 65536); [by apply Hp | lia].
Qed.

(** A code point outside the BMP bypasses plugboard and rotors. *)
Lemma encrypt_core_bypass c x : 65536 <= x -> encrypt_core c x = x.
Proof.
  intros Hx. unfold encrypt_core, apply_plugboard, apply_rotors_forward,
    apply_rotors_backward, PROBLEMA_ROTOR_SIZE.
  destruct (Z.ltb_spec x 65536); [lia|].
  destruct (Z.geb_spec x 65536); [|lia].
  destruct (Z.geb_spec x 65536); [done | lia].
Qed.

(** ** BMP input and the high half of the feedback *)

(** For a BMP code point the two high bytes that leave the feedback stage
    are the two high feedback bytes, and these stay in the buffer. *)
Lemma encrypt_char_bmp c x v0 v1 :
  initialized c = true -> plug_bmp c -> 0 <= x < 65536 ->
  is_byte v0 -> is_byte v1 ->
  aget (feedback c) 0 = v0 -> aget (feedback c) 1 = v1 ->
  exists c' lo,
    problema_encrypt_char (Some c) x = (Some c', v0 * 16777216 + v1 * 65536 + lo) /\
    0 <= lo < 65536 /\
    initialized c' = true /\ plug_bmp c' /\
    aget (feedback c') 0 = v0 /\ aget (feedback c') 1 = v1.
Proof.
  intros Hi Hp Hx H0 H1 E0 E1.
  destruct (encrypt_char_bank c x Hi) as (c' & E & _ & _ & Hi' & Hp' & _ & _ & Hfb).
  pose proof (encrypt_core_bmp c x Hp Hx) as Hy.
  rewrite xor4_bmp in E, Hfb by done.
  rewrite E0, E1, !byte_t_cast_id in E, Hfb by done.
  set (b2 := byte_t_cast (Z.lxor (Z.land (Z.shiftr (encrypt_core c x) 8) 255)
                                 (aget (feedback c) 2))) in *.
  set (b3 := byte_t_cast (Z.lxor (Z.land (encrypt_core c x) 255)
                                 (aget (feedback c) 3))) in *.
  pose proof (byte_t_cast_range (Z.lxor (Z.land (Z.shiftr (encrypt_core c x) 8) 255)
                                        (aget (feedback c) 2))) as R2.
  pose proof (byte_t_cast_range (Z.lxor (Z.land (encrypt_core c x) 255)
                                        (aget (feedback c) 3))) as R3.
  fold b2 in R2. fold b3 in R3.
  rewrite join_bytes_sum in E by done.
  exists c', (b2 * 256 + b3). split; [rewrite E; f_equal; lia|].
  split; [lia|]. split; [done|]. split.
  - unfold plug_bmp. rewrite Hp'. exact Hp.
  - rewrite Hfb. split; [by apply aget_put4_0 | by apply aget_put4_1].
Qed.

Lemma encrypt_chars_app : forall a c b,
  encrypt_chars c (a ++ b) =
  (fst (encrypt_chars (fst (encrypt_chars c a)) b),
   snd (encrypt_chars c a) ++ snd (encrypt_chars (fst (encrypt_chars c a)) b)).
Proof.
  induction a as [|x a IH]; intros c b.
  - cbn [app encrypt_chars fst snd]. by destruct (encrypt_chars c b).
  - cbn [app encrypt_chars]. destruct (problema_encrypt_char c x) as [c1 y].
    rewrite IH. destruct (encrypt_chars c1 a) as [c2 ys]. cbn [fst snd].
    by destruct (encrypt_chars c2 b).
Qed.

Definition is_bmp (x : Z) : Prop := 0 <= x <= 65535.

Lemma encrypt_chars_bmp : forall cps c,
  initialized c = true -> plug_bmp c ->
  aget (feedback c) 0 = 0 -> aget (feedback c) 1 = 0 ->
  Forall is_bmp cps ->
  length (snd (encrypt_chars (Some c) cps)) = length cps /\
  Forall is_bmp (snd (encrypt_chars (Some c) cps)).
Proof.
  induction cps as [|x cps IH]; intros c Hi Hp E0 E1 Hall.
  - cbn [encrypt_chars snd]. split; [done | constructor].
  - apply Forall_cons in Hall as [Hx Hall]. unfold is_bmp in Hx.
    assert (Hx' : 0 <= x < 65536) by lia.
    assert (Hb : is_byte 0) by (unfold is_byte; lia).
    destruct (encrypt_char_bmp c x 0 0 Hi Hp Hx' Hb Hb E0 E1)
      as (c' & lo & E & Hlo & Hi' & Hp' & F0 & F1).
    destruct (IH c' Hi' Hp' F0 F1 Hall) as [L A].
    cbn [encrypt_chars]. rewrite E.
    destruct (encrypt_chars (Some c') cps) as [c2 ys]. cbn [snd length] in *.
    split; [by rewrite L|]. constructor; [unfold is_bmp; lia | done].
Qed.

Lemma encrypt_entry_ready c :
  initialized c = true -> plug_bmp c ->
  initialized (encrypt_entry c) = true /\ plug_bmp (encrypt_entry c) /\
  aget (feedback (encrypt_entry c)) 0 = 0 /\ aget (feedback (encrypt_entry c)) 1 = 0.
Proof. intros Hi Hp. repeat apply conj; done. Qed.

(** ** Code points outside the BMP *)

Lemma land_255 z : Z.land z 255 = z mod 256.
Proof. change 255 with (Z.ones 8). rewrite Z.land_ones by lia. done. Qed.

Lemma split_bytes_bytes s : Forall is_byte (split_bytes s).
Proof.
  unfold split_bytes. repeat constructor; unfold is_byte; rewrite land_255;
    apply Z.mod_pos_bound; lia.
Qed.

(** Splitting a 32-bit word into bytes and joining them again. *)
Lemma join_split_bytes s : 0 <= s < 4294967296 -> join_bytes (split_bytes s) = s.
Proof.
  intros Hs. unfold split_bytes.
  rewrite join_bytes_sum; try (unfold is_byte; rewrite land_255; apply Z.mod_pos_bound; lia).
  rewrite !land_255, !Z.shiftr_div_pow2 by lia.
  change (2 ^ 24) with 16777216. change (2 ^ 16) with 65536. change (2 ^ 8) with 256.
  Z.to_euclidean_division_equations. lia.
Qed.

Lemma xor4_zero fb s :
  aget fb 0 = 0 -> aget fb 1 = 0 -> aget fb 2 = 0 -> aget fb 3 = 0 ->
  xor4 fb s = split_bytes s.
Proof.
  intros E0 E1 E2 E3. unfold xor4, split_bytes. rewrite E0, E1, E2, E3, !Z.lxor_0_r.
  rewrite !byte_t_cast_id; [done | | | |]; rewrite land_255; apply Z.mod_pos_bound; lia.
Qed.

(** With zero feedback a code point above 0xFFFF is emitted unchanged and
    its four bytes become the feedback. *)
Lemma encrypt_char_supplementary c s :
  initialized c = true -> 65536 <= s < 4294967296 ->
  aget (feedback c) 0 = 0 -> aget (feedback c) 1 = 0 ->
  aget (feedback c) 2 = 0 -> aget (feedback c) 3 = 0 ->
  exists c',
    problema_encrypt_char (Some c) s = (Some c', s) /\
    initialized c' = true /\ plugboard c' = plugboard c /\
    feedback c' = put4 (feedback c) (split_bytes s).
Proof.
  intros Hi Hs E0 E1 E2 E3.
  destruct (encrypt_char_bank c s Hi) as (c' & E & _ & _ & Hi' & Hp' & _ & _ & Hfb).
  rewrite encrypt_core_bypass in E, Hfb by lia.
  rewrite xor4_zero in E, Hfb by done.
  rewrite join_split_bytes in E by lia.
  exists c'. done.
Qed.

Lemma aget_put4_long fb bytes :
  (4 <= length fb)%nat ->
  aget (put4 fb bytes) 0 = aget bytes 0 /\ aget (put4 fb bytes) 1 = aget bytes 1.
Proof.
  intros L. unfold put4. rewrite !aget_aset by lia. rewrite !length_aset.
  cbn [Z.eqb Pos.eqb andb].
  destruct (Nat.ltb_spec (Z.to_nat 0) (length fb)); [|lia].
  destruct (Nat.ltb_spec (Z.to_nat 1) (length fb)); [|lia]. done.
Qed.

(** A BMP code point that follows a code point above 0xFFFF at the start
    of a stream is emitted above 0xFFFF. *)
Lemma bmp_after_supplementary c s x :
  initialized c = true -> plug_bmp c -> (4 <= length (feedback c))%nat ->
  aget (feedback c) 0 = 0 -> aget (feedback c) 1 = 0 ->
  aget (feedback c) 2 = 0 -> aget (feedback c) 3 = 0 ->
  65536 <= s < 4294967296 -> 0 <= x < 65536 ->
  exists y, snd (encrypt_chars (Some c) [s; x]) = [s; y] /\ 65536 <= y.
Proof.
  intros Hi Hp L E0 E1 E2 E3 Hs Hx.
  destruct (encrypt_char_supplementary c s Hi Hs E0 E1 E2 E3) as (c1 & E & Hi1 & Hp1 & Hfb).
  destruct (aget_put4_long (feedback c) (split_bytes s) L) as [G0 G1].
  rewrite <- Hfb in G0, G1.
  change (aget (split_bytes s) 0) with (Z.land (Z.shiftr s 24) 255) in G0.
  change (aget (split_bytes s) 1) with (Z.land (Z.shiftr s 16) 255) in G1.
  assert (B0 : is_byte (Z.land (Z.shiftr s 24) 255))
    by (unfold is_byte; rewrite land_255; apply Z.mod_pos_bound; lia).
  assert (B1 : is_byte (Z.land (Z.shiftr s 16) 255))
    by (unfold is_byte; rewrite land_255; apply Z.mod_pos_bound; lia).
  assert (Hp1' : plug_bmp c1) by (unfold plug_bmp; rewrite Hp1; exact Hp).
  destruct (encrypt_char_bmp c1 x _ _ Hi1 Hp1' Hx B0 B1 G0 G1)
    as (c2 & lo & E' & Hlo & _).
  eexists. cbn [encrypt_chars]. rewrite E, E'. cbn [snd]. split; [reflexivity|].
  rewrite !land_255, !Z.shiftr_div_pow2 by lia.
  change (2 ^ 24) with 16777216. change (2 ^ 16) with 65536.
  Z.to_euclidean_division_equations. lia.
Qed.

(** The state in which the character loop of [problema_encrypt] starts. *)
Record entry_state (c : ProblemaContext) : Prop := {
  entry_initialized : initialized c = true;
  entry_plug : plug_bmp c;
  entry_len : (4 <= length (feedback c))%nat;
  entry_fb0 : aget (feedback c) 0 = 0;
  entry_fb1 : aget (feedback c) 1 = 0;
  entry_fb2 : aget (feedback c) 2 = 0;
  entry_fb3 : aget (feedback c) 3 = 0
}.

Lemma encrypt_entry_state c :
  initialized c = true -> plug_bmp c -> entry_state (encrypt_entry c).
Proof.
  intros Hi Hp. split; try done.
  unfold encrypt_entry. fields. unfold memset0. rewrite length_app, repeat_length.
  change (Z.to_nat PROBLEMA_BLOCK_SIZE) with 16%nat. lia.
Qed.

Lemma init_entry_state c0 k :
  context_sized c0 -> valid_key k -> entry_state (encrypt_entry (init_context c0 k)).
Proof.
  intros Hs Hk. apply encrypt_entry_state.
  - destruct Hk as [Hlen _]. by destruct (init_context_facts c0 k Hs Hlen).
  - by apply init_context_plug_bmp.
Qed.


(** ** Reduced AES: the declared inverse does not invert *)

Lemma apply_aes_transformation_ext c d b :
  aes c = aes d -> apply_aes_transformation c b = apply_aes_transformation d b.
Proof. intros E. unfold apply_aes_transformation. by rewrite E. Qed.

Lemma apply_inverse_aes_transformation_ext c d b :
  aes c = aes d ->
  apply_inverse_aes_transformation c b = apply_inverse_aes_transformation d b.
Proof. intros E. unfold apply_inverse_aes_transformation. by rewrite E. Qed.

Lemma xor_feedback_block_ext c d b :
  feedback c = feedback d -> xor_feedback_block c b = xor_feedback_block d b.
Proof. intros E. unfold xor_feedback_block. by rewrite E. Qed.

(** The AES component derived from key [k] over old contents [old]. *)
Definition aes_of_key (k : list Z) (old : ProblemaAES) : ProblemaAES :=
  let s := shuffle_sbox k (fill_identity PROBLEMA_SBOX_SIZE (sbox old)) in
  mkAES s (invert_table PROBLEMA_SBOX_SIZE s (inv_sbox old))
        (key_round_keys k (round_keys old)).

Lemma init_context_aes c0 k :
  context_sized c0 -> length k = 32%nat -> aes (init_context c0 k) = aes_of_key k (aes c0).
Proof.
  intros Hs Hk. pose proof (init_context_facts c0 k Hs Hk) as F.
  revert F. generalize (init_context c0 k). intros c [].
  unfold aes_of_key. cbv zeta. rewrite <- init_sbox0, <- init_inv_sbox0, <- init_round_keys0.
  by destruct (aes c).
Qed.

(** A context that carries only the AES component of key [k] and a zero
    feedback buffer: what block mode reads from a fresh context. *)
Definition block_view (k : list Z) : ProblemaContext :=
  with_feedback (with_aes blank_context (aes_of_key k (aes blank_context))) (repeat 0 16).

Lemma block_view_agrees k :
  length k = 32%nat ->
  aes (init_context blank_context k) = aes (block_view k) /\
  feedback (init_context blank_context k) = feedback (block_view k) /\
  initialized (init_context blank_context k) = true.
Proof.
  intros Hk. pose proof (init_context_facts _ k blank_context_sized Hk) as F.
  rewrite (init_context_aes _ k blank_context_sized Hk).
  revert F. generalize (init_context blank_context k). intros c []. done.
Qed.

Lemma encrypt_block_out c inp out :
  initialized c = true ->
  snd (problema_encrypt_block (Some c) (Some inp) (Some out)) =
  Some (apply_aes_transformation c
          (xor_feedback_block c (memcpy out inp PROBLEMA_BLOCK_SIZE))).
Proof. intros Hi. unfold problema_encrypt_block. rewrite Hi. reflexivity. Qed.

Lemma decrypt_block_out c inp out :
  initialized c = true ->
  snd (problema_decrypt_block (Some c) (Some inp) (Some out)) =
  Some (xor_feedback_block c
          (apply_inverse_aes_transformation c (memcpy out inp PROBLEMA_BLOCK_SIZE))).
Proof. intros Hi. unfold problema_decrypt_block. rewrite Hi. reflexivity. Qed.

Definition sample_block : list Z := [1; 2; 3; 4; 5; 6; 7; 8; 9; 10; 11; 12; 13; 14; 15; 16].

(** C4: the reduced-AES transforms are not mutual inverses.  For the
    all-zero key and the block 01 02 .. 10, the inverse transform applied
    to the forward transform does not give the block back, and neither does
    [problema_decrypt_block] on a fresh context of the same key applied to
    the output of [problema_encrypt_block]. *)
Theorem C4_reduced_aes_not_inverse :
  exists k b,
    valid_key k /\ length b = 16%nat /\ Forall is_byte b /\
    let c := init_context blank_context k in
    apply_inverse_aes_transformation c (apply_aes_transformation c b) <> b /\
    exists e,
      snd (problema_encrypt_block (Some c) (Some b) (Some (repeat 0 16))) = Some e /\
      snd (problema_decrypt_block (Some c) (Some e) (Some (repeat 0 16))) <> Some b.
Proof.
  exists zero_key, sample_block.
  split; [apply zero_key_valid|]. split; [reflexivity|].
  split; [repeat constructor; unfold is_byte; lia|].
  destruct (block_view_agrees zero_key eq_refl) as (Ea & Ef & Hi).
  revert Ea Ef Hi. generalize (init_context blank_context zero_key).
  intros c Ea Ef Hi. cbv zeta. split.
  - rewrite (apply_aes_transformation_ext c _ _ Ea).
    rewrite (apply_inverse_aes_transformation_ext c _ _ Ea).
    vm_compute. discriminate.
  - eexists. split.
    + rewrite (encrypt_block_out c _ _ Hi). reflexivity.
    + rewrite (decrypt_block_out c _ _ Hi).
      rewrite (xor_feedback_block_ext c _ _ Ef).
      rewrite (apply_inverse_aes_transformation_ext c _ _ Ea).
      rewrite (apply_aes_transformation_ext c _ _ Ea).
      rewrite (xor_feedback_block_ext c _ _ Ef).
      vm_compute. discriminate.
Qed.

(** ** UTF-8 codec *)

(** Well-formed UTF-8 byte sequences (Unicode Standard, Table 3-7). *)
Definition in_range (lo hi b : Z) : bool := (lo <=? b) && (b <=? hi).

Fixpoint well_formed_utf8 (s : list Z) : bool :=
  match s with
  | [] => true
  | b0 :: rest =>
      if in_range 0 127 b0 then well_formed_utf8 rest
      else if in_range 194 223 b0 then
        match rest with
        | b1 :: rest' => in_range 128 191 b1 && well_formed_utf8 rest'
        | _ => false
        end
      else if in_range 224 239 b0 then
        match rest with
        | b1 :: b2 :: rest' =>
            in_range (if b0 =? 224 then 160 else 128) (if b0 =? 237 then 159 else 191) b1
            && in_range 128 191 b2 && well_formed_utf8 rest'
        | _ => false
        end
      else if in_range 240 244 b0 then
        match rest with
        | b1 :: b2 :: b3 :: rest' =>
            in_range (if b0 =? 240 then 144 else 128) (if b0 =? 244 then 143 else 191) b1
            && in_range 128 191 b2 && in_range 128 191 b3 && well_formed_utf8 rest'
        | _ => false
        end
      else false
  end.

Lemma forall_below (P : Z -> bool) (n : nat) :
  forallb P (map Z.of_nat (seq 0 n)) = true ->
  forall b, 0 <= b < Z.of_nat n -> P b = true.
Proof.
  intros H b Hb. rewrite forallb_forall in H. apply H.
  apply in_map_iff. exists (Z.to_nat b). split; [lia|]. apply in_seq. lia.
Qed.

(** The lead-byte and continuation-byte tests of [utf8_to_unicode], as
    intervals. *)
Lemma byte_masks b :
  0 <= b < 256 ->
  (Z.land b 128 =? 0) = (b <? 128) /\
  (Z.land b 224 =? 192) = in_range 192 223 b /\
  (Z.land b 240 =? 224) = in_range 224 239 b /\
  (Z.land b 248 =? 240) = in_range 240 247 b /\
  is_cont b = in_range 128 191 b.
Proof.
  intros Hb.
  pose (P := fun b =>
    Bool.eqb (Z.land b 128 =? 0) (b <? 128) &&
    Bool.eqb (Z.land b 224 =? 192) (in_range 192 223 b) &&
    Bool.eqb (Z.land b 240 =? 224) (in_range 224 239 b) &&
    Bool.eqb (Z.land b 248 =? 240) (in_range 240 247 b) &&
    Bool.eqb (is_cont b) (in_range 128 191 b)).
  assert (H : P b = true) by (apply (forall_below P 256); [vm_compute; reflexivity | lia]).
  unfold P in H. rewrite !andb_true_iff in H.
  destruct H as ((((H1 & H2) & H3) & H4) & H5).
  apply eqb_prop in H1, H2, H3, H4, H5. done.
Qed.

Lemma in_range_spec lo hi b : in_range lo hi b = true <-> lo <= b <= hi.
Proof. unfold in_range. rewrite andb_true_iff, !Z.leb_le. done. Qed.

Lemma in_range_true lo hi b : lo <= b <= hi -> in_range lo hi b = true.
Proof. apply in_range_spec. Qed.

Lemma in_range_false lo hi b : b < lo \/ hi < b -> in_range lo hi b = false.
Proof.
  intros H. destruct (in_range lo hi b) eqn:E; [|done].
  apply in_range_spec in E. lia.
Qed.

Lemma land_mask z n : 0 <= n -> Z.land z (Z.ones n) = z mod 2 ^ n.
Proof. intros. by apply Z.land_ones. Qed.

(** Payload arithmetic of the two-, three- and four-byte forms. *)
Lemma decode2_value b0 b1 :
  192 <= b0 <= 223 -> 128 <= b1 <= 191 ->
  Z.lor (Z.shiftl (Z.land b0 31) 6) (Z.land b1 63) = (b0 - 192) * 64 + (b1 - 128).
Proof.
  intros H0 H1.
  change 31 with (Z.ones 5). change 63 with (Z.ones 6).
  rewrite !land_mask, Z.shiftl_mul_pow2 by lia.
  rewrite lor_high_low by (try apply Z.mod_pos_bound; lia).
  change (2 ^ 5) with 32. change (2 ^ 6) with 64.
  Z.to_euclidean_division_equations. lia.
Qed.

Lemma decode3_value b0 b1 b2 :
  224 <= b0 <= 239 -> 128 <= b1 <= 191 -> 128 <= b2 <= 191 ->
  Z.lor (Z.lor (Z.shiftl (Z.land b0 15) 12) (Z.shiftl (Z.land b1 63) 6)) (Z.land b2 63)
  = (b0 - 224) * 4096 + (b1 - 128) * 64 + (b2 - 128).
Proof.
  intros H0 H1 H2.
  change 15 with (Z.ones 4). change 63 with (Z.ones 6).
  rewrite !land_mask, !Z.shiftl_mul_pow2 by lia.
  change (2 ^ 4) with 16. change (2 ^ 6) with 64.
  assert (E0 : b0 mod 16 = b0 - 224) by (Z.to_euclidean_division_equations; lia).
  assert (E1 : b1 mod 64 = b1 - 128) by (Z.to_euclidean_division_equations; lia).
  assert (E2 : b2 mod 64 = b2 - 128) by (Z.to_euclidean_division_equations; lia).
  rewrite E0, E1, E2. rewrite <- Z.lor_assoc.
  change 64 with (2 ^ 6). rewrite (lor_high_low (b1 - 128) (b2 - 128) 6) by lia.
  rewrite (lor_high_low (b0 - 224) _ 12) by lia.
  change (2 ^ 12) with 4096. change (2 ^ 6) with 64. lia.
Qed.

Lemma decode4_value b0 b1 b2 b3 :
  240 <= b0 <= 247 -> 128 <= b1 <= 191 -> 128 <= b2 <= 191 -> 128 <= b3 <= 191 ->
  Z.lor (Z.lor (Z.lor (Z.shiftl (Z.land b0 7) 18) (Z.shiftl (Z.land b1 63) 12))
               (Z.shiftl (Z.land b2 63) 6)) (Z.land b3 63)
  = (b0 - 240) * 262144 + (b1 - 128) * 4096 + (b2 - 128) * 64 + (b3 - 128).
Proof.
  intros H0 H1 H2 H3.
  change 7 with (Z.ones 3). change 63 with (Z.ones 6).
  rewrite !land_mask, !Z.shiftl_mul_pow2 by lia.
  change (2 ^ 3) with 8. change (2 ^ 6) with 64.
  assert (E0 : b0 mod 8 = b0 - 240) by (Z.to_euclidean_division_equations; lia).
  assert (E1 : b1 mod 64 = b1 - 128) by (Z.to_euclidean_division_equations; lia).
  assert (E2 : b2 mod 64 = b2 - 128) by (Z.to_euclidean_division_equations; lia).
  assert (E3 : b3 mod 64 = b3 - 128) by (Z.to_euclidean_division_equations; lia).
  rewrite E0, E1, E2, E3. rewrite <- !Z.lor_assoc.
  change 64 with (2 ^ 6). rewrite (lor_high_low (b2 - 128) (b3 - 128) 6) by lia.
  rewrite (lor_high_low (b1 - 128) _ 12) by lia.
  rewrite (lor_high_low (b0 - 240) _ 18) by lia.
  change (2 ^ 18) with 262144. change (2 ^ 12) with 4096. change (2 ^ 6) with 64. lia.
Qed.

(** The bytes stored by [unicode_to_utf8]. *)
Lemma lead_byte tag h k :
  0 <= k -> 0 <= h < 2 ^ k -> 0 <= tag -> tag * 2 ^ k + h < 256 ->
  byte_t_cast (Z.lor (tag * 2 ^ k) h) = tag * 2 ^ k + h.
Proof.
  intros Hk Hh Ht Hb. rewrite lor_high_low by done. apply byte_t_cast_id. lia.
Qed.

Lemma cont_byte v : byte_t_cast (Z.lor 128 (Z.land v 63)) = 128 + v mod 64.
Proof.
  change 63 with (Z.ones 6). rewrite land_mask by lia. change (2 ^ 6) with 64.
  pose proof (Z.mod_pos_bound v 64).
  change 128 with (2 * 2 ^ 6) at 1. rewrite lead_byte; change (2 ^ 6) with 64; lia.
Qed.

Lemma lead2_byte c : 128 <= c <= 2047 -> byte_t_cast (Z.lor 192 (Z.shiftr c 6)) = 192 + c / 64.
Proof.
  intros Hc. rewrite Z.shiftr_div_pow2 by lia. change (2 ^ 6) with 64.
  assert (0 <= c / 64 < 32) by (Z.to_euclidean_division_equations; lia).
  change 192 with (6 * 2 ^ 5) at 1. rewrite lead_byte; change (2 ^ 5) with 32; lia.
Qed.

Lemma lead3_byte c :
  2048 <= c <= 65535 -> byte_t_cast (Z.lor 224 (Z.shiftr c 12)) = 224 + c / 4096.
Proof.
  intros Hc. rewrite Z.shiftr_div_pow2 by lia. change (2 ^ 12) with 4096.
  assert (0 <= c / 4096 < 16) by (Z.to_euclidean_division_equations; lia).
  change 224 with (14 * 2 ^ 4) at 1. rewrite lead_byte; change (2 ^ 4) with 16; lia.
Qed.

Lemma lead4_byte c :
  65536 <= c <= 1114111 -> byte_t_cast (Z.lor 240 (Z.shiftr c 18)) = 240 + c / 262144.
Proof.
  intros Hc. rewrite Z.shiftr_div_pow2 by lia. change (2 ^ 18) with 262144.
  assert (0 <= c / 262144 < 8) by (Z.to_euclidean_division_equations; lia).
  change 240 with (30 * 2 ^ 3) at 1. rewrite lead_byte; change (2 ^ 3) with 8; lia.
Qed.

(** The UTF-8 form of one code point, by arithmetic. *)
Definition utf8_bytes (c : Z) : list Z :=
  if c <=? 127 then [c]
  else if c <=? 2047 then [192 + c / 64; 128 + c mod 64]
  else if c <=? 65535 then [224 + c / 4096; 128 + (c / 64) mod 64; 128 + c mod 64]
  else [240 + c / 262144; 128 + (c / 4096) mod 64; 128 + (c / 64) mod 64; 128 + c mod 64].

Definition is_code_point (c : Z) : Prop := 0 <= c <= 1114111.

Lemma utf8_bytes_length c : (1 <= length (utf8_bytes c) <= 4)%nat.
Proof.
  unfold utf8_bytes.
  destruct (c <=? 127); [cbn; lia|]. destruct (c <=? 2047); [cbn; lia|].
  destruct (c <=? 65535); cbn; lia.
Qed.

Ltac decide_tests :=
  repeat match goal with
         | |- context [?a <=? ?b] => destruct (Z.leb_spec a b); try lia
         | |- context [?a >? ?b] => destruct (Z.gtb_spec a b); try lia
         | |- context [?a <? ?b] => destruct (Z.ltb_spec a b); try lia
         end.

(** One iteration of the loop of [unicode_to_utf8] on a valid code point
    that fits in the buffer. *)
Lemma unicode_to_utf8_step c rest j size :
  is_code_point c -> j + Z.of_nat (length (utf8_bytes c)) <= size ->
  unicode_to_utf8_from (c :: rest) j size =
  (fst (unicode_to_utf8_from rest (j + Z.of_nat (length (utf8_bytes c))) size),
   utf8_bytes c ++ snd (unicode_to_utf8_from rest (j + Z.of_nat (length (utf8_bytes c))) size)).
Proof.
  unfold is_code_point. intros Hc Hfit. cbn [unicode_to_utf8_from]. revert Hfit.
  unfold utf8_bytes.
  destruct (Z.leb_spec c 127).
  { cbn [length]. intros Hfit. destruct (Z.gtb_spec (j + 1) size); [lia|].
    change (Z.of_nat 1) with 1.
    destruct (unicode_to_utf8_from rest (j + 1) size) as [rc out]. cbn [fst snd app].
    rewrite byte_t_cast_id by lia. done. }
  destruct (Z.leb_spec c 2047).
  { cbn [length]. intros Hfit. destruct (Z.gtb_spec (j + 2) size); [lia|].
    change (Z.of_nat 2) with 2.
    destruct (unicode_to_utf8_from rest (j + 2) size) as [rc out]. cbn [fst snd app].
    rewrite lead2_byte, cont_byte by lia. done. }
  destruct (Z.leb_spec c 65535).
  { cbn [length]. intros Hfit. destruct (Z.gtb_spec (j + 3) size); [lia|].
    change (Z.of_nat 3) with 3.
    destruct (unicode_to_utf8_from rest (j + 3) size) as [rc out]. cbn [fst snd app].
    rewrite lead3_byte, !cont_byte by lia.
    rewrite Z.shiftr_div_pow2 by lia. done. }
  destruct (Z.leb_spec c 1114111); [|lia].
  cbn [length]. intros Hfit. destruct (Z.gtb_spec (j + 4) size); [lia|].
  change (Z.of_nat 4) with 4.
  destruct (unicode_to_utf8_from rest (j + 4) size) as [rc out]. cbn [fst snd app].
  rewrite lead4_byte, !cont_byte by lia.
  rewrite !Z.shiftr_div_pow2 by lia. done.
Qed.

(** One iteration of the loop of [utf8_to_unicode] on the UTF-8 form of a
    valid code point, with room for it. *)
Lemma utf8_to_unicode_step c bs j usize :
  is_code_point c -> j < usize ->
  utf8_to_unicode_from (utf8_bytes c ++ bs) j usize =
  (fst (utf8_to_unicode_from bs (j + 1) usize),
   c :: snd (utf8_to_unicode_from bs (j + 1) usize)).
Proof.
  unfold is_code_point. intros Hc Hj. unfold utf8_bytes.
  destruct (Z.leb_spec c 127).
  { cbn [app utf8_to_unicode_from].
    destruct (Z.ltb_spec j usize); [|lia]. cbn [negb].
    destruct (byte_masks c) as (M1 & _); [lia|]. rewrite M1.
    destruct (Z.ltb_spec c 128); [|lia].
    by destruct (utf8_to_unicode_from bs (j + 1) usize). }
  destruct (Z.leb_spec c 2047).
  { assert (R0 : 194 <= 192 + c / 64 <= 223) by (Z.to_euclidean_division_equations; lia).
    assert (R1 : 128 <= 128 + c mod 64 <= 191) by (Z.to_euclidean_division_equations; lia).
    cbn [app utf8_to_unicode_from].
    destruct (Z.ltb_spec j usize); [|lia]. cbn [negb].
    destruct (byte_masks (192 + c / 64)) as (M1 & M2 & _); [lia|]. rewrite M1, M2.
    destruct (byte_masks (128 + c mod 64)) as (_ & _ & _ & _ & M5); [lia|]. rewrite M5.
    destruct (Z.ltb_spec (192 + c / 64) 128); [lia|].
    rewrite !in_range_true by lia. cbn [negb].
    rewrite decode2_value by lia.
    destruct (utf8_to_unicode_from bs (j + 1) usize). cbn [fst snd]. f_equal. f_equal.
    Z.to_euclidean_division_equations. lia. }
  destruct (Z.leb_spec c 65535).
  { assert (R0 : 224 <= 224 + c / 4096 <= 239) by (Z.to_euclidean_division_equations; lia).
    assert (R1 : 128 <= 128 + (c / 64) mod 64 <= 191)
      by (Z.to_euclidean_division_equations; lia).
    assert (R2 : 128 <= 128 + c mod 64 <= 191) by (Z.to_euclidean_division_equations; lia).
    cbn [app utf8_to_unicode_from].
    destruct (Z.ltb_spec j usize); [|lia]. cbn [negb].
    destruct (byte_masks (224 + c / 4096)) as (M1 & M2 & M3 & _); [lia|].
    rewrite M1, M2, M3.
    destruct (byte_masks (128 + (c / 64) mod 64)) as (_ & _ & _ & _ & M5); [lia|].
    destruct (byte_masks (128 + c mod 64)) as (_ & _ & _ & _ & M6); [lia|].
    rewrite M5, M6.
    destruct (Z.ltb_spec (224 + c / 4096) 128); [lia|].
    rewrite (in_range_false 192 223) by lia.
    rewrite !in_range_true by lia. cbn [negb orb].
    rewrite decode3_value by lia.
    destruct (utf8_to_unicode_from bs (j + 1) usize). cbn [fst snd]. f_equal. f_equal.
    Z.to_euclidean_division_equations. lia. }
  assert (R0 : 240 <= 240 + c / 262144 <= 244) by (Z.to_euclidean_division_equations; lia).
  assert (R1 : 128 <= 128 + (c / 4096) mod 64 <= 191)
    by (Z.to_euclidean_division_equations; lia).
  assert (R2 : 128 <= 128 + (c / 64) mod 64 <= 191)
    by (Z.to_euclidean_division_equations; lia).
  assert (R3 : 128 <= 128 + c mod 64 <= 191) by (Z.to_euclidean_division_equations; lia).
  cbn [app utf8_to_unicode_from].
  destruct (Z.ltb_spec j usize); [|lia]. cbn [negb].
  destruct (byte_masks (240 + c / 262144)) as (M1 & M2 & M3 & M4 & _); [lia|].
  rewrite M1, M2, M3, M4.
  destruct (byte_masks (128 + (c / 4096) mod 64)) as (_ & _ & _ & _ & M5); [lia|].
  destruct (byte_masks (128 + (c / 64) mod 64)) as (_ & _ & _ & _ & M6); [lia|].
  destruct (byte_masks (128 + c mod 64)) as (_ & _ & _ & _ & M7); [lia|].
  rewrite M5, M6, M7.
  destruct (Z.ltb_spec (240 + c / 262144) 128); [lia|].
  rewrite (in_range_false 192 223), (in_range_false 224 239) by lia.
  rewrite !in_range_true by lia. cbn [negb orb].
  rewrite decode4_value by lia.
  destruct (utf8_to_unicode_from bs (j + 1) usize). cbn [fst snd]. f_equal. f_equal.
  Z.to_euclidean_division_equations. lia.
Qed.

Lemma encode_then_decode : forall cps j size j' usize,
  Forall is_code_point cps ->
  j + 4 * Z.of_nat (length cps) <= size ->
  j' + Z.of_nat (length cps) <= usize ->
  unicode_to_utf8_from cps j size = (PROBLEMA_SUCCESS, concat (map utf8_bytes cps)) /\
  utf8_to_unicode_from (concat (map utf8_bytes cps)) j' usize = (PROBLEMA_SUCCESS, cps).
Proof.
  induction cps as [|c cps IH]; intros j size j' usize Hall Hsize Husize.
  - split; reflexivity.
  - apply Forall_cons in Hall as [Hc Hall].
    pose proof (utf8_bytes_length c) as Hlen. cbn [length] in Hsize, Husize.
    destruct (IH (j + Z.of_nat (length (utf8_bytes c))) size (j' + 1) usize Hall)
      as [E1 E2]; [lia | lia |].
    cbn [map concat]. split.
    + rewrite unicode_to_utf8_step by (done || lia). by rewrite E1.
    + rewrite utf8_to_unicode_step by (done || lia). by rewrite E2.
Qed.

(** A non-empty well-formed string starts with the UTF-8 form of a code
    point and continues with a well-formed string. *)
Lemma well_formed_head b0 rest :
  well_formed_utf8 (b0 :: rest) = true ->
  exists c rest',
    is_code_point c /\ b0 :: rest = utf8_bytes c ++ rest' /\
    well_formed_utf8 rest' = true.
Proof.
  cbn [well_formed_utf8]. unfold is_code_point, utf8_bytes.
  destruct (in_range 0 127 b0) eqn:A1.
  { apply in_range_spec in A1. intros Hw. exists b0, rest.
    destruct (Z.leb_spec b0 127); [|lia]. repeat split; (lia || done). }
  destruct (in_range 194 223 b0) eqn:A2.
  { apply in_range_spec in A2. destruct rest as [|b1 rest']; [done|].
    rewrite andb_true_iff, in_range_spec. intros [H1 Hw].
    exists ((b0 - 192) * 64 + (b1 - 128)), rest'.
    destruct (Z.leb_spec ((b0 - 192) * 64 + (b1 - 128)) 127); [lia|].
    destruct (Z.leb_spec ((b0 - 192) * 64 + (b1 - 128)) 2047); [|lia].
    split; [lia|]. split; [|done]. cbn [app]. f_equal; [|f_equal];
      Z.to_euclidean_division_equations; lia. }
  destruct (in_range 224 239 b0) eqn:A3.
  { apply in_range_spec in A3. destruct rest as [|b1 [|b2 rest']]; [done | done |].
    rewrite !andb_true_iff, !in_range_spec. intros [[H1 H2] Hw].
    exists ((b0 - 224) * 4096 + (b1 - 128) * 64 + (b2 - 128)), rest'.
    destruct (Z.eqb_spec b0 224), (Z.eqb_spec b0 237); try lia;
      (destruct (Z.leb_spec ((b0 - 224) * 4096 + (b1 - 128) * 64 + (b2 - 128)) 127);
         [lia|];
       destruct (Z.leb_spec ((b0 - 224) * 4096 + (b1 - 128) * 64 + (b2 - 128)) 2047);
         [lia|];
       destruct (Z.leb_spec ((b0 - 224) * 4096 + (b1 - 128) * 64 + (b2 - 128)) 65535);
         [|lia];
       split; [lia|]; split; [|done]; cbn [app]; f_equal; [|f_equal; [|f_equal]];
       Z.to_euclidean_division_equations; lia). }
  destruct (in_range 240 244 b0) eqn:A4; [|done].
  apply in_range_spec in A4.
  destruct rest as [|b1 [|b2 [|b3 rest']]]; [done | done | done |].
  rewrite !andb_true_iff, !in_range_spec. intros [[[H1 H2] H3] Hw].
  exists ((b0 - 240) * 262144 + (b1 - 128) * 4096 + (b2 - 128) * 64 + (b3 - 128)), rest'.
  destruct (Z.eqb_spec b0 240), (Z.eqb_spec b0 244); try lia;
    (destruct (Z.leb_spec
                 ((b0 - 240) * 262144 + (b1 - 128) * 4096 + (b2 - 128) * 64 + (b3 - 128))
                 127); [lia|];
     destruct (Z.leb_spec
                 ((b0 - 240) * 262144 + (b1 - 128) * 4096 + (b2 - 128) * 64 + (b3 - 128))
                 2047); [lia|];
     destruct (Z.leb_spec
                 ((b0 - 240) * 262144 + (b1 - 128) * 4096 + (b2 - 128) * 64 + (b3 - 128))
                 65535); [lia|];
     split; [lia|]; split; [|done]; cbn [app];
     f_equal; [|f_equal; [|f_equal; [|f_equal]]];
     Z.to_euclidean_division_equations; lia).
Qed.

Lemma decode_then_encode : forall (n : nat) s j usize j' size,
  (length s <= n)%nat -> well_formed_utf8 s = true ->
  j + Z.of_nat (length s) <= usize -> j' + Z.of_nat (length s) <= size ->
  exists cps,
    Forall is_code_point cps /\
    utf8_to_unicode_from s j usize = (PROBLEMA_SUCCESS, cps) /\
    unicode_to_utf8_from cps j' size = (PROBLEMA_SUCCESS, s).
Proof.
  induction n as [|n IH]; intros s j usize j' size Hn Hw Hu Hs.
  - destruct s; [|cbn in Hn; lia]. exists []. repeat split; constructor.
  - destruct s as [|b0 rest]. { exists []. repeat split; constructor. }
    destruct (well_formed_head b0 rest Hw) as (c & rest' & Hc & E & Hw').
    pose proof (utf8_bytes_length c) as Hlen.
    assert (L : length (b0 :: rest) = (length (utf8_bytes c) + length rest')%nat)
      by (rewrite E; apply length_app).
    destruct (IH rest' (j + 1) usize (j' + Z.of_nat (length (utf8_bytes c))) size)
      as (cps & Hall & D & C); [cbn [length] in *; lia | done | lia | lia |].
    exists (c :: cps). rewrite E. split; [by constructor|]. split.
    + rewrite utf8_to_unicode_step by (done || lia). by rewrite D.
    + rewrite unicode_to_utf8_step by (done || lia). by rewrite C.
Qed.

(** C8: the codec round-trips in both directions.  Decoding a well-formed
    UTF-8 string and encoding the result gives the string back; encoding
    code points up to 0x10FFFF and decoding the result gives the code
    points back; all four calls return SUCCESS when the buffers are large
    enough. *)
Theorem C8_utf8_round_trips :
  (forall s usize size,
     well_formed_utf8 s = true ->
     Z.of_nat (length s) <= usize -> Z.of_nat (length s) <= size ->
     exists cps,
       utf8_to_unicode (Some s) (Some usize) = (PROBLEMA_SUCCESS, cps) /\
       unicode_to_utf8 (Some cps) (Some size) = (PROBLEMA_SUCCESS, s)) /\
  (forall cps size usize,
     Forall is_code_point cps ->
     4 * Z.of_nat (length cps) <= size -> Z.of_nat (length cps) <= usize ->
     exists bs,
       unicode_to_utf8 (Some cps) (Some size) = (PROBLEMA_SUCCESS, bs) /\
       utf8_to_unicode (Some bs) (Some usize) = (PROBLEMA_SUCCESS, cps)).
Proof.
  split.
  - intros s usize size Hw Hu Hs.
    destruct (decode_then_encode (length s) s 0 usize 0 size) as (cps & _ & D & C);
      [lia | done | lia | lia |].
    exists cps. done.
  - intros cps size usize Hall Hs Hu.
    destruct (encode_then_decode cps 0 size 0 usize Hall) as [E D]; [lia | lia |].
    eexists. split; [exact E | exact D].
Qed.

Lemma C8_utf8_round_trips_witness :
  (exists cps,
     utf8_to_unicode (Some [236; 149; 136; 240; 159; 152; 128]) (Some 7) =
       (PROBLEMA_SUCCESS, cps) /\
     unicode_to_utf8 (Some cps) (Some 7) =
       (PROBLEMA_SUCCESS, [236; 149; 136; 240; 159; 152; 128])) /\
  (exists bs,
     unicode_to_utf8 (Some [50504; 128512]) (Some 8) = (PROBLEMA_SUCCESS, bs) /\
     utf8_to_unicode (Some bs) (Some 2) = (PROBLEMA_SUCCESS, [50504; 128512])).
Proof.
  split.
  - apply (proj1 C8_utf8_round_trips [236; 149; 136; 240; 159; 152; 128] 7 7).
    + reflexivity.
    + cbn [length]. lia.
    + cbn [length]. lia.
  - apply (proj2 C8_utf8_round_trips [50504; 128512] 8 2).
    + repeat constructor; unfold is_code_point; lia.
    + cbn [length]. lia.
    + cbn [length]. lia.
Defined.

(** ** Table entries computed from the key

    A table that is built by swaps can be read without building it: the
    entry at [x] is found by following [x] through the transpositions.
    This gives the entries of the rotor, inverse rotor and plugboard tables
    as functions of the key. *)

Section Swaps.
Variables A B : Z -> Z.

(** Follow [x] through the swaps of an ascending loop, last swap first. *)
Fixpoint follow_up (n : nat) (i x : Z) : Z :=
  match n with
  | O => x
  | S m => transpose (A i) (B i) (follow_up m (i + 1) x)
  end.

(** Follow [x] through the swaps at [i, i+1, ...] in that order. *)
Fixpoint chase_up (n : nat) (i x : Z) : Z :=
  match n with
  | O => x
  | S m => chase_up m (i + 1) (transpose (A i) (B i) x)
  end.

(** Follow [x] through the swaps at [i, i-1, ...] in that order. *)
Fixpoint chase_down (n : nat) (i x : Z) : Z :=
  match n with
  | O => x
  | S m => chase_down m (i - 1) (transpose (A i) (B i) x)
  end.

Lemma for_up_swaps : forall n i t x,
  tget (for_up n i (fun i t => swap_cells t (A i) (B i)) t) x = tget t (follow_up n i x).
Proof.
  induction n as [|n IH]; intros i t x; cbn [for_up follow_up]; [done|].
  rewrite IH, tget_swap_cells. done.
Qed.

Lemma chase_up_snoc : forall n i x,
  chase_up (S n) i x = transpose (A (i + Z.of_nat n)) (B (i + Z.of_nat n)) (chase_up n i x).
Proof.
  induction n as [|n IH]; intros i x.
  - cbn [chase_up]. by replace (i + Z.of_nat 0) with i by lia.
  - change (chase_up (S (S n)) i x)
      with (chase_up (S n) (i + 1) (transpose (A i) (B i) x)).
    rewrite IH. cbn [chase_up].
    by replace (i + 1 + Z.of_nat n) with (i + Z.of_nat (S n)) by lia.
Qed.

(** In a descending loop the last swap is the one at the lowest index,
    so the entry at [x] is found by an ascending chase. *)
Lemma for_down_swaps : forall n i t x,
  tget (for_down n i (fun i t => swap_cells t (A i) (B i)) t) x =
  tget t (chase_up n (i - Z.of_nat n + 1) x).
Proof.
  induction n as [|n IH]; intros i t x; [done|].
  cbn [for_down]. rewrite IH, tget_swap_cells. f_equal.
  replace (i - 1 - Z.of_nat n + 1) with (i - Z.of_nat (S n) + 1) by lia.
  rewrite chase_up_snoc. f_equal; f_equal; lia.
Qed.

(** The descending chase undoes the ascending one. *)
Lemma chase_up_down : forall n i y,
  chase_up n (i - Z.of_nat n + 1) (chase_down n i y) = y.
Proof.
  induction n as [|n IH]; intros i y; [done|].
  rewrite chase_up_snoc. cbn [chase_down].
  replace (i - Z.of_nat (S n) + 1 + Z.of_nat n) with i by lia.
  replace (i - Z.of_nat (S n) + 1) with (i - 1 - Z.of_nat n + 1) by lia.
  rewrite IH. apply transpose_involutive.
Qed.

Lemma chase_down_range (N : Z) : forall n i y,
  (forall j, i - Z.of_nat n < j <= i -> 0 <= A j < N /\ 0 <= B j < N) ->
  0 <= y < N -> 0 <= chase_down n i y < N.
Proof.
  induction n as [|n IH]; intros i y Hab Hy; [done|].
  cbn [chase_down]. apply IH.
  - intros j Hj. apply Hab. lia.
  - destruct (Hab i) as [Ha Hb]; [lia|]. by apply transpose_range.
Qed.

Lemma chase_up_range (N : Z) : forall n i y,
  (forall j, i <= j < i + Z.of_nat n -> 0 <= A j < N /\ 0 <= B j < N) ->
  0 <= y < N -> 0 <= chase_up n i y < N.
Proof.
  induction n as [|n IH]; intros i y Hab Hy; [done|].
  cbn [chase_up]. apply IH.
  - intros j Hj. apply Hab. lia.
  - destruct (Hab i) as [Ha Hb]; [lia|]. by apply transpose_range.
Qed.

Lemma follow_up_range (N : Z) : forall n i y,
  (forall j, i <= j < i + Z.of_nat n -> 0 <= A j < N /\ 0 <= B j < N) ->
  0 <= y < N -> 0 <= follow_up n i y < N.
Proof.
  induction n as [|n IH]; intros i y Hab Hy; [done|].
  cbn [follow_up]. destruct (Hab i) as [Ha Hb]; [lia|].
  apply transpose_range; [done | done |]. apply IH; [|done].
  intros j Hj. apply Hab. lia.
Qed.
End Swaps.

(** The swap partner of index [i] in the shuffle of rotor [r]. *)
Definition rotor_partner (k : list Z) (r i : Z) : Z :=
  Z.rem (key_byte k (r + i) * i) (i + 1).

(** Entry [x] of the mapping of rotor [r]. *)
Definition rotor_entry (k : list Z) (r x : Z) : Z :=
  chase_up (fun i => i) (rotor_partner k r) (Z.to_nat (PROBLEMA_ROTOR_SIZE - 1)) 1 x.

(** Entry [y] of the mapping of inverse rotor [r]. *)
Definition inverse_entry (k : list Z) (r y : Z) : Z :=
  chase_down (fun i => i) (rotor_partner k r)
             (Z.to_nat (PROBLEMA_ROTOR_SIZE - 1)) (PROBLEMA_ROTOR_SIZE - 1) y.

(** Entry [x] of the plugboard mapping. *)
Definition plug_entry (k : list Z) (x : Z) : Z :=
  follow_up (plug_a k) (plug_b k) (Z.to_nat (Z.rem (aget k 0) 100 + 50)) 0 x.

Lemma rotor_partner_range k r j :
  Forall is_byte k -> 0 < j < PROBLEMA_ROTOR_SIZE ->
  0 <= j < PROBLEMA_ROTOR_SIZE /\ 0 <= rotor_partner k r j < PROBLEMA_ROTOR_SIZE.
Proof.
  intros Hk Hj. unfold rotor_partner.
  pose proof (key_byte_range k (r + j) Hk).
  pose proof (shuffle_index_range (key_byte k (r + j)) j). lia.
Qed.

Lemma forward_of_entry k r old x :
  0 <= x < PROBLEMA_ROTOR_SIZE -> Forall is_byte k ->
  tget (mapping (forward_of k r old)) x = rotor_entry k r x.
Proof.
  intros Hx Hk. unfold forward_of, shuffle_rotor, rotor_entry. fields.
  rewrite (for_down_swaps (fun i => i) (rotor_partner k r)).
  replace (PROBLEMA_ROTOR_SIZE - 1 - Z.of_nat (Z.to_nat (PROBLEMA_ROTOR_SIZE - 1)) + 1)
    with 1 by (unfold PROBLEMA_ROTOR_SIZE; lia).
  rewrite fill_identity_get by (unfold PROBLEMA_ROTOR_SIZE; lia).
  remember (Z.to_nat (PROBLEMA_ROTOR_SIZE - 1)) as n eqn:En.
  assert (Hn : Z.of_nat n = PROBLEMA_ROTOR_SIZE - 1)
    by (rewrite En; unfold PROBLEMA_ROTOR_SIZE; lia).
  clear En.
  assert (Hr : 0 <= chase_up (fun i => i) (rotor_partner k r) n 1 x < PROBLEMA_ROTOR_SIZE).
  { apply chase_up_range; [|done]. intros j Hj. apply rotor_partner_range; [done | lia]. }
  revert Hr. generalize (chase_up (fun i => i) (rotor_partner k r) n 1 x). intros z Hz.
  destruct (Z.leb_spec 0 z); [|lia].
  destruct (Z.ltb_spec z PROBLEMA_ROTOR_SIZE); [done | lia].
Qed.

Lemma rotor_entry_inverse_entry k r y : rotor_entry k r (inverse_entry k r y) = y.
Proof.
  unfold rotor_entry, inverse_entry.
  generalize (chase_up_down (fun i => i) (rotor_partner k r)
                (Z.to_nat (PROBLEMA_ROTOR_SIZE - 1)) (PROBLEMA_ROTOR_SIZE - 1) y).
  replace (PROBLEMA_ROTOR_SIZE - 1 - Z.of_nat (Z.to_nat (PROBLEMA_ROTOR_SIZE - 1)) + 1)
    with 1 by (unfold PROBLEMA_ROTOR_SIZE; lia).
  intros E. exact E.
Qed.

Lemma inverse_entry_range k r y :
  0 <= y < PROBLEMA_ROTOR_SIZE -> Forall is_byte k ->
  0 <= inverse_entry k r y < PROBLEMA_ROTOR_SIZE.
Proof.
  intros Hy Hk. unfold inverse_entry.
  remember (Z.to_nat (PROBLEMA_ROTOR_SIZE - 1)) as n eqn:En.
  assert (Hn : Z.of_nat n = PROBLEMA_ROTOR_SIZE - 1)
    by (rewrite En; unfold PROBLEMA_ROTOR_SIZE; lia).
  clear En.
  apply chase_down_range; [|done].
  intros j Hj. apply rotor_partner_range; [done | lia].
Qed.

Lemma inverse_of_entry k r old oldi y :
  0 <= y < PROBLEMA_ROTOR_SIZE -> Forall is_byte k ->
  tget (mapping (inverse_of (forward_of k r old) oldi)) y = inverse_entry k r y.
Proof.
  intros Hy Hk.
  pose proof (inverse_entry_range k r y Hy Hk) as Hz.
  assert (E : tget (mapping (forward_of k r old)) (inverse_entry k r y) = y).
  { rewrite forward_of_entry; [apply rotor_entry_inverse_entry | exact Hz | exact Hk]. }
  pose proof (inverse_of_get k r old oldi (inverse_entry k r y) Hk Hz) as G.
  rewrite E in G. exact G.
Qed.

Lemma plug_table_entry k old x :
  0 <= x < PROBLEMA_ROTOR_SIZE -> Forall is_byte k ->
  tget (plug_table k old) x = plug_entry k x.
Proof.
  intros Hx Hk. unfold plug_table, plug_entry.
  rewrite (for_up_swaps (plug_a k) (plug_b k)).
  rewrite fill_identity_get by (unfold PROBLEMA_ROTOR_SIZE; lia).
  generalize (Z.to_nat (Z.rem (aget k 0) 100 + 50)). intros n.
  assert (Hr : 0 <= follow_up (plug_a k) (plug_b k) n 0 x < PROBLEMA_ROTOR_SIZE).
  { apply follow_up_range; [|done]. intros j _. by apply plug_index_range. }
  revert Hr. generalize (follow_up (plug_a k) (plug_b k) n 0 x). intros z Hz.
  destruct (Z.leb_spec 0 z); [|lia].
  destruct (Z.ltb_spec z PROBLEMA_ROTOR_SIZE); [done | lia].
Qed.

(** ** The cascades computed from the key *)

Definition forward_by_key (k ps : list Z) (x : Z) : Z :=
  if x >=? PROBLEMA_ROTOR_SIZE then x
  else for_up (Z.to_nat PROBLEMA_NUM_ROTORS) 0
         (fun r y =>
            let pos := aget ps r in
            let y := rotor_entry k r (u32 (y + pos) mod PROBLEMA_ROTOR_SIZE) in
            u32 (y + PROBLEMA_ROTOR_SIZE - pos) mod PROBLEMA_ROTOR_SIZE)
         x.

Definition backward_by_key (k ps : list Z) (x : Z) : Z :=
  if x >=? PROBLEMA_ROTOR_SIZE then x
  else for_down (Z.to_nat PROBLEMA_NUM_ROTORS) (PROBLEMA_NUM_ROTORS - 1)
         (fun r y =>
            let pos := aget ps r in
            let y := u32 (y + pos) mod PROBLEMA_ROTOR_SIZE in
            let y := inverse_entry k r y in
            u32 (y + PROBLEMA_ROTOR_SIZE - pos) mod PROBLEMA_ROTOR_SIZE)
         x.

Definition plug_by_key (k : list Z) (x : Z) : Z :=
  if x <? PROBLEMA_ROTOR_SIZE then plug_entry k x else x.

(** The tables of context [c] are those derived from key [k]. *)
Record keyed_tables (k : list Z) (c : ProblemaContext) : Prop := {
  kt_forward : forall r x, 0 <= r < 8 -> 0 <= x < PROBLEMA_ROTOR_SIZE ->
    tget (mapping (rotor_at (rotors c) r)) x = rotor_entry k r x;
  kt_inverse : forall r x, 0 <= r < 8 -> 0 <= x < PROBLEMA_ROTOR_SIZE ->
    tget (mapping (rotor_at (inverse_rotors c) r)) x = inverse_entry k r x;
  kt_plug : forall x, 0 <= x < PROBLEMA_ROTOR_SIZE ->
    tget (plugboard_mapping (plugboard c)) x = plug_entry k x
}.

Lemma init_keyed_tables c0 k :
  context_sized c0 -> valid_key k -> keyed_tables k (init_context c0 k).
Proof.
  intros Hs [Hlen Hk]. pose proof (init_context_facts c0 k Hs Hlen) as F.
  revert F. generalize (init_context c0 k). intros c []. split.
  - intros r x Hr Hx. rewrite init_forward0 by lia. apply forward_of_entry; assumption.
  - intros r x Hr Hx. rewrite init_inverse0 by lia. apply inverse_of_entry; assumption.
  - intros x Hx. rewrite init_plug0. apply plug_table_entry; assumption.
Qed.

Lemma keyed_tables_step k c c' : bank_step c c' -> keyed_tables k c -> keyed_tables k c'.
Proof.
  intros S []. split.
  - intros r x Hr Hx. destruct (step_wiring _ _ S r) as [(-> & _) _]; [lia|]. by apply kt_forward0.
  - intros r x Hr Hx. destruct (step_wiring _ _ S r) as [_ (-> & _)]; [lia|]. by apply kt_inverse0.
  - intros x Hx. rewrite (step_plugboard _ _ S). by apply kt_plug0.
Qed.

Lemma for_up_ext {A : Type} (f g : Z -> A -> A) : forall n i a,
  (forall j x, i <= j < i + Z.of_nat n -> f j x = g j x) ->
  for_up n i f a = for_up n i g a.
Proof.
  induction n as [|n IH]; intros i a H; cbn [for_up]; [done|].
  rewrite H by lia. apply IH. intros j x Hj. apply H. lia.
Qed.

Lemma for_down_ext {A : Type} (f g : Z -> A -> A) : forall n i a,
  (forall j x, i - Z.of_nat n < j <= i -> f j x = g j x) ->
  for_down n i f a = for_down n i g a.
Proof.
  induction n as [|n IH]; intros i a H; cbn [for_down]; [done|].
  rewrite H by lia. apply IH. intros j x Hj. apply H. lia.
Qed.

Lemma aget_map_position l r : aget (map position l) r = position (rotor_at l r).
Proof. unfold aget, rotor_at. apply (map_nth position l blank_rotor). Qed.

Lemma apply_rotors_forward_by_key k c x :
  keyed_tables k c ->
  apply_rotors_forward c x = forward_by_key k (map position (rotors c)) x.
Proof.
  intros []. unfold apply_rotors_forward, forward_by_key.
  destruct (x >=? PROBLEMA_ROTOR_SIZE); [done|].
  apply for_up_ext. intros r y Hr. unfold rotor_forward_step. cbv zeta.
  rewrite aget_map_position. rewrite kt_forward0; [done | unfold PROBLEMA_NUM_ROTORS in Hr; lia |].
  apply Z.mod_pos_bound. unfold PROBLEMA_ROTOR_SIZE. lia.
Qed.

Lemma apply_rotors_backward_by_key k c x :
  keyed_tables k c ->
  apply_rotors_backward c x = backward_by_key k (map position (inverse_rotors c)) x.
Proof.
  intros []. unfold apply_rotors_backward, backward_by_key.
  destruct (x >=? PROBLEMA_ROTOR_SIZE); [done|].
  apply for_down_ext. intros r y Hr. unfold rotor_backward_step. cbv zeta.
  rewrite aget_map_position. rewrite kt_inverse0; [done | unfold PROBLEMA_NUM_ROTORS in Hr; lia |].
  apply Z.mod_pos_bound. unfold PROBLEMA_ROTOR_SIZE. lia.
Qed.

Lemma apply_plugboard_by_key k c x :
  keyed_tables k c -> 0 <= x -> apply_plugboard c x = plug_by_key k x.
Proof.
  intros [] Hx. unfold apply_plugboard, plug_by_key.
  destruct (Z.ltb_spec x PROBLEMA_ROTOR_SIZE); [|done]. by apply kt_plug0.
Qed.

(** Both per-character paths, computed from the key, the positions before
    and after the advance, and the feedback. *)
Lemma encrypt_char_by_key k c x ps0 ps1 :
  initialized c = true -> context_sized c -> keyed_tables k c -> 0 <= x ->
  map position (rotors c) = ps0 ->
  map position (inverse_rotors (rotate_rotors c)) = ps1 ->
  snd (problema_encrypt_char (Some c) x) =
  join_bytes (xor4 (feedback c)
                (backward_by_key k ps1 (forward_by_key k ps0 (plug_by_key k x)))).
Proof.
  intros Hi (L1 & L2 & _) Hk Hx <- <-.
  destruct (encrypt_char_bank c x Hi) as (c' & E & _). rewrite E. cbn [snd].
  unfold encrypt_core.
  destruct (rotate_rotors_spec c L1 L2) as (S & _). cbv zeta in S.
  pose proof (keyed_tables_step k c _ S Hk) as Hk'.
  pose proof (apply_plugboard_by_key k c x Hk Hx) as EP.
  pose proof (apply_rotors_forward_by_key k c (apply_plugboard c x) Hk) as EF.
  rewrite EP in EF.
  revert EF. generalize (forward_by_key k (map position (rotors c)) (plug_by_key k x)).
  intros f EF.
  pose proof (apply_rotors_backward_by_key k (rotate_rotors c) f Hk') as EB.
  revert EB. generalize (backward_by_key k (map position (inverse_rotors (rotate_rotors c))) f).
  intros b EB. rewrite EP, EF, EB. reflexivity.
Qed.

Lemma decrypt_char_by_key k c x ps0 ps1 :
  initialized c = true -> context_sized c -> keyed_tables k c ->
  map position (inverse_rotors c) = ps0 ->
  map position (rotors (rotate_rotors c)) = ps1 ->
  0 <= forward_by_key k ps1 (backward_by_key k ps0 (join_bytes (xor4 (feedback c) x))) ->
  snd (problema_decrypt_char (Some c) x) =
  plug_by_key k
    (forward_by_key k ps1 (backward_by_key k ps0 (join_bytes (xor4 (feedback c) x)))).
Proof.
  intros Hi (L1 & L2 & _) Hk <- <- Hpos.
  destruct (decrypt_char_bank c x Hi) as (c' & E & _). rewrite E. cbn [snd].
  unfold decrypt_core.
  destruct (rotate_rotors_spec c L1 L2) as (S & _). cbv zeta in S.
  pose proof (keyed_tables_step k c _ S Hk) as Hk'.
  set (w := join_bytes (xor4 (feedback c) x)) in *.
  pose proof (apply_rotors_backward_by_key k c w Hk) as EB.
  pose proof (apply_rotors_forward_by_key k (rotate_rotors c)
                (apply_rotors_backward c w) Hk') as EF.
  rewrite EB in EF.
  revert Hpos EF EB.
  generalize (backward_by_key k (map position (inverse_rotors c)) w).
  intros b. generalize (forward_by_key k (map position (rotors (rotate_rotors c))) b).
  intros f Hpos EF EB. rewrite EB, EF.
  exact (apply_plugboard_by_key k c f Hk Hpos).
Qed.

Lemma forward_by_key_nonneg k ps x : 0 <= x -> 0 <= forward_by_key k ps x.
Proof.
  intros Hx. unfold forward_by_key. destruct (x >=? PROBLEMA_ROTOR_SIZE); [done|].
  generalize (Z.to_nat PROBLEMA_NUM_ROTORS). intros n.
  apply (for_up_invariant (fun _ y => 0 <= y) _ n 0 x Hx).
  intros r y _ _. cbv zeta. apply Z.mod_pos_bound. unfold PROBLEMA_ROTOR_SIZE. lia.
Qed.

Lemma backward_by_key_nonneg k ps x : 0 <= x -> 0 <= backward_by_key k ps x.
Proof.
  intros Hx. unfold backward_by_key. destruct (x >=? PROBLEMA_ROTOR_SIZE); [done|].
  generalize (Z.to_nat PROBLEMA_NUM_ROTORS). intros n.
  apply (for_down_invariant (fun _ y => 0 <= y) _ n _ x Hx).
  intros r y _ _. cbv zeta. apply Z.mod_pos_bound. unfold PROBLEMA_ROTOR_SIZE. lia.
Qed.

Lemma keyed_tables_ext k c d :
  rotors d = rotors c -> inverse_rotors d = inverse_rotors c ->
  plugboard d = plugboard c -> keyed_tables k c -> keyed_tables k d.
Proof. intros E1 E2 E3 []. split; rewrite ?E1, ?E2, ?E3; assumption. Qed.

(** The two per-character paths on a context with zero feedback, from the
    key and the positions before ([ps0]) and after ([ps1]) the advance. *)
Lemma zero_feedback_encrypt_char k d x ps0 ps1 y :
  initialized d = true -> context_sized d -> keyed_tables k d ->
  map position (rotors d) = ps0 ->
  map position (inverse_rotors (rotate_rotors d)) = ps1 ->
  aget (feedback d) 0 = 0 -> aget (feedback d) 1 = 0 ->
  aget (feedback d) 2 = 0 -> aget (feedback d) 3 = 0 ->
  0 <= x ->
  backward_by_key k ps1 (forward_by_key k ps0 (plug_by_key k x)) = y ->
  0 <= y < 4294967296 ->
  snd (problema_encrypt_char (Some d) x) = y.
Proof.
  intros Hi Hs Hk P0 P1 F0 F1 F2 F3 Hx Hy Hr.
  rewrite (encrypt_char_by_key k d x ps0 ps1 Hi Hs Hk Hx P0 P1).
  revert Hy. generalize (backward_by_key k ps1 (forward_by_key k ps0 (plug_by_key k x))).
  intros z ->. rewrite xor4_zero by assumption. by apply join_split_bytes.
Qed.

Lemma zero_feedback_decrypt_char k d x ps0 ps1 z :
  initialized d = true -> context_sized d -> keyed_tables k d ->
  map position (inverse_rotors d) = ps0 ->
  map position (rotors (rotate_rotors d)) = ps1 ->
  aget (feedback d) 0 = 0 -> aget (feedback d) 1 = 0 ->
  aget (feedback d) 2 = 0 -> aget (feedback d) 3 = 0 ->
  0 <= x < 4294967296 ->
  plug_by_key k (forward_by_key k ps1 (backward_by_key k ps0 x)) = z ->
  snd (problema_decrypt_char (Some d) x) = z.
Proof.
  intros Hi Hs Hk P0 P1 F0 F1 F2 F3 Hx Hz.
  assert (Hw : join_bytes (xor4 (feedback d) x) = x).
  { rewrite xor4_zero by assumption. by apply join_split_bytes. }
  rewrite (decrypt_char_by_key k d x ps0 ps1 Hi Hs Hk P0 P1).
  - rewrite Hw. exact Hz.
  - rewrite Hw. apply forward_by_key_nonneg, backward_by_key_nonneg. lia.
Qed.

(** String mode in terms of the character loop. *)
Lemma problema_encrypt_eq c inp size cps :
  initialized c = true ->
  utf8_to_unicode (Some inp) (Some (Z.of_nat (length inp))) = (PROBLEMA_SUCCESS, cps) ->
  problema_encrypt (Some c) (Some inp) (Some size) =
  (fst (encrypt_chars (Some (encrypt_entry c)) cps),
   fst (unicode_to_utf8 (Some (snd (encrypt_chars (Some (encrypt_entry c)) cps))) (Some size)),
   snd (unicode_to_utf8 (Some (snd (encrypt_chars (Some (encrypt_entry c)) cps))) (Some size))).
Proof.
  intros Hi Hd. unfold problema_encrypt. rewrite Hi, Hd.
  cbn [negb Z.eqb PROBLEMA_SUCCESS].
  destruct (encrypt_chars _ cps) as [c1 o1]. cbn [fst snd].
  by destruct (unicode_to_utf8 (Some o1) _).
Qed.

Lemma problema_decrypt_eq c inp size cps :
  initialized c = true ->
  utf8_to_unicode (Some inp) (Some (Z.of_nat (length inp))) = (PROBLEMA_SUCCESS, cps) ->
  problema_decrypt (Some c) (Some inp) (Some size) =
  (fst (decrypt_chars (Some (decrypt_entry c)) cps),
   fst (unicode_to_utf8 (Some (snd (decrypt_chars (Some (decrypt_entry c)) cps))) (Some size)),
   snd (unicode_to_utf8 (Some (snd (decrypt_chars (Some (decrypt_entry c)) cps))) (Some size))).
Proof.
  intros Hi Hd. unfold problema_decrypt. rewrite Hi, Hd.
  cbn [negb Z.eqb PROBLEMA_SUCCESS].
  destruct (decrypt_chars _ cps) as [c1 o1]. cbn [fst snd].
  by destruct (unicode_to_utf8 (Some o1) _).
Qed.

Lemma encrypt_chars_single c x :
  snd (encrypt_chars c [x]) = [snd (problema_encrypt_char c x)].
Proof. cbn [encrypt_chars]. by destruct (problema_encrypt_char c x). Qed.

Lemma decrypt_chars_single c x :
  snd (decrypt_chars c [x]) = [snd (problema_decrypt_char c x)].
Proof. cbn [decrypt_chars]. by destruct (problema_decrypt_char c x). Qed.

(** ** A failing round trip (scenario 3 of the spec) *)

(** The UTF-8 bytes of "secret", zero-padded to 32 bytes. *)
Definition key_secret : list Z :=
  [115; 101; 99; 114; 101; 116; 0; 0; 0; 0; 0; 0; 0; 0; 0; 0;
   0; 0; 0; 0; 0; 0; 0; 0; 0; 0; 0; 0; 0; 0; 0; 0].

Lemma key_secret_valid : valid_key key_secret.
Proof. split; [reflexivity|]. repeat constructor; unfold is_byte; lia. Qed.

(** Rotor positions right after [problema_init] with [key_secret], and
    after the first advance. *)
Definition secret_positions : list Z := [115; 101; 99; 114; 101; 116; 0; 0].
Definition secret_positions_next : list Z := [116; 101; 99; 114; 101; 116; 0; 0].

(** U+C548 enters the feedback stage of the encrypt path as U+C5AD. *)
Lemma secret_encrypt_value :
  backward_by_key key_secret secret_positions_next
    (forward_by_key key_secret secret_positions (plug_by_key key_secret 50504)) = 50605.
Proof. vm_compute. reflexivity. Qed.

(** U+C5AD leaves the decrypt path as U+C5D8. *)
Lemma secret_decrypt_value :
  plug_by_key key_secret
    (forward_by_key key_secret secret_positions_next
       (backward_by_key key_secret secret_positions 50605)) = 50648.
Proof. vm_compute. reflexivity. Qed.

Lemma encrypt_entry_keyed k c : keyed_tables k c -> keyed_tables k (encrypt_entry c).
Proof. apply keyed_tables_ext; reflexivity. Qed.

Lemma decrypt_entry_keyed k c : keyed_tables k c -> keyed_tables k (decrypt_entry c).
Proof. apply keyed_tables_ext; reflexivity. Qed.

Lemma secret_keyed_tables d :
  rotors d = rotors (init_context blank_context key_secret) ->
  inverse_rotors d = inverse_rotors (init_context blank_context key_secret) ->
  plugboard d = plugboard (init_context blank_context key_secret) ->
  keyed_tables key_secret d.
Proof.
  intros E1 E2 E3. apply (keyed_tables_ext _ _ d E1 E2 E3).
  apply init_keyed_tables; [apply blank_context_sized | apply key_secret_valid].
Qed.

(** C2 fails on the code: with the key "secret", two contexts fresh from
    [problema_init], U+C548 is encrypted to U+C5AD and that is decrypted to
    U+C5D8, not U+C548. *)
Theorem C2_char_round_trip_fails :
  let c := init_context blank_context key_secret in
  snd (problema_encrypt_char (Some c) 50504) = 50605 /\
  snd (problema_decrypt_char (Some c) (snd (problema_encrypt_char (Some c) 50504))) = 50648.
Proof.
  cbv zeta.
  assert (E : snd (problema_encrypt_char
                     (Some (init_context blank_context key_secret)) 50504) = 50605).
  { apply (zero_feedback_encrypt_char key_secret _ _
             secret_positions secret_positions_next).
    - reflexivity.
    - repeat apply conj; lazy; reflexivity.
    - apply secret_keyed_tables; reflexivity.
    - lazy; reflexivity.
    - lazy; reflexivity.
    - lazy; reflexivity.
    - lazy; reflexivity.
    - lazy; reflexivity.
    - lazy; reflexivity.
    - lia.
    - exact secret_encrypt_value.
    - lia. }
  split; [exact E|]. rewrite E.
  apply (zero_feedback_decrypt_char key_secret _ _
           secret_positions secret_positions_next).
  - reflexivity.
  - repeat apply conj; lazy; reflexivity.
  - apply secret_keyed_tables; reflexivity.
  - lazy; reflexivity.
  - lazy; reflexivity.
  - lazy; reflexivity.
  - lazy; reflexivity.
  - lazy; reflexivity.
  - lazy; reflexivity.
  - lia.
  - exact secret_decrypt_value.
Qed.

(** C1 fails on the code: with the key "secret" and contexts fresh from
    [problema_init], the string EC 95 88 (U+C548) is encrypted to EC 96 AD
    and that is decrypted to EC 97 98; both calls return SUCCESS. *)
Theorem C1_string_round_trip_fails :
  let c := init_context blank_context key_secret in
  exists c1 c2,
    problema_encrypt (Some c) (Some [236; 149; 136]) (Some 16) =
      (c1, PROBLEMA_SUCCESS, [236; 150; 173]) /\
    problema_decrypt (Some c) (Some [236; 150; 173]) (Some 16) =
      (c2, PROBLEMA_SUCCESS, [236; 151; 152]).
Proof.
  cbv zeta.
  assert (Hi : initialized (init_context blank_context key_secret) = true) by reflexivity.
  assert (E : snd (problema_encrypt_char
                     (Some (encrypt_entry (init_context blank_context key_secret)))
                     50504) = 50605).
  { apply (zero_feedback_encrypt_char key_secret _ _
             secret_positions secret_positions_next).
    - reflexivity.
    - repeat apply conj; lazy; reflexivity.
    - apply encrypt_entry_keyed, secret_keyed_tables; reflexivity.
    - lazy; reflexivity.
    - lazy; reflexivity.
    - lazy; reflexivity.
    - lazy; reflexivity.
    - lazy; reflexivity.
    - lazy; reflexivity.
    - lia.
    - exact secret_encrypt_value.
    - lia. }
  assert (D : snd (problema_decrypt_char
                     (Some (decrypt_entry (init_context blank_context key_secret)))
                     50605) = 50648).
  { apply (zero_feedback_decrypt_char key_secret _ _
             secret_positions secret_positions_next).
    - reflexivity.
    - repeat apply conj; lazy; reflexivity.
    - apply decrypt_entry_keyed, secret_keyed_tables; reflexivity.
    - lazy; reflexivity.
    - lazy; reflexivity.
    - lazy; reflexivity.
    - lazy; reflexivity.
    - lazy; reflexivity.
    - lazy; reflexivity.
    - lia.
    - exact secret_decrypt_value. }
  eexists _, _. split.
  - rewrite (problema_encrypt_eq _ _ _ [50504] Hi) by reflexivity.
    rewrite encrypt_chars_single, E. reflexivity.
  - rewrite (problema_decrypt_eq _ _ _ [50605] Hi) by reflexivity.
    rewrite decrypt_chars_single, D. reflexivity.
Qed.

(** * Further properties of the code *)

(** ** Bitwise facts *)

Lemma lxor_mod_pow2 a b n : 0 <= n -> Z.lxor (a mod 2 ^ n) (b mod 2 ^ n) = Z.lxor a b mod 2 ^ n.
Proof.
  intros Hn. apply Z.bits_inj'. intros i Hi.
  rewrite Z.lxor_spec, !Z.testbit_mod_pow2, Z.lxor_spec by lia.
  destruct (i <? n); reflexivity.
Qed.

Lemma lxor_byte a b : is_byte a -> is_byte b -> is_byte (Z.lxor a b).
Proof.
  unfold is_byte. intros Ha Hb.
  rewrite <- (Z.mod_small a (2 ^ 8)), <- (Z.mod_small b (2 ^ 8)) by lia.
  rewrite lxor_mod_pow2 by lia. apply Z.mod_pos_bound. lia.
Qed.

(** ** Loops peeled at the far end *)

Lemma for_up_snoc {A : Type} (f : Z -> A -> A) : forall n i a,
  for_up (S n) i f a = f (i + Z.of_nat n) (for_up n i f a).
Proof.
  induction n as [|n IH]; intros i a.
  - cbn. by rewrite Z.add_0_r.
  - change (for_up (S (S n)) i f a) with (for_up (S n) (i + 1) f (f i a)).
    rewrite IH. cbn [for_up]. f_equal. lia.
Qed.

Lemma for_down_snoc {A : Type} (f : Z -> A -> A) : forall n i a,
  for_down (S n) i f a = f (i - Z.of_nat n) (for_down n i f a).
Proof.
  induction n as [|n IH]; intros i a.
  - cbn. by rewrite Z.sub_0_r.
  - change (for_down (S (S n)) i f a) with (for_down (S n) (i - 1) f (f i a)).
    rewrite IH. cbn [for_down]. f_equal. lia.
Qed.

(** A descending loop undoes an ascending one when each body undoes its
    partner, and conversely. *)
Lemma for_down_up_inverse {A : Type} (P : A -> Prop) (f g : Z -> A -> A) : forall n i a,
  (forall j y, i <= j < i + Z.of_nat n -> P y -> P (f j y) /\ g j (f j y) = y) ->
  P a ->
  for_down n (i + Z.of_nat n - 1) g (for_up n i f a) = a.
Proof.
  induction n as [|n IH]; intros i a H Pa; [done|].
  rewrite for_up_snoc. cbn [for_down].
  assert (Pn : P (for_up n i f a)).
  { apply (for_up_invariant (fun _ y => P y)); [done|].
    intros k y Hk Py. apply H; [lia | done]. }
  destruct (H (i + Z.of_nat n) (for_up n i f a)) as [_ E]; [lia | done |].
  replace (i + Z.of_nat (S n) - 1) with (i + Z.of_nat n) by lia.
  rewrite E. apply IH; [|done]. intros j y Hj. apply H. lia.
Qed.

Lemma for_up_down_inverse {A : Type} (P : A -> Prop) (f g : Z -> A -> A) : forall n i a,
  (forall j y, i <= j < i + Z.of_nat n -> P y -> P (g j y) /\ f j (g j y) = y) ->
  P a ->
  for_up n i f (for_down n (i + Z.of_nat n - 1) g a) = a.
Proof.
  induction n as [|n IH]; intros i a H Pa; [done|].
  rewrite for_down_snoc. cbn [for_up].
  assert (Pn : P (for_down n (i + Z.of_nat (S n) - 1) g a)).
  { apply (for_down_invariant (fun _ y => P y)); [done|].
    intros k y Hk Py. apply H; [lia | done]. }
  replace (i + Z.of_nat (S n) - 1 - Z.of_nat n) with i by lia.
  destruct (H i (for_down n (i + Z.of_nat (S n) - 1) g a)) as [_ E]; [lia | done |].
  rewrite E.
  replace (i + Z.of_nat (S n) - 1) with (i + 1 + Z.of_nat n - 1) by lia.
  apply IH; [|done]. intros j y Hj. apply H. lia.
Qed.

(** ** The rotor bank as a pair of mutually inverse cascades *)

(** The two banks have eight rotors at equal, in-range positions, and in
    every slot the inverse table undoes the forward table on [0, 65536). *)
Record bank_paired (c : ProblemaContext) : Prop := {
  paired_len_rotors : length (rotors c) = 8%nat;
  paired_len_inverse : length (inverse_rotors c) = 8%nat;
  paired_synced : positions_synced c;
  paired_in_range : positions_in_range c;
  paired_forward_range : forall r x, 0 <= r < 8 -> 0 <= x < 65536 ->
    0 <= tget (mapping (rotor_at (rotors c) r)) x < 65536;
  paired_inverse_range : forall r y, 0 <= r < 8 -> 0 <= y < 65536 ->
    0 <= tget (mapping (rotor_at (inverse_rotors c) r)) y < 65536;
  paired_inverse_forward : forall r x, 0 <= r < 8 -> 0 <= x < 65536 ->
    tget (mapping (rotor_at (inverse_rotors c) r))
         (tget (mapping (rotor_at (rotors c) r)) x) = x;
  paired_forward_inverse : forall r y, 0 <= r < 8 -> 0 <= y < 65536 ->
    tget (mapping (rotor_at (rotors c) r))
         (tget (mapping (rotor_at (inverse_rotors c) r)) y) = y
}.

Lemma shift_in_out p x :
  0 <= p < 65536 -> 0 <= x < 65536 ->
  u32 (u32 (x + p) mod PROBLEMA_ROTOR_SIZE + PROBLEMA_ROTOR_SIZE - p)
    mod PROBLEMA_ROTOR_SIZE = x.
Proof.
  intros Hp Hx. unfold u32, PROBLEMA_ROTOR_SIZE.
  rewrite (Z.mod_small (x + p)) by lia.
  rewrite (Z.mod_small (_ + 65536 - p)).
  - Z.to_euclidean_division_equations; lia.
  - Z.to_euclidean_division_equations; lia.
Qed.

Lemma shift_out_in p y :
  0 <= p < 65536 -> 0 <= y < 65536 ->
  u32 (u32 (y + PROBLEMA_ROTOR_SIZE - p) mod PROBLEMA_ROTOR_SIZE + p)
    mod PROBLEMA_ROTOR_SIZE = y.
Proof.
  intros Hp Hy. unfold u32, PROBLEMA_ROTOR_SIZE.
  rewrite (Z.mod_small (y + 65536 - p)) by lia.
  rewrite (Z.mod_small (_ + p)).
  - Z.to_euclidean_division_equations; lia.
  - Z.to_euclidean_division_equations; lia.
Qed.

Lemma shifted_index_range z : 0 <= u32 z mod PROBLEMA_ROTOR_SIZE < 65536.
Proof. apply Z.mod_pos_bound. unfold PROBLEMA_ROTOR_SIZE. lia. Qed.

Lemma rotor_steps_inverse c r x :
  bank_paired c -> 0 <= r < 8 -> 0 <= x < 65536 ->
  rotor_backward_step c r (rotor_forward_step c r x) = x /\
  rotor_forward_step c r (rotor_backward_step c r x) = x.
Proof.
  intros [_ _ Hs Hr Fr Ir IF FI] Hr8 Hx.
  unfold rotor_backward_step, rotor_forward_step. cbv zeta.
  rewrite (Hs r Hr8).
  specialize (Hr r Hr8). revert Hr.
  generalize (position (rotor_at (rotors c) r)). intros p Hp.
  specialize (Fr r). specialize (Ir r). specialize (IF r). specialize (FI r).
  revert Fr Ir IF FI.
  generalize (tget (mapping (rotor_at (rotors c) r))).
  generalize (tget (mapping (rotor_at (inverse_rotors c) r))).
  intros iv fw Fr Ir IF FI. split.
  - rewrite shift_out_in by (try apply Fr; try apply shifted_index_range; lia).
    rewrite IF by (try apply shifted_index_range; lia).
    apply shift_in_out; lia.
  - rewrite shift_out_in by (try apply Ir; try apply shifted_index_range; lia).
    rewrite FI by (try apply shifted_index_range; lia).
    apply shift_in_out; lia.
Qed.

Lemma apply_rotors_inverse c x :
  bank_paired c -> 0 <= x < 65536 ->
  apply_rotors_backward c (apply_rotors_forward c x) = x /\
  apply_rotors_forward c (apply_rotors_backward c x) = x.
Proof.
  intros Hp Hx.
  pose proof (apply_rotors_forward_bmp c x Hx) as Hf.
  pose proof (apply_rotors_backward_bmp c x Hx) as Hb.
  revert Hf Hb. unfold apply_rotors_backward, apply_rotors_forward.
  destruct (Z.geb_spec x PROBLEMA_ROTOR_SIZE) as [G|_];
    [unfold PROBLEMA_ROTOR_SIZE in G; lia|].
  intros Hf Hb.
  destruct (Z.geb_spec
              (for_up (Z.to_nat PROBLEMA_NUM_ROTORS) 0 (rotor_forward_step c) x)
              PROBLEMA_ROTOR_SIZE) as [G|_];
    [unfold PROBLEMA_ROTOR_SIZE in G; lia|].
  destruct (Z.geb_spec
              (for_down (Z.to_nat PROBLEMA_NUM_ROTORS) (PROBLEMA_NUM_ROTORS - 1)
                 (rotor_backward_step c) x)
              PROBLEMA_ROTOR_SIZE) as [G|_];
    [unfold PROBLEMA_ROTOR_SIZE in G; lia|].
  clear Hf Hb. split.
  - apply (for_down_up_inverse (fun y => 0 <= y < 65536)
             (rotor_forward_step c) (rotor_backward_step c) 8 0 x); [|done].
    intros j y Hj Hy. split; [apply rotor_forward_step_range|].
    assert (Hj8 : 0 <= j < 8) by lia.
    exact (proj1 (rotor_steps_inverse c j y Hp Hj8 Hy)).
  - apply (for_up_down_inverse (fun y => 0 <= y < 65536)
             (rotor_forward_step c) (rotor_backward_step c) 8 0 x); [|done].
    intros j y Hj Hy. split; [apply rotor_backward_step_range|].
    assert (Hj8 : 0 <= j < 8) by lia.
    exact (proj2 (rotor_steps_inverse c j y Hp Hj8 Hy)).
Qed.

Lemma bank_paired_ext c d :
  rotors d = rotors c -> inverse_rotors d = inverse_rotors c ->
  bank_paired c -> bank_paired d.
Proof.
  intros E1 E2 [L1 L2 Hs Hr Fr Ir IF FI].
  constructor; unfold positions_synced, positions_in_range in *;
    rewrite ?E1, ?E2; done.
Qed.

Lemma init_bank_paired c0 k :
  context_sized c0 -> valid_key k -> bank_paired (init_context c0 k).
Proof.
  intros Hs [Hl Hb].
  pose proof (init_context_facts c0 k Hs Hl) as F. revert F.
  generalize (init_context c0 k). intros c [_ _ _ _ _ L1 L2 Ff Fi _ _ _ _].
  assert (Hinv : forall r y, 0 <= r < 8 -> 0 <= y < 65536 ->
            0 <= tget (mapping (rotor_at (inverse_rotors c) r)) y < 65536 /\
            tget (mapping (rotor_at (rotors c) r))
                 (tget (mapping (rotor_at (inverse_rotors c) r)) y) = y).
  { intros r y Hr Hy. rewrite (Fi r Hr), (Ff r Hr).
    pose proof (fun i => inverse_of_get k r (rotor_at (rotors c0) r)
                           (rotor_at (inverse_rotors c0) r) i Hb) as IG.
    destruct (forward_of_perm k r (rotor_at (rotors c0) r) Hb) as (g & G1 & G2).
    unfold PROBLEMA_ROTOR_SIZE in IG, G1, G2. revert IG G1 G2.
    generalize (tget (mapping (inverse_of (forward_of k r (rotor_at (rotors c0) r))
                                          (rotor_at (inverse_rotors c0) r)))).
    generalize (tget (mapping (forward_of k r (rotor_at (rotors c0) r)))).
    intros fw iv IG G1 G2.
    destruct (G2 y Hy) as [Hg Eg].
    assert (E : iv y = g y) by (rewrite <- Eg at 1; by apply IG).
    rewrite E. split; [lia | done]. }
  constructor; try done.
  - intros r Hr. by rewrite (Fi r Hr), (Ff r Hr).
  - intros r Hr. rewrite (Ff r Hr). cbn [position forward_of].
    pose proof (key_byte_range k r Hb). unfold PROBLEMA_ROTOR_SIZE.
    rewrite Z.rem_small by lia. lia.
  - intros r x Hr Hx. rewrite (Ff r Hr).
    destruct (forward_of_perm k r (rotor_at (rotors c0) r) Hb) as (g & G1 & G2).
    by apply G1.
  - intros r y Hr Hy. by apply Hinv.
  - intros r x Hr Hx. rewrite (Fi r Hr), (Ff r Hr). by apply inverse_of_get.
  - intros r y Hr Hy. by apply Hinv.
Qed.

Lemma rotate_bank_paired c : bank_paired c -> bank_paired (rotate_rotors c).
Proof.
  intros [L1 L2 Hs Hr Fr Ir IF FI].
  destruct (rotate_rotors_spec c L1 L2) as (S & P0 & I0 & Hq).
  cbv zeta in S, P0, I0, Hq. revert S P0 I0 Hq.
  generalize (rotate_rotors c). intros c' S P0 I0 Hq.
  assert (Wf : forall r, 0 <= r < 8 ->
            mapping (rotor_at (rotors c') r) = mapping (rotor_at (rotors c) r)).
  { intros r Hr8. destruct (step_wiring _ _ S r) as [[E _] _]; [lia | done]. }
  assert (Wi : forall r, 0 <= r < 8 ->
            mapping (rotor_at (inverse_rotors c') r) =
            mapping (rotor_at (inverse_rotors c) r)).
  { intros r Hr8. destruct (step_wiring _ _ S r) as [_ [E _]]; [lia | done]. }
  assert (Hpos : forall r, 0 <= r < 8 ->
            position (rotor_at (inverse_rotors c') r) = position (rotor_at (rotors c') r) /\
            0 <= position (rotor_at (rotors c') r) < 65536).
  { intros r Hr8.
    assert (Hm : forall p, 0 <= p -> 0 <= Z.rem (p + 1) PROBLEMA_ROTOR_SIZE < 65536).
    { intros p Hp. rewrite rem_succ_mod by done. apply Z.mod_pos_bound. lia. }
    destruct (Z.eq_dec r 0) as [->|Hne].
    - split; [done|]. rewrite P0. apply Hm. apply Hr. lia.
    - destruct (Hq r) as [Y N]; [lia|].
      destruct (classic_notches c' r) as [H|H].
      + destruct (Y H) as [E1 E2]. split; [done|]. rewrite E1. apply Hm. apply Hr. lia.
      + destruct (N H) as [E1 E2]. rewrite E1, E2. split; [by apply Hs | by apply Hr]. }
  constructor.
  - by rewrite (step_len_rotors _ _ S).
  - by rewrite (step_len_inverse _ _ S).
  - intros r Hr8. by apply Hpos.
  - intros r Hr8. by apply Hpos.
  - intros r x Hr8 Hx. rewrite (Wf r Hr8). by apply Fr.
  - intros r x Hr8 Hx. rewrite (Wi r Hr8). by apply Ir.
  - intros r x Hr8 Hx. rewrite (Wf r Hr8), (Wi r Hr8). by apply IF.
  - intros r x Hr8 Hx. rewrite (Wf r Hr8), (Wi r Hr8). by apply FI.
Qed.

(** ** Contexts in use *)

(** Contexts produced by [problema_init] with key [k] and then passed through
    any sequence of character, block and string calls. *)
Inductive in_use (k : list Z) : ProblemaContext -> Prop :=
| use_init c0 c :
    context_sized c0 -> valid_key k ->
    fst (problema_init (Some c0) (Some k)) = Some c -> in_use k c
| use_encrypt_char c x c' :
    in_use k c -> fst (problema_encrypt_char (Some c) x) = Some c' -> in_use k c'
| use_decrypt_char c x c' :
    in_use k c -> fst (problema_decrypt_char (Some c) x) = Some c' -> in_use k c'
| use_encrypt_block c inp out c' :
    in_use k c ->
    fst (problema_encrypt_block (Some c) (Some inp) (Some out)) = Some c' -> in_use k c'
| use_decrypt_block c inp out c' :
    in_use k c ->
    fst (problema_decrypt_block (Some c) (Some inp) (Some out)) = Some c' -> in_use k c'
| use_encrypt c inp size c' :
    in_use k c ->
    fst (fst (problema_encrypt (Some c) (Some inp) (Some size))) = Some c' -> in_use k c'
| use_decrypt c inp size c' :
    in_use k c ->
    fst (fst (problema_decrypt (Some c) (Some inp) (Some size))) = Some c' -> in_use k c'.

(** What every context in use satisfies. *)
Record session (k : list Z) (c : ProblemaContext) : Prop := {
  session_initialized : initialized c = true;
  session_key : key c = k;
  session_bank : bank_paired c;
  session_tables : keyed_tables k c;
  session_plug : perm_table PROBLEMA_ROTOR_SIZE (plugboard_mapping (plugboard c));
  session_feedback : length (feedback c) = 16%nat
}.

Lemma session_init c0 k :
  context_sized c0 -> valid_key k -> session k (init_context c0 k).
Proof.
  intros Hs Hk.
  pose proof (init_bank_paired c0 k Hs Hk) as B.
  pose proof (init_keyed_tables c0 k Hs Hk) as T.
  destruct Hk as [Hl Hb].
  pose proof (init_context_facts c0 k Hs Hl) as F.
  pose proof (plug_table_perm k (plugboard_mapping (plugboard c0)) Hb) as P.
  revert B T F. generalize (init_context c0 k). intros c B T F.
  constructor.
  - exact (init_initialized _ _ _ F).
  - exact (init_key _ _ _ F).
  - exact B.
  - exact T.
  - rewrite (init_plug _ _ _ F). exact P.
  - rewrite (init_feedback _ _ _ F). reflexivity.
Qed.

Lemma session_feedback_only k c c' :
  session k c ->
  rotors c' = rotors c -> inverse_rotors c' = inverse_rotors c ->
  plugboard c' = plugboard c -> key c' = key c -> initialized c' = initialized c ->
  length (feedback c') = 16%nat ->
  session k c'.
Proof.
  intros [Hi Hk Hb Ht Hp Hf] E1 E2 E3 E4 E5 L. constructor.
  - by rewrite E5.
  - by rewrite E4.
  - by apply (bank_paired_ext c).
  - by apply (keyed_tables_ext k c).
  - by rewrite E3.
  - done.
Qed.

Lemma session_rotate k c : session k c -> session k (rotate_rotors c).
Proof.
  intros [Hi Hk Hb Ht Hp Hf].
  pose proof (rotate_bank_paired c Hb) as B.
  destruct (rotate_rotors_spec c (paired_len_rotors c Hb) (paired_len_inverse c Hb))
    as (S & _).
  cbv zeta in S. revert B S. generalize (rotate_rotors c). intros c' B S.
  constructor.
  - by rewrite (step_initialized _ _ S).
  - by rewrite (step_key _ _ S).
  - done.
  - by apply (keyed_tables_step k c).
  - by rewrite (step_plugboard _ _ S).
  - by rewrite (step_feedback _ _ S).
Qed.

Lemma length_put4 fb bytes : length (put4 fb bytes) = length fb.
Proof. unfold put4. by rewrite !length_aset. Qed.

Lemma session_encrypt_char k c x :
  session k c ->
  exists c', fst (problema_encrypt_char (Some c) x) = Some c' /\ session k c'.
Proof.
  intros Hs.
  destruct (encrypt_char_bank c x (session_initialized k c Hs))
    as (c' & E & R1 & R2 & I & P & K & _ & F).
  exists c'. split; [by rewrite E|].
  pose proof (session_rotate k c Hs) as Hr.
  destruct (rotate_rotors_frame c) as (P' & _ & K' & _ & _ & _ & I').
  cbv zeta in P', K', I'.
  revert Hr R1 R2 P' K' I'. generalize (rotate_rotors c). intros c1 Hr R1 R2 P' K' I'.
  apply (session_feedback_only k c1); try done.
  - by rewrite P, P'.
  - by rewrite K, K'.
  - rewrite I, I'. symmetry. apply Hs.
  - rewrite F, length_put4. apply Hs.
Qed.

Lemma session_decrypt_char k c x :
  session k c ->
  exists c', fst (problema_decrypt_char (Some c) x) = Some c' /\ session k c'.
Proof.
  intros Hs.
  destruct (decrypt_char_bank c x (session_initialized k c Hs))
    as (c' & E & R1 & R2 & I & P & K & _ & F).
  exists c'. split; [by rewrite E|].
  pose proof (session_rotate k c Hs) as Hr.
  destruct (rotate_rotors_frame c) as (P' & _ & K' & _ & _ & _ & I').
  cbv zeta in P', K', I'.
  revert Hr R1 R2 P' K' I'. generalize (rotate_rotors c). intros c1 Hr R1 R2 P' K' I'.
  apply (session_feedback_only k c1); try done.
  - by rewrite P, P'.
  - by rewrite K, K'.
  - rewrite I, I'. symmetry. apply Hs.
  - rewrite F, length_put4. apply Hs.
Qed.

Lemma session_encrypt_chars k : forall cps c,
  session k c ->
  exists c', fst (encrypt_chars (Some c) cps) = Some c' /\ session k c'.
Proof.
  induction cps as [|x cps IH]; intros c Hs.
  - exists c. done.
  - destruct (session_encrypt_char k c x Hs) as (c1 & E1 & Hs1).
    destruct (IH c1 Hs1) as (c2 & E2 & Hs2).
    exists c2. split; [|done].
    cbn [encrypt_chars]. revert E1. destruct (problema_encrypt_char (Some c) x) as [o y].
    cbn [fst]. intros ->. revert E2. destruct (encrypt_chars (Some c1) cps) as [o2 ys].
    done.
Qed.

Lemma session_decrypt_chars k : forall cps c,
  session k c ->
  exists c', fst (decrypt_chars (Some c) cps) = Some c' /\ session k c'.
Proof.
  induction cps as [|x cps IH]; intros c Hs.
  - exists c. done.
  - destruct (session_decrypt_char k c x Hs) as (c1 & E1 & Hs1).
    destruct (IH c1 Hs1) as (c2 & E2 & Hs2).
    exists c2. split; [|done].
    cbn [decrypt_chars]. revert E1. destruct (problema_decrypt_char (Some c) x) as [o y].
    cbn [fst]. intros ->. revert E2. destruct (decrypt_chars (Some c1) cps) as [o2 ys].
    done.
Qed.

Lemma length_memset0 l n : (Z.to_nat n <= length l)%nat -> length (memset0 l n) = length l.
Proof.
  intros H. unfold memset0. rewrite length_app, repeat_length, length_drop. lia.
Qed.

Lemma session_encrypt_entry k c : session k c -> session k (encrypt_entry c).
Proof.
  intros Hs. apply (session_feedback_only k c); try done.
  unfold encrypt_entry. fields. rewrite length_memset0; rewrite (session_feedback k c Hs);
    [done | unfold PROBLEMA_BLOCK_SIZE; lia].
Qed.

Lemma session_decrypt_entry k c : session k c -> session k (decrypt_entry c).
Proof.
  intros Hs. apply (session_feedback_only k c); try done.
  unfold decrypt_entry. fields. rewrite length_memset0; rewrite (session_feedback k c Hs);
    [done | unfold PROBLEMA_BLOCK_SIZE; lia].
Qed.

(** [update_feedback] writes the feedback register and nothing else. *)
Lemma update_feedback_eq c block :
  update_feedback c block =
  with_feedback c (for_up 16 0 (fun i fb => aset fb i (aget block i)) (feedback c)).
Proof. reflexivity. Qed.

Lemma length_update_feedback c block :
  length (feedback (update_feedback c block)) = length (feedback c).
Proof.
  rewrite update_feedback_eq. fields.
  apply (for_up_invariant (fun _ fb => length fb = length (feedback c))); [done|].
  intros i fb _ E. by rewrite length_aset.
Qed.

Lemma session_update_feedback k c block : session k c -> session k (update_feedback c block).
Proof.
  intros Hs. apply (session_feedback_only k c); try done.
  rewrite length_update_feedback. apply Hs.
Qed.

Lemma session_encrypt_block k c inp out c' :
  session k c ->
  fst (problema_encrypt_block (Some c) (Some inp) (Some out)) = Some c' -> session k c'.
Proof.
  intros Hs. unfold problema_encrypt_block.
  rewrite (session_initialized k c Hs). cbn [negb fst]. intros [= <-].
  by apply session_update_feedback.
Qed.

Lemma session_decrypt_block k c inp out c' :
  session k c ->
  fst (problema_decrypt_block (Some c) (Some inp) (Some out)) = Some c' -> session k c'.
Proof.
  intros Hs. unfold problema_decrypt_block.
  rewrite (session_initialized k c Hs). cbn [negb fst]. intros [= <-].
  by apply session_update_feedback.
Qed.

Lemma session_encrypt k c inp size c' :
  session k c ->
  fst (fst (problema_encrypt (Some c) (Some inp) (Some size))) = Some c' -> session k c'.
Proof.
  intros Hs. unfold problema_encrypt.
  rewrite (session_initialized k c Hs). cbn [negb].
  pose proof (session_encrypt_entry k c Hs) as He. revert He.
  generalize (encrypt_entry c). intros c1 He.
  destruct (utf8_to_unicode (Some inp) (Some (Z.of_nat (length inp)))) as [rc cps].
  destruct (negb (rc =? PROBLEMA_SUCCESS)).
  - cbn [fst]. intros [= <-]. done.
  - destruct (session_encrypt_chars k cps c1 He) as (c2 & E & H2). revert E.
    destruct (encrypt_chars (Some c1) cps) as [o ys]. cbn [fst]. intros ->.
    destruct (unicode_to_utf8 (Some ys) (Some size)) as [r out]. cbn [fst].
    intros [= <-]. done.
Qed.

Lemma session_decrypt k c inp size c' :
  session k c ->
  fst (fst (problema_decrypt (Some c) (Some inp) (Some size))) = Some c' -> session k c'.
Proof.
  intros Hs. unfold problema_decrypt.
  rewrite (session_initialized k c Hs). cbn [negb].
  pose proof (session_decrypt_entry k c Hs) as He. revert He.
  generalize (decrypt_entry c). intros c1 He.
  destruct (utf8_to_unicode (Some inp) (Some (Z.of_nat (length inp)))) as [rc cps].
  destruct (negb (rc =? PROBLEMA_SUCCESS)).
  - cbn [fst]. intros [= <-]. done.
  - destruct (session_decrypt_chars k cps c1 He) as (c2 & E & H2). revert E.
    destruct (decrypt_chars (Some c1) cps) as [o ys]. cbn [fst]. intros ->.
    destruct (unicode_to_utf8 (Some ys) (Some size)) as [r out]. cbn [fst].
    intros [= <-]. done.
Qed.

Lemma in_use_session k c : in_use k c -> session k c.
Proof.
  induction 1 as [c0 c Hs Hk E | c x c' _ IH E | c x c' _ IH E
                 | c inp out c' _ IH E | c inp out c' _ IH E
                 | c inp size c' _ IH E | c inp size c' _ IH E].
  - rewrite problema_init_some in E. cbn [fst] in E. injection E as <-.
    by apply session_init.
  - destruct (session_encrypt_char k c x IH) as (c2 & E2 & H2).
    rewrite E in E2. by injection E2 as ->.
  - destruct (session_decrypt_char k c x IH) as (c2 & E2 & H2).
    rewrite E in E2. by injection E2 as ->.
  - by apply (session_encrypt_block k c inp out).
  - by apply (session_decrypt_block k c inp out).
  - by apply (session_encrypt k c inp size).
  - by apply (session_decrypt k c inp size).
Qed.

Lemma in_use_valid_key k c : in_use k c -> valid_key k.
Proof. induction 1; done. Qed.

(** ** The feedback XOR is an involution *)

Lemma xor4_bytes fb y : Forall is_byte (xor4 fb y).
Proof. unfold xor4. repeat constructor; apply byte_t_cast_range. Qed.

Lemma split_join_bytes a b c d :
  is_byte a -> is_byte b -> is_byte c -> is_byte d ->
  split_bytes (join_bytes [a; b; c; d]) = [a; b; c; d].
Proof.
  intros Ha Hb Hc Hd. rewrite join_bytes_sum by done.
  unfold is_byte in *. unfold split_bytes.
  rewrite !land_255, !Z.shiftr_div_pow2 by lia.
  change (2 ^ 24) with 16777216. change (2 ^ 16) with 65536. change (2 ^ 8) with 256.
  repeat f_equal; Z.to_euclidean_division_equations; lia.
Qed.

Lemma cast_lxor_cancel e f :
  is_byte e -> byte_t_cast (Z.lxor (byte_t_cast (Z.lxor e f)) f) = e.
Proof.
  unfold is_byte, byte_t_cast. intros He.
  rewrite <- (Z.mod_small e (2 ^ 8)) at 2 by lia.
  change 256 with (2 ^ 8).
  apply Z.bits_inj'. intros i Hi.
  rewrite !Z.testbit_mod_pow2, Z.lxor_spec, Z.testbit_mod_pow2, Z.lxor_spec by lia.
  destruct (i <? 8), (Z.testbit e i), (Z.testbit f i); reflexivity.
Qed.

Lemma land_255_byte z : is_byte (Z.land z 255).
Proof. rewrite land_255. apply Z.mod_pos_bound. lia. Qed.

Lemma xor4_involutive fb e :
  0 <= e < 4294967296 -> join_bytes (xor4 fb (join_bytes (xor4 fb e))) = e.
Proof.
  intros He.
  assert (E : xor4 fb (join_bytes (xor4 fb e)) = split_bytes e).
  { pose proof (split_join_bytes _ _ _ _
                  (byte_t_cast_range (Z.lxor (Z.land (Z.shiftr e 24) 255) (aget fb 0)))
                  (byte_t_cast_range (Z.lxor (Z.land (Z.shiftr e 16) 255) (aget fb 1)))
                  (byte_t_cast_range (Z.lxor (Z.land (Z.shiftr e 8) 255) (aget fb 2)))
                  (byte_t_cast_range (Z.lxor (Z.land e 255) (aget fb 3)))) as S.
    change (split_bytes (join_bytes (xor4 fb e)) = xor4 fb e) in S.
    revert S. generalize (join_bytes (xor4 fb e)). intros w S.
    unfold split_bytes in S. unfold xor4 in S at 1. injection S as S0 S1 S2 S3.
    unfold xor4 at 1. rewrite S0, S1, S2, S3.
    unfold split_bytes. by rewrite !cast_lxor_cancel by apply land_255_byte. }
  rewrite E. by apply join_split_bytes.
Qed.

Lemma xor_chain_injective fb e1 e2 :
  0 <= e1 < 4294967296 -> 0 <= e2 < 4294967296 ->
  join_bytes (xor4 fb e1) = join_bytes (xor4 fb e2) -> e1 = e2.
Proof.
  intros H1 H2 E.
  rewrite <- (xor4_involutive fb e1 H1), <- (xor4_involutive fb e2 H2). by rewrite E.
Qed.

(** ** What the rotor part of [problema_encrypt_char] loses: nothing *)

Lemma session_plug_bmp k c : session k c -> plug_bmp c.
Proof.
  intros Hs x Hx. destruct (session_plug k c Hs) as (g & G1 & _).
  by apply G1.
Qed.

Lemma apply_plugboard_bmp c x :
  plug_bmp c -> 0 <= x < 65536 -> 0 <= apply_plugboard c x < 65536.
Proof.
  intros Hp Hx. unfold apply_plugboard, PROBLEMA_ROTOR_SIZE.
  destruct (Z.ltb_spec x 65536); [by apply Hp | lia].
Qed.

(** Forward at the advanced positions, then backward at the original ones,
    takes the output of the rotor part back to the plugboard image. *)
Lemma rotor_part_undone k c x :
  session k c -> 0 <= x < 65536 ->
  apply_rotors_backward c (apply_rotors_forward (rotate_rotors c) (encrypt_core c x)) =
  apply_plugboard c x.
Proof.
  intros Hs Hx. unfold encrypt_core.
  pose proof (apply_plugboard_bmp c x (session_plug_bmp k c Hs) Hx) as Hp.
  revert Hp. generalize (apply_plugboard c x). intros p Hp.
  pose proof (apply_rotors_forward_bmp c p Hp) as Hf.
  destruct (apply_rotors_inverse c p (session_bank k c Hs) Hp) as [E _].
  revert Hf E. generalize (apply_rotors_forward c p). intros q Hq E.
  pose proof (rotate_bank_paired c (session_bank k c Hs)) as B.
  revert B. generalize (rotate_rotors c). intros c' B.
  destruct (apply_rotors_inverse c' q B Hq) as [_ E']. by rewrite E'.
Qed.

Lemma apply_plugboard_injective k c x y :
  session k c -> 0 <= x < 65536 -> 0 <= y < 65536 ->
  apply_plugboard c x = apply_plugboard c y -> x = y.
Proof.
  intros Hs Hx Hy. unfold apply_plugboard, PROBLEMA_ROTOR_SIZE.
  destruct (Z.ltb_spec x 65536); [|lia]. destruct (Z.ltb_spec y 65536); [|lia].
  destruct (perm_table_bijection _ _ (session_plug k c Hs)) as (_ & Inj & _).
  by apply Inj.
Qed.

Lemma encrypt_core_range k c x :
  session k c -> 0 <= x < 4294967296 -> 0 <= encrypt_core c x < 4294967296.
Proof.
  intros Hs Hx. destruct (Z.lt_ge_cases x 65536) as [L|G].
  - pose proof (encrypt_core_bmp c x (session_plug_bmp k c Hs)). lia.
  - by rewrite encrypt_core_bypass.
Qed.

Lemma encrypt_core_injective k c x y :
  session k c -> 0 <= x < 4294967296 -> 0 <= y < 4294967296 ->
  encrypt_core c x = encrypt_core c y -> x = y.
Proof.
  intros Hs Hx Hy E.
  pose proof (session_plug_bmp k c Hs) as Hp.
  destruct (Z.lt_ge_cases x 65536) as [Lx|Gx], (Z.lt_ge_cases y 65536) as [Ly|Gy].
  - apply (apply_plugboard_injective k c); [done | lia | lia |].
    rewrite <- (rotor_part_undone k c x), <- (rotor_part_undone k c y) by (done || lia).
    by rewrite E.
  - pose proof (encrypt_core_bmp c x Hp). rewrite (encrypt_core_bypass c y) in E by done. lia.
  - pose proof (encrypt_core_bmp c y Hp). rewrite (encrypt_core_bypass c x) in E by done. lia.
  - by rewrite !encrypt_core_bypass in E.
Qed.

Lemma encrypt_char_injective k c x y :
  session k c -> 0 <= x < 4294967296 -> 0 <= y < 4294967296 ->
  snd (problema_encrypt_char (Some c) x) = snd (problema_encrypt_char (Some c) y) ->
  x = y.
Proof.
  intros Hs Hx Hy.
  rewrite !problema_encrypt_char_eq by apply Hs. cbv zeta. cbn [snd]. intros E.
  apply (encrypt_core_injective k c); [done..|].
  apply (xor_chain_injective (feedback c)); [by apply (encrypt_core_range k) ..| done].
Qed.

Ltac zero_key_in_use :=
  apply (use_init zero_key blank_context);
  [ repeat apply conj; reflexivity
  | split; [reflexivity | repeat constructor; unfold is_byte; lia]
  | reflexivity ].

(** X1: in every context in use (initialised with key [k], then passed
    through any character, block and string calls) the context is still
    initialised and holds [k]; each inverse rotor stands at the position of
    its forward rotor, and all eight positions lie in [0, 65536). *)
Theorem X1_positions_stay_paired (k : list Z) (c : ProblemaContext) :
  in_use k c ->
  initialized c = true /\ key c = k /\ positions_synced c /\ positions_in_range c.
Proof.
  intros H. destruct (in_use_session k c H) as [Hi Hk Hb _ _ _].
  split; [done | split; [done | split; apply Hb]].
Qed.

Lemma X1_positions_stay_paired_witness :
  let c := init_context blank_context zero_key in
  initialized c = true /\ key c = zero_key /\ positions_synced c /\ positions_in_range c.
Proof.
  apply (X1_positions_stay_paired zero_key (init_context blank_context zero_key)).
  zero_key_in_use.
Defined.

(** X2: in every context in use the backward cascade is the exact inverse of
    the forward cascade at the current positions, on all of [0, 65536). *)
Theorem X2_cascades_inverse_at_equal_positions (k : list Z) (c : ProblemaContext) (x : Z) :
  in_use k c -> 0 <= x < 65536 ->
  apply_rotors_backward c (apply_rotors_forward c x) = x /\
  apply_rotors_forward c (apply_rotors_backward c x) = x.
Proof.
  intros H Hx. apply apply_rotors_inverse; [|done].
  apply (session_bank k). by apply in_use_session.
Qed.

Lemma X2_cascades_inverse_at_equal_positions_witness :
  let c := init_context blank_context zero_key in
  apply_rotors_backward c (apply_rotors_forward c 50504) = 50504 /\
  apply_rotors_forward c (apply_rotors_backward c 50504) = 50504.
Proof.
  apply (X2_cascades_inverse_at_equal_positions zero_key
           (init_context blank_context zero_key) 50504).
  - zero_key_in_use.
  - lia.
Defined.

Lemma tables_fixed_by_key k c c1 r x :
  keyed_tables k c -> keyed_tables k c1 -> 0 <= r < 8 -> 0 <= x < 65536 ->
  tget (mapping (rotor_at (rotors c) r)) x =
    tget (mapping (rotor_at (rotors c1) r)) x /\
  tget (mapping (rotor_at (inverse_rotors c) r)) x =
    tget (mapping (rotor_at (inverse_rotors c1) r)) x /\
  tget (plugboard_mapping (plugboard c)) x = tget (plugboard_mapping (plugboard c1)) x.
Proof.
  intros [F I P] [F1 I1 P1] Hr Hx. unfold PROBLEMA_ROTOR_SIZE in F, I, P, F1, I1, P1.
  pose proof (F r x Hr Hx) as E1. pose proof (F1 r x Hr Hx) as E2.
  pose proof (I r x Hr Hx) as E3. pose proof (I1 r x Hr Hx) as E4.
  pose proof (P x Hx) as E5. pose proof (P1 x Hx) as E6.
  clear F I P F1 I1 P1. revert E1 E2 E3 E4 E5 E6.
  generalize (rotor_entry k r x), (inverse_entry k r x), (plug_entry k x).
  intros a b p E1 E2 E3 E4 E5 E6.
  split; [congruence | split; congruence].
Qed.

(** X3: the rotor, inverse-rotor and plugboard tables of a context in use
    are, entry by entry, those that [problema_init] derives from the key on
    any starting context: they do not depend on what the context held before
    initialisation, and no character, block or string call changes them. *)
Theorem X3_tables_fixed_by_key (k : list Z) (c c0 c1 : ProblemaContext) (r x : Z) :
  in_use k c -> context_sized c0 ->
  fst (problema_init (Some c0) (Some k)) = Some c1 ->
  0 <= r < 8 -> 0 <= x < 65536 ->
  tget (mapping (rotor_at (rotors c) r)) x =
    tget (mapping (rotor_at (rotors c1) r)) x /\
  tget (mapping (rotor_at (inverse_rotors c) r)) x =
    tget (mapping (rotor_at (inverse_rotors c1) r)) x /\
  tget (plugboard_mapping (plugboard c)) x = tget (plugboard_mapping (plugboard c1)) x.
Proof.
  intros H Hs E Hr Hx.
  rewrite problema_init_some in E. cbn [fst] in E. injection E as <-.
  pose proof (session_tables k c (in_use_session k c H)) as T.
  pose proof (init_keyed_tables c0 k Hs (in_use_valid_key k c H)) as T1.
  exact (tables_fixed_by_key k c (init_context c0 k) r x T T1 Hr Hx).
Qed.

Lemma X3_tables_fixed_by_key_witness :
  let c := init_context blank_context zero_key in
  let c1 := init_context (init_context blank_context key_secret) zero_key in
  tget (mapping (rotor_at (rotors c) 3)) 50504 =
    tget (mapping (rotor_at (rotors c1) 3)) 50504 /\
  tget (mapping (rotor_at (inverse_rotors c) 3)) 50504 =
    tget (mapping (rotor_at (inverse_rotors c1) 3)) 50504 /\
  tget (plugboard_mapping (plugboard c)) 50504 =
    tget (plugboard_mapping (plugboard c1)) 50504.
Proof.
  apply (X3_tables_fixed_by_key zero_key (init_context blank_context zero_key)
           (init_context blank_context key_secret)
           (init_context (init_context blank_context key_secret) zero_key) 3 50504).
  - zero_key_in_use.
  - repeat apply conj; lazy; reflexivity.
  - reflexivity.
  - lia.
  - lia.
Defined.

(** X4: with a context in use, [problema_encrypt_char] is injective on
    32-bit inputs: two different code points never get the same image, so
    the character step loses no information. *)
Theorem X4_encrypt_char_injective (k : list Z) (c : ProblemaContext) (x y : Z) :
  in_use k c -> 0 <= x < 4294967296 -> 0 <= y < 4294967296 -> x <> y ->
  snd (problema_encrypt_char (Some c) x) <> snd (problema_encrypt_char (Some c) y).
Proof.
  intros H Hx Hy Hne E. apply Hne.
  exact (encrypt_char_injective k c x y (in_use_session k c H) Hx Hy E).
Qed.

Lemma X4_encrypt_char_injective_witness :
  let c := init_context blank_context zero_key in
  snd (problema_encrypt_char (Some c) 65) <> snd (problema_encrypt_char (Some c) 128512).
Proof.
  apply (X4_encrypt_char_injective zero_key (init_context blank_context zero_key)
           65 128512).
  - zero_key_in_use.
  - lia.
  - lia.
  - discriminate.
Defined.

(** X5: the rotor part of [problema_encrypt_char] (forward cascade, advance,
    backward cascade) is undone by the forward cascade at the advanced
    positions followed by the backward cascade at the positions before the
    advance; what is left is the plugboard image of the input. *)
Theorem X5_rotor_part_undone (k : list Z) (c : ProblemaContext) (x : Z) :
  in_use k c -> 0 <= x < 65536 ->
  let c' := rotate_rotors c in
  apply_rotors_backward c
    (apply_rotors_forward c'
       (apply_rotors_backward c' (apply_rotors_forward c (apply_plugboard c x)))) =
  apply_plugboard c x.
Proof.
  intros H Hx. apply (rotor_part_undone k c x); [|done]. by apply in_use_session.
Qed.

Lemma X5_rotor_part_undone_witness :
  let c := init_context blank_context key_secret in
  let c' := rotate_rotors c in
  apply_rotors_backward c
    (apply_rotors_forward c'
       (apply_rotors_backward c' (apply_rotors_forward c (apply_plugboard c 50504)))) =
  apply_plugboard c 50504.
Proof.
  apply (X5_rotor_part_undone key_secret (init_context blank_context key_secret) 50504).
  - apply (use_init key_secret blank_context);
      [ repeat apply conj; reflexivity
      | split; [reflexivity | repeat constructor; unfold is_byte; lia]
      | reflexivity ].
  - lia.
Defined.

(** ** Code points from 0x10000 on: an XOR chain without the key *)

(** The four feedback cells read and written by the character functions. *)
Definition head4 (fb : list Z) : list Z := [aget fb 0; aget fb 1; aget fb 2; aget fb 3].

Lemma xor4_head4 fb fb' y : head4 fb = head4 fb' -> xor4 fb y = xor4 fb' y.
Proof. unfold head4, xor4. intros [= -> -> -> ->]. reflexivity. Qed.

Lemma head4_put4 fb a b c d :
  (4 <= length fb)%nat -> head4 (put4 fb [a; b; c; d]) = [a; b; c; d].
Proof.
  intros L. unfold head4, put4. rewrite !aget_aset by lia. rewrite !length_aset.
  change (aget [a; b; c; d] 0) with a. change (aget [a; b; c; d] 1) with b.
  change (aget [a; b; c; d] 2) with c. change (aget [a; b; c; d] 3) with d.
  assert (L0 : (Z.to_nat 0 <? length fb)%nat = true) by (apply Nat.ltb_lt; lia).
  assert (L1 : (Z.to_nat 1 <? length fb)%nat = true) by (apply Nat.ltb_lt; lia).
  assert (L2 : (Z.to_nat 2 <? length fb)%nat = true) by (apply Nat.ltb_lt; lia).
  assert (L3 : (Z.to_nat 3 <? length fb)%nat = true) by (apply Nat.ltb_lt; lia).
  rewrite L0, L1, L2, L3. reflexivity.
Qed.

Lemma lxor_u32 a b :
  0 <= a < 4294967296 -> 0 <= b < 4294967296 -> 0 <= Z.lxor a b < 4294967296.
Proof.
  intros Ha Hb. change 4294967296 with (2 ^ 32) in *.
  rewrite <- (Z.mod_small a (2 ^ 32)), <- (Z.mod_small b (2 ^ 32)) by lia.
  rewrite lxor_mod_pow2 by lia. apply Z.mod_pos_bound. lia.
Qed.

Lemma split_bytes_lxor s w :
  split_bytes (Z.lxor s w) =
  [ Z.lxor (Z.land (Z.shiftr s 24) 255) (Z.land (Z.shiftr w 24) 255);
    Z.lxor (Z.land (Z.shiftr s 16) 255) (Z.land (Z.shiftr w 16) 255);
    Z.lxor (Z.land (Z.shiftr s 8) 255) (Z.land (Z.shiftr w 8) 255);
    Z.lxor (Z.land s 255) (Z.land w 255) ].
Proof.
  unfold split_bytes. rewrite !Z.shiftr_lxor.
  assert (D : forall a b, Z.land (Z.lxor a b) 255 = Z.lxor (Z.land a 255) (Z.land b 255)).
  { intros a b. apply Z.bits_inj'. intros i Hi.
    rewrite Z.land_spec, !Z.lxor_spec, !Z.land_spec.
    destruct (Z.testbit a i), (Z.testbit b i), (Z.testbit 255 i); reflexivity. }
  by rewrite !D.
Qed.

(** XOR-ing the bytes of [s] with feedback cells that hold the bytes of [w]
    gives the bytes of [s xor w]. *)
Lemma xor4_join fb s w :
  head4 fb = split_bytes w -> 0 <= s < 4294967296 -> 0 <= w < 4294967296 ->
  xor4 fb s = split_bytes (Z.lxor s w) /\ join_bytes (xor4 fb s) = Z.lxor s w.
Proof.
  intros Hh Hs Hw.
  assert (E : xor4 fb s = split_bytes (Z.lxor s w)).
  { rewrite split_bytes_lxor. unfold head4, split_bytes in Hh. unfold xor4.
    injection Hh as -> -> -> ->.
    by rewrite !byte_t_cast_id by (apply lxor_byte; apply land_255_byte). }
  split; [done|]. rewrite E. apply join_split_bytes. by apply lxor_u32.
Qed.

(** Each code point XOR-ed with the previous output, starting from [prev]. *)
Fixpoint xor_scan (prev : Z) (cps : list Z) : list Z :=
  match cps with
  | [] => []
  | s :: rest => Z.lxor s prev :: xor_scan (Z.lxor s prev) rest
  end.

(** A [unicode_t] value that the plugboard and the rotors pass through. *)
Definition beyond_bmp (s : Z) : Prop := 65536 <= s < 4294967296.

Lemma decrypt_core_bypass c x : 65536 <= x -> decrypt_core c x = x.
Proof.
  intros Hx. unfold decrypt_core, apply_rotors_backward, apply_rotors_forward,
    apply_plugboard, PROBLEMA_ROTOR_SIZE.
  destruct (Z.geb_spec x 65536); [|lia].
  destruct (Z.geb_spec x 65536); [|lia].
  destruct (Z.ltb_spec x 65536); [lia | done].
Qed.

Lemma encrypt_chars_beyond_bmp : forall cps c w,
  initialized c = true -> (4 <= length (feedback c))%nat ->
  head4 (feedback c) = split_bytes w -> 0 <= w < 4294967296 ->
  Forall beyond_bmp cps ->
  snd (encrypt_chars (Some c) cps) = xor_scan w cps.
Proof.
  induction cps as [|s cps IH]; intros c w Hi Hl Hh Hw Hall; [done|].
  apply Forall_cons in Hall as [[Hs1 Hs2] Hall].
  cbn [encrypt_chars xor_scan].
  rewrite problema_encrypt_char_eq by done. cbv zeta.
  rewrite encrypt_core_bypass by done.
  destruct (xor4_join (feedback c) s w Hh) as [E1 E2]; [lia | done |].
  rewrite E2.
  specialize (IH (with_feedback (with_encrypt_mode (rotate_rotors c) true)
                    (put4 (feedback c) (xor4 (feedback c) s)))
                 (Z.lxor s w)).
  destruct (encrypt_chars _ cps) as [c2 ys]. cbn [snd] in IH |- *. f_equal.
  apply IH.
  - fields. destruct (rotate_rotors_frame c) as (_ & _ & _ & _ & _ & _ & I).
    cbv zeta in I. by rewrite I.
  - fields. by rewrite length_put4.
  - fields. rewrite E1. unfold split_bytes. by apply head4_put4.
  - apply lxor_u32; lia.
  - done.
Qed.

Lemma lxor_twice s w : Z.lxor (Z.lxor s w) w = s.
Proof. by rewrite Z.lxor_assoc, Z.lxor_nilpotent, Z.lxor_0_r. Qed.

Lemma decrypt_chars_beyond_bmp : forall cps d w,
  initialized d = true -> (4 <= length (feedback d))%nat ->
  head4 (feedback d) = split_bytes w -> 0 <= w < 4294967296 ->
  Forall beyond_bmp cps ->
  snd (decrypt_chars (Some d) (xor_scan w cps)) = cps.
Proof.
  induction cps as [|s cps IH]; intros d w Hi Hl Hh Hw Hall; [done|].
  apply Forall_cons in Hall as [[Hs1 Hs2] Hall].
  cbn [decrypt_chars xor_scan].
  rewrite problema_decrypt_char_eq by done. cbv zeta.
  assert (Hx : 0 <= Z.lxor s w < 4294967296) by (apply lxor_u32; lia).
  destruct (xor4_join (feedback d) (Z.lxor s w) w Hh Hx Hw) as [_ E2].
  rewrite E2, lxor_twice, decrypt_core_bypass by done.
  specialize (IH (with_feedback (with_encrypt_mode (rotate_rotors d) false)
                    (put4 (feedback d) (split_bytes (Z.lxor s w))))
                 (Z.lxor s w)).
  destruct (decrypt_chars _ (xor_scan (Z.lxor s w) cps)) as [c2 ys].
  cbn [snd] in IH |- *. f_equal.
  apply IH.
  - fields. destruct (rotate_rotors_frame d) as (_ & _ & _ & _ & _ & _ & I).
    cbv zeta in I. by rewrite I.
  - fields. by rewrite length_put4.
  - fields. unfold split_bytes. by apply head4_put4.
  - done.
  - done.
Qed.

Lemma encrypt_entry_zeroed k c :
  session k c ->
  initialized (encrypt_entry c) = true /\ (4 <= length (feedback (encrypt_entry c)))%nat /\
  head4 (feedback (encrypt_entry c)) = split_bytes 0.
Proof.
  intros [Hi _ _ _ _ Hf]. unfold encrypt_entry. fields.
  rewrite memset0_exact by (rewrite Hf; reflexivity).
  split; [done | split; [rewrite repeat_length; unfold PROBLEMA_BLOCK_SIZE; lia | reflexivity]].
Qed.

Lemma decrypt_entry_zeroed k c :
  session k c ->
  initialized (decrypt_entry c) = true /\ (4 <= length (feedback (decrypt_entry c)))%nat /\
  head4 (feedback (decrypt_entry c)) = split_bytes 0.
Proof.
  intros [Hi _ _ _ _ Hf]. unfold decrypt_entry. fields.
  rewrite memset0_exact by (rewrite Hf; reflexivity).
  split; [done | split; [rewrite repeat_length; unfold PROBLEMA_BLOCK_SIZE; lia | reflexivity]].
Qed.

(** X6: code points from 0x10000 on are encrypted without the key.  When a
    string call starts on a context in use and every code point of the text
    is at least 0x10000, each code point is emitted XOR-ed with the previous
    emitted code point, the first one unchanged: neither the rotors nor the
    plugboard nor the key take part. *)
Theorem X6_beyond_bmp_keyless_xor_chain (k : list Z) (c : ProblemaContext) (cps : list Z) :
  in_use k c -> Forall beyond_bmp cps ->
  snd (encrypt_chars (Some (encrypt_entry c)) cps) = xor_scan 0 cps.
Proof.
  intros H Hall.
  destruct (encrypt_entry_zeroed k c (in_use_session k c H)) as (Hi & Hl & Hh).
  revert Hi Hl Hh. generalize (encrypt_entry c). intros c1 Hi Hl Hh.
  apply encrypt_chars_beyond_bmp; [done | done | done | lia | done].
Qed.

Lemma X6_beyond_bmp_keyless_xor_chain_witness :
  snd (encrypt_chars (Some (encrypt_entry (init_context blank_context key_secret)))
         [128512; 128513; 66000]) = xor_scan 0 [128512; 128513; 66000].
Proof.
  apply (X6_beyond_bmp_keyless_xor_chain key_secret
           (init_context blank_context key_secret) [128512; 128513; 66000]).
  - apply (use_init key_secret blank_context);
      [ repeat apply conj; reflexivity
      | split; [reflexivity | repeat constructor; unfold is_byte; lia]
      | reflexivity ].
  - repeat constructor; unfold beyond_bmp; lia.
Defined.

Lemma problema_encrypt_beyond_bmp k c inp cps size :
  session k c ->
  utf8_to_unicode (Some inp) (Some (Z.of_nat (length inp))) = (PROBLEMA_SUCCESS, cps) ->
  Forall beyond_bmp cps ->
  snd (fst (problema_encrypt (Some c) (Some inp) (Some size))) =
    fst (unicode_to_utf8 (Some (xor_scan 0 cps)) (Some size)) /\
  snd (problema_encrypt (Some c) (Some inp) (Some size)) =
    snd (unicode_to_utf8 (Some (xor_scan 0 cps)) (Some size)).
Proof.
  intros Hs Hd Hall.
  rewrite (problema_encrypt_eq c inp size cps (session_initialized k c Hs) Hd).
  cbn [fst snd].
  destruct (encrypt_entry_zeroed k c Hs) as (Hi & Hl & Hh).
  revert Hi Hl Hh. generalize (encrypt_entry c). intros c1 Hi Hl Hh.
  rewrite (encrypt_chars_beyond_bmp cps c1 0 Hi Hl Hh); [done | lia | done].
Qed.

(** X7: the ciphertext of a text made only of code points from 0x10000 on is
    the same under every key: two contexts in use, initialised with any two
    keys, return the same code and write the same bytes. *)
Theorem X7_beyond_bmp_text_same_under_all_keys
    (k1 k2 : list Z) (c d : ProblemaContext) (inp cps : list Z) (size : Z) :
  in_use k1 c -> in_use k2 d ->
  utf8_to_unicode (Some inp) (Some (Z.of_nat (length inp))) = (PROBLEMA_SUCCESS, cps) ->
  Forall beyond_bmp cps ->
  snd (fst (problema_encrypt (Some c) (Some inp) (Some size))) =
    snd (fst (problema_encrypt (Some d) (Some inp) (Some size))) /\
  snd (problema_encrypt (Some c) (Some inp) (Some size)) =
    snd (problema_encrypt (Some d) (Some inp) (Some size)).
Proof.
  intros H1 H2 Hd Hall.
  destruct (problema_encrypt_beyond_bmp k1 c inp cps size (in_use_session k1 c H1) Hd Hall)
    as [A1 B1].
  destruct (problema_encrypt_beyond_bmp k2 d inp cps size (in_use_session k2 d H2) Hd Hall)
    as [A2 B2].
  rewrite A1, A2, B1, B2. done.
Qed.

Lemma X7_beyond_bmp_text_same_under_all_keys_witness :
  let c := init_context blank_context zero_key in
  let d := init_context blank_context key_secret in
  let inp := [240; 159; 152; 128; 240; 159; 152; 129] in
  snd (fst (problema_encrypt (Some c) (Some inp) (Some 16))) =
    snd (fst (problema_encrypt (Some d) (Some inp) (Some 16))) /\
  snd (problema_encrypt (Some c) (Some inp) (Some 16)) =
    snd (problema_encrypt (Some d) (Some inp) (Some 16)).
Proof.
  apply (X7_beyond_bmp_text_same_under_all_keys zero_key key_secret
           (init_context blank_context zero_key) (init_context blank_context key_secret)
           [240; 159; 152; 128; 240; 159; 152; 129] [128512; 128513] 16).
  - zero_key_in_use.
  - apply (use_init key_secret blank_context);
      [ repeat apply conj; reflexivity
      | split; [reflexivity | repeat constructor; unfold is_byte; lia]
      | reflexivity ].
  - reflexivity.
  - repeat constructor; unfold beyond_bmp; lia.
Defined.

(** X8: a stream of code points from 0x10000 on round-trips through the
    character loops of [problema_encrypt] and [problema_decrypt], whatever
    the two contexts in use and their keys. *)
Theorem X8_beyond_bmp_round_trip
    (k1 k2 : list Z) (c d : ProblemaContext) (cps : list Z) :
  in_use k1 c -> in_use k2 d -> Forall beyond_bmp cps ->
  snd (decrypt_chars (Some (decrypt_entry d))
         (snd (encrypt_chars (Some (encrypt_entry c)) cps))) = cps.
Proof.
  intros H1 H2 Hall.
  destruct (encrypt_entry_zeroed k1 c (in_use_session k1 c H1)) as (Hi & Hl & Hh).
  destruct (decrypt_entry_zeroed k2 d (in_use_session k2 d H2)) as (Hi' & Hl' & Hh').
  revert Hi Hl Hh Hi' Hl' Hh'. generalize (encrypt_entry c), (decrypt_entry d).
  intros c1 d1 Hi Hl Hh Hi' Hl' Hh'.
  rewrite (encrypt_chars_beyond_bmp cps c1 0 Hi Hl Hh); [|lia | done].
  apply decrypt_chars_beyond_bmp; [done | done | done | lia | done].
Qed.

Lemma X8_beyond_bmp_round_trip_witness :
  snd (decrypt_chars (Some (decrypt_entry (init_context blank_context key_secret)))
         (snd (encrypt_chars (Some (encrypt_entry (init_context blank_context zero_key)))
                 [128512; 66000]))) = [128512; 66000].
Proof.
  apply (X8_beyond_bmp_round_trip zero_key key_secret
           (init_context blank_context zero_key) (init_context blank_context key_secret)
           [128512; 66000]).
  - zero_key_in_use.
  - apply (use_init key_secret blank_context);
      [ repeat apply conj; reflexivity
      | split; [reflexivity | repeat constructor; unfold is_byte; lia]
      | reflexivity ].
  - repeat constructor; unfold beyond_bmp; lia.
Defined.

(** X9: [problema_encrypt] can fail on well-formed text.  If the text is two
    code points from 0x10000 on whose XOR exceeds 0x10FFFF, then with every
    context in use and every output buffer of at least four bytes the call
    returns INVALID_UTF8. *)
Theorem X9_encrypt_rejects_its_own_output
    (k : list Z) (c : ProblemaContext) (inp : list Z) (s1 s2 size : Z) :
  in_use k c ->
  utf8_to_unicode (Some inp) (Some (Z.of_nat (length inp))) = (PROBLEMA_SUCCESS, [s1; s2]) ->
  65536 <= s1 <= 1114111 -> 65536 <= s2 <= 1114111 ->
  1114111 < Z.lxor s2 s1 -> 4 <= size ->
  snd (fst (problema_encrypt (Some c) (Some inp) (Some size))) =
    PROBLEMA_ERROR_INVALID_UTF8.
Proof.
  intros H Hd H1 H2 Hx Hsz.
  destruct (problema_encrypt_beyond_bmp k c inp [s1; s2] size (in_use_session k c H) Hd)
    as [A _].
  { repeat constructor; unfold beyond_bmp; lia. }
  rewrite A. cbn [xor_scan]. rewrite Z.lxor_0_r.
  revert Hx. generalize (Z.lxor s2 s1). intros t Ht.
  cbn [unicode_to_utf8 unicode_to_utf8_from].
  decide_tests. reflexivity.
Qed.

Lemma X9_encrypt_rejects_its_own_output_witness :
  snd (fst (problema_encrypt (Some (init_context blank_context zero_key))
              (Some [244; 128; 128; 128; 243; 176; 128; 128]) (Some 16))) =
    PROBLEMA_ERROR_INVALID_UTF8.
Proof.
  apply (X9_encrypt_rejects_its_own_output zero_key (init_context blank_context zero_key)
           [244; 128; 128; 128; 243; 176; 128; 128] 1048576 983040 16).
  - zero_key_in_use.
  - reflexivity.
  - lia.
  - lia.
  - reflexivity.
  - lia.
Defined.

(** ** The UTF-8 codec at its limits *)

(** Number of bytes of the UTF-8 form of a list of code points. *)
Definition utf8_size (cps : list Z) : Z := Z.of_nat (length (concat (map utf8_bytes cps))).

Lemma utf8_size_cons c cps :
  utf8_size (c :: cps) = Z.of_nat (length (utf8_bytes c)) + utf8_size cps.
Proof. unfold utf8_size. cbn [map concat]. rewrite length_app. lia. Qed.

(** One iteration of the loop of [unicode_to_utf8] on a code point that does
    not fit any more. *)
Lemma unicode_to_utf8_short c rest j size :
  is_code_point c -> size < j + Z.of_nat (length (utf8_bytes c)) ->
  unicode_to_utf8_from (c :: rest) j size = (PROBLEMA_ERROR_BUFFER_TOO_SMALL, []).
Proof.
  unfold is_code_point. intros Hc. cbn [unicode_to_utf8_from]. unfold utf8_bytes.
  destruct (Z.leb_spec c 127).
  { cbn [length]. intros Hfit. destruct (Z.gtb_spec (j + 1) size); [done | lia]. }
  destruct (Z.leb_spec c 2047).
  { cbn [length]. intros Hfit. destruct (Z.gtb_spec (j + 2) size); [done | lia]. }
  destruct (Z.leb_spec c 65535).
  { cbn [length]. intros Hfit. destruct (Z.gtb_spec (j + 3) size); [done | lia]. }
  destruct (Z.leb_spec c 1114111); [|lia].
  cbn [length]. intros Hfit. destruct (Z.gtb_spec (j + 4) size); [done | lia].
Qed.

Lemma unicode_to_utf8_from_exact : forall cps j size,
  Forall is_code_point cps ->
  (j + utf8_size cps <= size ->
   unicode_to_utf8_from cps j size = (PROBLEMA_SUCCESS, concat (map utf8_bytes cps))) /\
  (j <= size -> size < j + utf8_size cps ->
   fst (unicode_to_utf8_from cps j size) = PROBLEMA_ERROR_BUFFER_TOO_SMALL).
Proof.
  induction cps as [|c cps IH]; intros j size Hall.
  - split; [done|]. unfold utf8_size. cbn [map concat length]. lia.
  - apply Forall_cons in Hall as [Hc Hall]. rewrite utf8_size_cons.
    pose proof (utf8_bytes_length c) as Hlen.
    assert (Hsz : 0 <= utf8_size cps) by (unfold utf8_size; lia).
    destruct (IH (j + Z.of_nat (length (utf8_bytes c))) size Hall) as [Ok Short].
    split.
    + intros Hfit. rewrite unicode_to_utf8_step by (done || lia).
      rewrite Ok by lia. done.
    + intros Hj Hfit.
      destruct (Z.lt_ge_cases size (j + Z.of_nat (length (utf8_bytes c)))) as [L|G].
      * by rewrite unicode_to_utf8_short.
      * rewrite unicode_to_utf8_step by (done || lia). cbn [fst]. apply Short; lia.
Qed.

(** X10: on valid code points [unicode_to_utf8] needs exactly the length of
    the UTF-8 form: with at least that many bytes it succeeds and writes the
    form, and with fewer it returns BUFFER_TOO_SMALL. *)
Theorem X10_encoder_needs_exact_size (cps : list Z) (size : Z) :
  Forall is_code_point cps -> 0 <= size ->
  (utf8_size cps <= size ->
   unicode_to_utf8 (Some cps) (Some size) =
     (PROBLEMA_SUCCESS, concat (map utf8_bytes cps))) /\
  (size < utf8_size cps ->
   fst (unicode_to_utf8 (Some cps) (Some size)) = PROBLEMA_ERROR_BUFFER_TOO_SMALL).
Proof.
  intros Hall Hsz. cbn [unicode_to_utf8].
  destruct (unicode_to_utf8_from_exact cps 0 size Hall) as [Ok Short].
  split; intros H; [apply Ok | apply Short]; lia.
Qed.

Lemma X10_encoder_needs_exact_size_witness :
  (utf8_size [65; 50504; 128512] <= 8 ->
   unicode_to_utf8 (Some [65; 50504; 128512]) (Some 8) =
     (PROBLEMA_SUCCESS, concat (map utf8_bytes [65; 50504; 128512]))) /\
  (7 < utf8_size [65; 50504; 128512] ->
   fst (unicode_to_utf8 (Some [65; 50504; 128512]) (Some 7)) =
     PROBLEMA_ERROR_BUFFER_TOO_SMALL).
Proof.
  split.
  - apply (X10_encoder_needs_exact_size [65; 50504; 128512] 8);
      [repeat constructor; unfold is_code_point; lia | lia].
  - apply (X10_encoder_needs_exact_size [65; 50504; 128512] 7);
      [repeat constructor; unfold is_code_point; lia | lia].
Defined.

(** The decoder with room for one code point per input byte. *)
Lemma utf8_to_unicode_from_room : forall (n : nat) s j usize,
  (length s <= n)%nat -> j + Z.of_nat (length s) <= usize ->
  (fst (utf8_to_unicode_from s j usize) = PROBLEMA_SUCCESS \/
   fst (utf8_to_unicode_from s j usize) = PROBLEMA_ERROR_INVALID_UTF8) /\
  (length (snd (utf8_to_unicode_from s j usize)) <= length s)%nat.
Proof.
  induction n as [|n IH]; intros s j usize Hn Hj.
  - destruct s; [|cbn in Hn; lia]. cbn. split; [by left | lia].
  - destruct s as [|b0 rest]; [cbn; split; [by left | lia]|].
    cbn [length] in Hn, Hj. cbn [utf8_to_unicode_from].
    destruct (Z.ltb_spec j usize); [|lia]. cbn [negb].
    assert (K : forall t, (length t <= length rest)%nat ->
              (fst (utf8_to_unicode_from t (j + 1) usize) = PROBLEMA_SUCCESS \/
               fst (utf8_to_unicode_from t (j + 1) usize) = PROBLEMA_ERROR_INVALID_UTF8) /\
              (length (snd (utf8_to_unicode_from t (j + 1) usize)) <= length t)%nat).
    { intros t Ht. apply IH; lia. }
    assert (Bad : forall m : nat,
              ((PROBLEMA_ERROR_INVALID_UTF8 = PROBLEMA_SUCCESS \/
                PROBLEMA_ERROR_INVALID_UTF8 = PROBLEMA_ERROR_INVALID_UTF8) /\
               (0 <= S m)%nat)) by (intros m; split; [by right | lia]).
    destruct (Z.land b0 128 =? 0).
    { destruct (K rest) as [R L]; [lia|].
      destruct (utf8_to_unicode_from rest (j + 1) usize) as [rc out].
      cbn [fst snd length] in *. split; [done | lia]. }
    destruct (Z.land b0 224 =? 192).
    { destruct rest as [|b1 rest]; [apply Bad|].
      destruct (negb (is_cont b1)); [apply Bad|].
      destruct (K rest) as [R L]; [cbn; lia|].
      destruct (utf8_to_unicode_from rest (j + 1) usize) as [rc out].
      cbn [fst snd length] in *. split; [done | lia]. }
    destruct (Z.land b0 240 =? 224).
    { destruct rest as [|b1 [|b2 rest]]; [apply Bad | apply Bad |].
      destruct (negb (is_cont b1) || negb (is_cont b2)); [apply Bad|].
      destruct (K rest) as [R L]; [cbn; lia|].
      destruct (utf8_to_unicode_from rest (j + 1) usize) as [rc out].
      cbn [fst snd length] in *. split; [done | lia]. }
    destruct (Z.land b0 248 =? 240).
    { destruct rest as [|b1 [|b2 [|b3 rest]]]; [apply Bad | apply Bad | apply Bad |].
      destruct (negb (is_cont b1) || negb (is_cont b2) || negb (is_cont b3)); [apply Bad|].
      destruct (K rest) as [R L]; [cbn; lia|].
      destruct (utf8_to_unicode_from rest (j + 1) usize) as [rc out].
      cbn [fst snd length] in *. split; [done | lia]. }
    apply Bad.
Qed.

(** X11: given room for one code point per input byte, as the string calls
    provide, [utf8_to_unicode] never runs out of room: on every byte string
    it returns SUCCESS or INVALID_UTF8, and it stores at most as many code
    points as there are bytes. *)
Theorem X11_decoder_never_short_of_room (s : list Z) (usize : Z) :
  Z.of_nat (length s) <= usize ->
  (fst (utf8_to_unicode (Some s) (Some usize)) = PROBLEMA_SUCCESS \/
   fst (utf8_to_unicode (Some s) (Some usize)) = PROBLEMA_ERROR_INVALID_UTF8) /\
  (length (snd (utf8_to_unicode (Some s) (Some usize))) <= length s)%nat.
Proof.
  intros H. cbn [utf8_to_unicode].
  apply (utf8_to_unicode_from_room (length s)); lia.
Qed.

Lemma X11_decoder_never_short_of_room_witness :
  let s := [72; 236; 149; 136; 255] in
  (fst (utf8_to_unicode (Some s) (Some 5)) = PROBLEMA_SUCCESS \/
   fst (utf8_to_unicode (Some s) (Some 5)) = PROBLEMA_ERROR_INVALID_UTF8) /\
  (length (snd (utf8_to_unicode (Some s) (Some 5%Z))) <= length s)%nat.
Proof.
  apply (X11_decoder_never_short_of_room [72; 236; 149; 136; 255] 5).
  cbn. lia.
Defined.

(** X12: the decoder accepts over-long forms.  Every ASCII code point [a]
    has a two-byte spelling, with lead byte 0xC0 or 0xC1, that
    [utf8_to_unicode] decodes to [a] just like the one-byte form; so decoding
    is not injective, and re-encoding does not give such an input back. *)
Theorem X12_decoder_accepts_overlong_forms (a : Z) :
  0 <= a <= 127 ->
  utf8_to_unicode (Some [192 + a / 64; 128 + a mod 64]) (Some 2) =
    (PROBLEMA_SUCCESS, [a]) /\
  utf8_to_unicode (Some [a]) (Some 2) = (PROBLEMA_SUCCESS, [a]) /\
  unicode_to_utf8 (Some [a]) (Some 2) = (PROBLEMA_SUCCESS, [a]).
Proof.
  intros Ha.
  assert (Hb : 128 <= 128 + a mod 64 <= 191) by (Z.to_euclidean_division_equations; lia).
  assert (Hq : a / 64 = 0 \/ a / 64 = 1) by (Z.to_euclidean_division_equations; lia).
  assert (Hv : a = a / 64 * 64 + a mod 64) by (Z.to_euclidean_division_equations; lia).
  split; [|split].
  - revert Hb Hv. generalize (a mod 64). intros m Hb Hv.
    destruct (byte_masks (128 + m)) as (_ & _ & _ & _ & C); [lia|].
    pose proof (in_range_true 128 191 (128 + m) Hb) as R.
    cbn [utf8_to_unicode utf8_to_unicode_from].
    destruct Hq as [Hq|Hq]; rewrite Hq in Hv |- *.
    + change (Z.land (192 + 0) 128 =? 0) with false.
      change (Z.land (192 + 0) 224 =? 192) with true.
      change (0 <? 2) with true. cbn [negb]. rewrite C, R. cbn [negb].
      rewrite (decode2_value (192 + 0) (128 + m)) by lia.
      f_equal. f_equal. lia.
    + change (Z.land (192 + 1) 128 =? 0) with false.
      change (Z.land (192 + 1) 224 =? 192) with true.
      change (0 <? 2) with true. cbn [negb]. rewrite C, R. cbn [negb].
      rewrite (decode2_value (192 + 1) (128 + m)) by lia.
      f_equal. f_equal. lia.
  - cbn [utf8_to_unicode utf8_to_unicode_from].
    destruct (byte_masks a) as (M & _); [lia|]. rewrite M.
    destruct (Z.ltb_spec a 128); [done | lia].
  - cbn [unicode_to_utf8 unicode_to_utf8_from].
    destruct (Z.leb_spec a 127); [|lia]. cbn. by rewrite byte_t_cast_id by lia.
Qed.

Lemma X12_decoder_accepts_overlong_forms_witness :
  utf8_to_unicode (Some [192 + 65 / 64; 128 + 65 mod 64]) (Some 2) =
    (PROBLEMA_SUCCESS, [65]) /\
  utf8_to_unicode (Some [65]) (Some 2) = (PROBLEMA_SUCCESS, [65]) /\
  unicode_to_utf8 (Some [65]) (Some 2) = (PROBLEMA_SUCCESS, [65]).
Proof. apply (X12_decoder_accepts_overlong_forms 65). lia. Defined.

(** X13: a byte string that starts with a continuation byte (0x80..0xBF) or
    with a byte from 0xF8 on is rejected with INVALID_UTF8 and nothing is
    stored. *)
Theorem X13_decoder_rejects_stray_lead (b0 : Z) (rest : list Z) (usize : Z) :
  128 <= b0 <= 191 \/ 248 <= b0 <= 255 -> 1 <= usize ->
  utf8_to_unicode (Some (b0 :: rest)) (Some usize) = (PROBLEMA_ERROR_INVALID_UTF8, []).
Proof.
  intros Hb Hu. cbn [utf8_to_unicode utf8_to_unicode_from].
  destruct (Z.ltb_spec 0 usize); [|lia]. cbn [negb].
  destruct (byte_masks b0) as (M1 & M2 & M3 & M4 & _); [lia|].
  rewrite M1, M2, M3, M4.
  destruct (Z.ltb_spec b0 128); [lia|].
  rewrite !in_range_false by lia. done.
Qed.

Lemma X13_decoder_rejects_stray_lead_witness :
  utf8_to_unicode (Some (149 :: [136; 72])) (Some 3) = (PROBLEMA_ERROR_INVALID_UTF8, []).
Proof.
  apply (X13_decoder_rejects_stray_lead 149 [136; 72] 3).
  - left. lia.
  - lia.
Defined.

(** ** Text within the BMP always encrypts *)

Lemma bmp_code_point y : is_bmp y -> is_code_point y.
Proof. unfold is_bmp, is_code_point. lia. Qed.

Lemma utf8_size_bmp : forall ys, Forall is_bmp ys -> utf8_size ys <= 3 * Z.of_nat (length ys).
Proof.
  induction ys as [|y ys IH]; intros Hall; [unfold utf8_size; cbn; lia|].
  apply Forall_cons in Hall as [Hy Hall]. rewrite utf8_size_cons. specialize (IH Hall).
  assert (L : (length (utf8_bytes y) <= 3)%nat).
  { unfold is_bmp in Hy. unfold utf8_bytes.
    destruct (y <=? 127); [cbn; lia|]. destruct (y <=? 2047); [cbn; lia|].
    destruct (Z.leb_spec y 65535); [cbn; lia | lia]. }
  cbn [length]. lia.
Qed.

(** A BMP code point is encoded by [unicode_to_utf8] with SUCCESS, in one to
    three bytes. *)
Lemma bmp_utf8_form y :
  is_bmp y ->
  fst (unicode_to_utf8 (Some [y]) (Some 3)) = PROBLEMA_SUCCESS /\
  (1 <= length (snd (unicode_to_utf8 (Some [y]) (Some 3%Z))) <= 3)%nat.
Proof.
  intros Hy. unfold unicode_to_utf8. cbn [unicode_to_utf8_from].
  destruct (y <=? 127);
    [split; [reflexivity | split; apply Nat.leb_le; reflexivity]|].
  destruct (y <=? 2047);
    [split; [reflexivity | split; apply Nat.leb_le; reflexivity]|].
  destruct (Z.leb_spec y 65535);
    [split; [reflexivity | split; apply Nat.leb_le; reflexivity]|].
  unfold is_bmp in Hy. lia.
Qed.



(** X14: text within the BMP always encrypts.  If the input decodes to code
    points up to 0xFFFF and the output buffer has three bytes per code point,
    then with every context in use [problema_encrypt] returns SUCCESS, and the
    bytes written are the UTF-8 form of as many code points, all of them up
    to 0xFFFF. *)
Theorem X14_bmp_text_always_encrypts
    (k : list Z) (c : ProblemaContext) (inp cps : list Z) (size : Z) :
  in_use k c ->
  utf8_to_unicode (Some inp) (Some (Z.of_nat (length inp))) = (PROBLEMA_SUCCESS, cps) ->
  Forall is_bmp cps -> 3 * Z.of_nat (length cps) <= size ->
  snd (fst (problema_encrypt (Some c) (Some inp) (Some size))) = PROBLEMA_SUCCESS /\
  exists ys,
    snd (problema_encrypt (Some c) (Some inp) (Some size)) = concat (map utf8_bytes ys) /\
    length ys = length cps /\ Forall is_bmp ys.
Proof.
  intros H Hd Hall Hsz.
  pose proof (in_use_session k c H) as Hs.
  rewrite (problema_encrypt_eq c inp size cps (session_initialized k c Hs) Hd).
  cbn [fst snd].
  destruct (encrypt_entry_ready c (session_initialized k c Hs) (session_plug_bmp k c Hs))
    as (Hi & Hp & F0 & F1).
  revert Hi Hp F0 F1. generalize (encrypt_entry c). intros c1 Hi Hp F0 F1.
  destruct (encrypt_chars_bmp cps c1 Hi Hp F0 F1 Hall) as [L B].
  revert L B. generalize (snd (encrypt_chars (Some c1) cps)). intros ys L B.
  assert (Hc : Forall is_code_point ys).
  { eapply Forall_impl; [exact B|]. intros y. apply bmp_code_point. }
  pose proof (utf8_size_bmp ys B) as Hsize.
  destruct (unicode_to_utf8_from_exact ys 0 size Hc) as [Ok _].
  cbn [unicode_to_utf8]. rewrite Ok by lia. cbn [fst snd].
  split; [done|]. exists ys. done.
Qed.

Lemma X14_bmp_text_always_encrypts_witness :
  let c := init_context blank_context key_secret in
  snd (fst (problema_encrypt (Some c) (Some [72; 236; 149; 136]) (Some 6))) =
    PROBLEMA_SUCCESS /\
  exists ys,
    snd (problema_encrypt (Some c) (Some [72; 236; 149; 136]) (Some 6)) =
      concat (map utf8_bytes ys) /\
    length ys = length [72; 50504] /\ Forall is_bmp ys.
Proof.
  apply (X14_bmp_text_always_encrypts key_secret (init_context blank_context key_secret)
           [72; 236; 149; 136] [72; 50504] 6).
  - apply (use_init key_secret blank_context);
      [ repeat apply conj; reflexivity
      | split; [reflexivity | repeat constructor; unfold is_byte; lia]
      | reflexivity ].
  - reflexivity.
  - repeat constructor; unfold is_bmp; lia.
  - cbn. lia.
Defined.

(** ** Block mode in closed form *)

(** One output cell of the MixColumns and AddRoundKey stages. *)
Definition mix_cell (a b rk : Z) : Z :=
  byte_t_cast (Z.lxor (byte_t_cast (Z.lxor (Z.lxor a b) 0)) rk).

(** Row [i] of the output, from the row after ShiftRows. *)
Definition mix_row (a b c d : Z) (rk : list Z) (i : Z) : list Z :=
  [ mix_cell a b (aget rk (i * 4 + 0)); mix_cell b c (aget rk (i * 4 + 1));
    mix_cell c d (aget rk (i * 4 + 2)); mix_cell d a (aget rk (i * 4 + 3)) ].

Lemma apply_aes_transformation_closed c b0 b1 b2 b3 b4 b5 b6 b7 b8 b9 b10 b11 b12 b13 b14 b15 :
  let S := tget (sbox (aes c)) in
  let rk := nth 0 (round_keys (aes c)) [] in
  apply_aes_transformation c
    [b0; b1; b2; b3; b4; b5; b6; b7; b8; b9; b10; b11; b12; b13; b14; b15] =
  mix_row (S b0) (S b1) (S b2) (S b3) rk 0 ++
  mix_row (S b5) (S b6) (S b7) (S b4) rk 1 ++
  mix_row (S b10) (S b11) (S b8) (S b9) rk 2 ++
  mix_row (S b15) (S b12) (S b13) (S b14) rk 3.
Proof. reflexivity. Qed.

Lemma xor_feedback_block_closed c b0 b1 b2 b3 b4 b5 b6 b7 b8 b9 b10 b11 b12 b13 b14 b15 :
  let f := fun b i => byte_t_cast (Z.lxor b (aget (feedback c) i)) in
  xor_feedback_block c [b0; b1; b2; b3; b4; b5; b6; b7; b8; b9; b10; b11; b12; b13; b14; b15] =
  [f b0 0; f b1 1; f b2 2; f b3 3; f b4 4; f b5 5; f b6 6; f b7 7;
   f b8 8; f b9 9; f b10 10; f b11 11; f b12 12; f b13 13; f b14 14; f b15 15].
Proof. reflexivity. Qed.

Ltac list16 l H :=
  do 16 (destruct l as [|? l]; [discriminate H|]);
  destruct l; [|discriminate H]; clear H.

Lemma length_xor_feedback_block c b :
  length b = 16%nat -> length (xor_feedback_block c b) = 16%nat.
Proof. intros H. list16 b H. reflexivity. Qed.

Lemma length_apply_aes_transformation c b :
  length b = 16%nat -> length (apply_aes_transformation c b) = 16%nat.
Proof. intros H. list16 b H. reflexivity. Qed.

Lemma update_feedback_full c b :
  length (feedback c) = 16%nat -> length b = 16%nat ->
  feedback (update_feedback c b) = b.
Proof.
  intros Hf Hb. rewrite update_feedback_eq. fields.
  revert Hf. generalize (feedback c). intros f Hf.
  list16 f Hf. list16 b Hb. reflexivity.
Qed.

Lemma mix_row_collapse s rk i : mix_row s s s s rk i = mix_row 0 0 0 0 rk i.
Proof. unfold mix_row, mix_cell. by rewrite Z.lxor_nilpotent. Qed.

Lemma cast_lxor_twice x f : byte_t_cast (Z.lxor (Z.lxor x f) f) = byte_t_cast x.
Proof. by rewrite lxor_twice. Qed.

Lemma xor_feedback_block_on c f0 f1 f2 f3 f4 f5 f6 f7 f8 f9 f10 f11 f12 f13 f14 f15
    b0 b1 b2 b3 b4 b5 b6 b7 b8 b9 b10 b11 b12 b13 b14 b15 :
  feedback c = [f0; f1; f2; f3; f4; f5; f6; f7; f8; f9; f10; f11; f12; f13; f14; f15] ->
  let f := fun b v => byte_t_cast (Z.lxor b v) in
  xor_feedback_block c [b0; b1; b2; b3; b4; b5; b6; b7; b8; b9; b10; b11; b12; b13; b14; b15] =
  [f b0 f0; f b1 f1; f b2 f2; f b3 f3; f b4 f4; f b5 f5; f b6 f6; f b7 f7;
   f b8 f8; f b9 f9; f b10 f10; f b11 f11; f b12 f12; f b13 f13; f b14 f14; f b15 f15].
Proof. intros E. unfold xor_feedback_block. rewrite E. reflexivity. Qed.

(** The ciphertext block does not depend on [x] when the first four input
    bytes are [x] XOR-ed with the first four feedback bytes. *)
Lemma encrypt_block_collapse c x y rest out :
  initialized c = true -> length (feedback c) = 16%nat ->
  length rest = 12%nat -> length out = 16%nat ->
  snd (problema_encrypt_block (Some c)
         (Some (map (Z.lxor x) (take 4 (feedback c)) ++ rest)) (Some out)) =
  snd (problema_encrypt_block (Some c)
         (Some (map (Z.lxor y) (take 4 (feedback c)) ++ rest)) (Some out)).
Proof.
  intros Hi Hf Hr Ho. rewrite !encrypt_block_out by done.
  remember (feedback c) as f eqn:Ef. symmetry in Ef.
  list16 f Hf.
  do 12 (destruct rest as [|? rest]; [discriminate Hr|]).
  destruct rest; [|discriminate Hr]. clear Hr.
  cbn [take map app].
  rewrite !memcpy_exact by (assumption || reflexivity).
  rewrite !(xor_feedback_block_on c _ _ _ _ _ _ _ _ _ _ _ _ _ _ _ _
              _ _ _ _ _ _ _ _ _ _ _ _ _ _ _ _ Ef).
  cbv zeta. rewrite !cast_lxor_twice, !apply_aes_transformation_closed. cbv zeta.
  rewrite (mix_row_collapse (tget (sbox (aes c)) (byte_t_cast x))),
          (mix_row_collapse (tget (sbox (aes c)) (byte_t_cast y))).
  reflexivity.
Qed.

(** X15: block encryption is many-to-one.  With every context in use, input
    blocks that differ only in that their first four bytes are [x], resp.
    [y], XOR-ed with the first four feedback bytes (after [problema_init]:
    the blocks [x x x x ...] and [y y y y ...]) are different blocks with
    the same ciphertext block, so no block decryption can recover the
    input. *)
Theorem X15_block_encryption_not_injective
    (k : list Z) (c : ProblemaContext) (x y : Z) (rest out : list Z) :
  in_use k c -> length rest = 12%nat -> length out = 16%nat -> x <> y ->
  let bx := map (Z.lxor x) (take 4 (feedback c)) ++ rest in
  let by_ := map (Z.lxor y) (take 4 (feedback c)) ++ rest in
  bx <> by_ /\
  snd (problema_encrypt_block (Some c) (Some bx) (Some out)) =
  snd (problema_encrypt_block (Some c) (Some by_) (Some out)).
Proof.
  intros H Hr Ho Hne. cbv zeta.
  destruct (in_use_session k c H) as [Hi _ _ _ _ Hf]. split.
  - revert Hf. generalize (feedback c). intros f Hf.
    destruct f as [|f0 f]; [discriminate Hf|]. cbn [take map app].
    intros [= E _]. apply Hne.
    transitivity (Z.lxor (Z.lxor x f0) f0); [by rewrite lxor_twice|].
    rewrite E. apply lxor_twice.
  - by apply encrypt_block_collapse.
Qed.

Lemma X15_block_encryption_not_injective_witness :
  let c := init_context blank_context key_secret in
  let bx := map (Z.lxor 1) (take 4 (feedback c)) ++ repeat 0 12 in
  let by_ := map (Z.lxor 2) (take 4 (feedback c)) ++ repeat 0 12 in
  bx <> by_ /\
  snd (problema_encrypt_block (Some c) (Some bx) (Some (repeat 0 16))) =
  snd (problema_encrypt_block (Some c) (Some by_) (Some (repeat 0 16))).
Proof.
  apply (X15_block_encryption_not_injective key_secret
           (init_context blank_context key_secret) 1 2 (repeat 0 12) (repeat 0 16)).
  - apply (use_init key_secret blank_context);
      [ repeat apply conj; reflexivity
      | split; [reflexivity | repeat constructor; unfold is_byte; lia]
      | reflexivity ].
  - reflexivity.
  - reflexivity.
  - discriminate.
Defined.

(** X16: block mode chains on the ciphertext and leaves the rotors alone.
    After [problema_encrypt_block] the feedback register holds the ciphertext
    block just written, after [problema_decrypt_block] it holds the
    ciphertext block just read, and neither call changes a rotor. *)
Theorem X16_block_feedback_is_ciphertext
    (k : list Z) (c : ProblemaContext) (inp out : list Z) :
  in_use k c -> length inp = 16%nat -> length out = 16%nat ->
  (exists c' e,
     problema_encrypt_block (Some c) (Some inp) (Some out) = (Some c', Some e) /\
     feedback c' = e /\ rotors c' = rotors c /\ inverse_rotors c' = inverse_rotors c) /\
  (exists c' p,
     problema_decrypt_block (Some c) (Some inp) (Some out) = (Some c', Some p) /\
     feedback c' = inp /\ rotors c' = rotors c /\ inverse_rotors c' = inverse_rotors c).
Proof.
  intros H Hin Hout.
  destruct (in_use_session k c H) as [Hi _ _ _ _ Hf].
  unfold problema_encrypt_block, problema_decrypt_block. rewrite Hi. cbn [negb].
  rewrite !memcpy_exact by (assumption || reflexivity).
  split.
  - eexists _, _. split; [reflexivity|].
    split; [|by rewrite update_feedback_eq].
    apply update_feedback_full; [done|].
    by apply length_apply_aes_transformation, length_xor_feedback_block.
  - eexists _, _. split; [reflexivity|].
    split; [|by rewrite update_feedback_eq].
    by apply update_feedback_full.
Qed.

Lemma X16_block_feedback_is_ciphertext_witness :
  let c := init_context blank_context zero_key in
  (exists c' e,
     problema_encrypt_block (Some c) (Some sample_block) (Some (repeat 0 16)) =
       (Some c', Some e) /\
     feedback c' = e /\ rotors c' = rotors c /\ inverse_rotors c' = inverse_rotors c) /\
  (exists c' p,
     problema_decrypt_block (Some c) (Some sample_block) (Some (repeat 0 16)) =
       (Some c', Some p) /\
     feedback c' = sample_block /\ rotors c' = rotors c /\
     inverse_rotors c' = inverse_rotors c).
Proof.
  apply (X16_block_feedback_is_ciphertext zero_key (init_context blank_context zero_key)
           sample_block (repeat 0 16)).
  - zero_key_in_use.
  - reflexivity.
  - reflexivity.
Defined.

(** ** What [problema_cleanup] leaves behind *)

Lemma round_key_row_full k r row :
  length row = 16%nat ->
  round_key_row k r row =
  map (fun i => key_byte k (i + r * 4)) [0; 1; 2; 3; 4; 5; 6; 7; 8; 9; 10; 11; 12; 13; 14; 15].
Proof. intros H. list16 row H. reflexivity. Qed.

Lemma key_round_keys_rows k old :
  length old = 15%nat ->
  nth 0 (key_round_keys k old) [] = round_key_row k 0 (nth 0 old []) /\
  nth 4 (key_round_keys k old) [] = round_key_row k 4 (nth 4 old []).
Proof.
  intros H. do 15 (destruct old as [|? old]; [discriminate H|]).
  destruct old; [|discriminate H]. split; reflexivity.
Qed.

Lemma round_keys_hold_key k old :
  length k = 32%nat -> length old = 15%nat -> Forall (fun row => length row = 16%nat) old ->
  nth 0 (key_round_keys k old) [] ++ nth 4 (key_round_keys k old) [] = k.
Proof.
  intros Hk Ho Hrows. destruct (key_round_keys_rows k old Ho) as [-> ->].
  assert (R : forall n, (n < 15)%nat -> length (nth n old []) = 16%nat).
  { intros n Hn. apply (proj1 (Forall_forall _ _) Hrows).
    apply list_elem_of_In, nth_In. lia. }
  rewrite !round_key_row_full by (apply R; lia).
  do 32 (destruct k as [|? k]; [discriminate Hk|]).
  destruct k; [|discriminate Hk]. reflexivity.
Qed.

(** X17: [problema_cleanup] wipes the key and the feedback register and
    clears the initialised flag, so that string calls are refused; but the
    key stays readable in the context: rows 0 and 4 of the round-key table
    (15 rows of 16 bytes, as declared) still spell the 32 key bytes, and the
    rotor and plugboard tables derived from the key are untouched. *)
Theorem X17_cleanup_leaves_key_material (c0 : ProblemaContext) (k : list Z) :
  context_sized c0 -> valid_key k ->
  length (round_keys (aes c0)) = 15%nat ->
  Forall (fun row => length row = 16%nat) (round_keys (aes c0)) ->
  exists c c',
    problema_init (Some c0) (Some k) = (Some c, PROBLEMA_SUCCESS) /\
    problema_cleanup (Some c) = Some c' /\
    initialized c' = false /\ key c' = repeat 0 32 /\ feedback c' = repeat 0 16 /\
    (forall inp size,
       problema_encrypt (Some c') (Some inp) (Some size) =
         (Some c', PROBLEMA_ERROR_NOT_INITIALIZED, []) /\
       problema_decrypt (Some c') (Some inp) (Some size) =
         (Some c', PROBLEMA_ERROR_NOT_INITIALIZED, [])) /\
    nth 0 (round_keys (aes c')) [] ++ nth 4 (round_keys (aes c')) [] = k /\
    rotors c' = rotors c /\ inverse_rotors c' = inverse_rotors c /\
    plugboard c' = plugboard c.
Proof.
  intros Hs [Hl Hb] Hrk Hrows. rewrite problema_init_some.
  pose proof (init_context_facts c0 k Hs Hl) as F. revert F.
  generalize (init_context c0 k). intros c F.
  eexists c, _. split; [reflexivity|]. split; [reflexivity|].
  fields.
  rewrite (init_key _ _ _ F), (init_feedback _ _ _ F), (init_round_keys _ _ _ F).
  rewrite !memset0_exact by (rewrite ?Hl; reflexivity).
  split; [done|]. split; [done|]. split; [done|]. split.
  - intros inp size. split; reflexivity.
  - split; [exact (round_keys_hold_key k _ Hl Hrk Hrows)|].
    split; [reflexivity | split; reflexivity].
Qed.

Lemma X17_cleanup_leaves_key_material_witness :
  exists c c',
    problema_init (Some blank_context) (Some key_secret) = (Some c, PROBLEMA_SUCCESS) /\
    problema_cleanup (Some c) = Some c' /\
    initialized c' = false /\ key c' = repeat 0 32 /\ feedback c' = repeat 0 16 /\
    (forall inp size,
       problema_encrypt (Some c') (Some inp) (Some size) =
         (Some c', PROBLEMA_ERROR_NOT_INITIALIZED, []) /\
       problema_decrypt (Some c') (Some inp) (Some size) =
         (Some c', PROBLEMA_ERROR_NOT_INITIALIZED, [])) /\
    nth 0 (round_keys (aes c')) [] ++ nth 4 (round_keys (aes c')) [] = key_secret /\
    rotors c' = rotors c /\ inverse_rotors c' = inverse_rotors c /\
    plugboard c' = plugboard c.
Proof.
  apply (X17_cleanup_leaves_key_material blank_context key_secret).
  - repeat apply conj; reflexivity.
  - split; [reflexivity | repeat constructor; unfold is_byte; lia].
  - reflexivity.
  - repeat constructor.
Defined.

(** ** Key derivation of the command-line tool *)

(** Cell [i] of the derived key as a function of the string alone. *)
Definition derived_byte (key_str : list Z) (i : Z) : Z :=
  let key_len := Z.of_nat (length key_str) in
  for_up (Z.to_nat key_len) 0
    (fun j b =>
       byte_t_cast (rotl3 (byte_t_cast (Z.lxor b (aget key_str (Z.rem (i + j) key_len))))))
    (byte_t_cast (aget key_str (Z.rem i key_len))).

Lemma derive_inner key_str i : forall n key,
  0 <= i -> (Z.to_nat i < length key)%nat ->
  let key' :=
    for_up n 0
      (fun j key =>
         let key := aset key i
                      (byte_t_cast (Z.lxor (aget key i)
                         (aget key_str (Z.rem (i + j) (Z.of_nat (length key_str)))))) in
         aset key i (byte_t_cast (rotl3 (aget key i))))
      key in
  length key' = length key /\
  (forall m, 0 <= m -> m <> i -> aget key' m = aget key m) /\
  aget key' i =
    for_up n 0
      (fun j b =>
         byte_t_cast (rotl3 (byte_t_cast
            (Z.lxor b (aget key_str (Z.rem (i + j) (Z.of_nat (length key_str))))))))
      (aget key i).
Proof.
  induction n as [|n IH]; intros key Hi Hl; cbv zeta.
  - done.
  - rewrite !for_up_snoc. cbv zeta in IH. destruct (IH key Hi Hl) as (L & Fr & E).
    revert L Fr E. generalize (for_up n 0
      (fun j key0 =>
         aset (aset key0 i (byte_t_cast (Z.lxor (aget key0 i)
                 (aget key_str (Z.rem (i + j) (Z.of_nat (length key_str)))))))
              i (byte_t_cast (rotl3 (aget
                 (aset key0 i (byte_t_cast (Z.lxor (aget key0 i)
                    (aget key_str (Z.rem (i + j) (Z.of_nat (length key_str))))))) i))))
      key).
    intros key1 L Fr E. rewrite !length_aset.
    split; [done|]. split.
    + intros m Hm Hne. rewrite !aget_aset_ne by lia. by apply Fr.
    + rewrite !aget_aset_eq by (rewrite ?length_aset; lia). by rewrite E.
Qed.

Lemma derive_key_cells key_str key :
  length key = 32%nat ->
  let key' := derive_key_from_string key_str key in
  length key' = 32%nat /\
  forall i, 0 <= i < 32 -> aget key' i = derived_byte key_str i.
Proof.
  intros Hl. unfold derive_key_from_string. cbv zeta.
  rewrite memset0_exact by (rewrite Hl; reflexivity).
  assert (G : let key' := for_up (Z.to_nat PROBLEMA_KEY_SIZE) 0
      (fun i key0 =>
         for_up (Z.to_nat (Z.of_nat (length key_str))) 0
           (fun j key1 =>
              aset (aset key1 i (byte_t_cast (Z.lxor (aget key1 i)
                      (aget key_str (Z.rem (i + j) (Z.of_nat (length key_str)))))))
                   i (byte_t_cast (rotl3 (aget
                      (aset key1 i (byte_t_cast (Z.lxor (aget key1 i)
                         (aget key_str (Z.rem (i + j) (Z.of_nat (length key_str))))))) i))))
           (aset key0 i
              (byte_t_cast (aget key_str (Z.rem i (Z.of_nat (length key_str)))))))
      (repeat 0 (Z.to_nat PROBLEMA_KEY_SIZE)) in
    length key' = 32%nat /\
    forall i, 0 <= i < 0 + Z.of_nat (Z.to_nat PROBLEMA_KEY_SIZE) ->
      aget key' i = derived_byte key_str i).
  { cbv zeta.
    apply (for_up_invariant
             (fun n key' => length key' = 32%nat /\
                forall i, 0 <= i < n -> aget key' i = derived_byte key_str i)).
    - split; [reflexivity | intros; lia].
    - intros i key0 Hi [L C].
      unfold PROBLEMA_KEY_SIZE in Hi.
      destruct (derive_inner key_str i (Z.to_nat (Z.of_nat (length key_str)))
                  (aset key0 i
                     (byte_t_cast (aget key_str (Z.rem i (Z.of_nat (length key_str)))))))
        as (L' & Fr & E); [lia | rewrite length_aset; lia |].
      cbv zeta in L', Fr, E. rewrite L', length_aset. split; [done|].
      intros m Hm. destruct (Z.eq_dec m i) as [->|Hne].
      + rewrite E, aget_aset_eq by lia. reflexivity.
      + rewrite Fr, aget_aset_ne by lia. apply C. lia. }
  exact G.
Qed.

Lemma derived_byte_range key_str i : is_byte (derived_byte key_str i).
Proof.
  unfold derived_byte, is_byte. cbv zeta.
  destruct (Z.to_nat (Z.of_nat (length key_str))) as [|n].
  - apply byte_t_cast_range.
  - rewrite for_up_snoc. apply byte_t_cast_range.
Qed.

Lemma cells_determine_list (l l' : list Z) :
  length l = 32%nat -> length l' = 32%nat ->
  (forall i, 0 <= i < 32 -> aget l i = aget l' i) -> l = l'.
Proof.
  intros L L' H. apply (nth_ext l l' 0 0); [congruence|].
  intros n Hn. specialize (H (Z.of_nat n)). unfold aget in H.
  rewrite Nat2Z.id in H. apply H. lia.
Qed.

Lemma cells_bytes (l : list Z) :
  length l = 32%nat -> (forall i, 0 <= i < 32 -> is_byte (aget l i)) -> Forall is_byte l.
Proof.
  intros L H. apply Forall_forall. intros x Hx.
  apply list_elem_of_In, (In_nth l x 0) in Hx as (n & Hn & <-).
  specialize (H (Z.of_nat n)). unfold aget in H. rewrite Nat2Z.id in H. apply H. lia.
Qed.



Lemma cast_lxor_self b : byte_t_cast (Z.lxor (byte_t_cast b) b) = 0.
Proof.
  unfold byte_t_cast. change 256 with (2 ^ 8).
  apply Z.bits_inj'. intros i Hi.
  rewrite Z.testbit_mod_pow2, Z.lxor_spec, Z.testbit_mod_pow2, Z.bits_0 by lia.
  destruct (i <? 8), (Z.testbit b i); reflexivity.
Qed.

(** X19: every one-character key string derives the all-zero key: the mixing
    loop XORs the single character with itself. *)
Theorem X19_one_character_key_is_zero (b : Z) (key : list Z) :
  length key = 32%nat ->
  derive_key_from_string [b] key = repeat 0 32.
Proof.
  intros Hl. destruct (derive_key_cells [b] key Hl) as [L C]. cbv zeta in L, C.
  apply cells_determine_list; [done | reflexivity |].
  intros i Hi. rewrite C by done.
  transitivity 0.
  - unfold derived_byte. cbn [length].
    change (Z.to_nat (Z.of_nat 1)) with 1%nat. change (Z.of_nat 1) with 1.
    cbn [for_up]. rewrite !Z.rem_1_r. change (aget [b] 0) with b.
    rewrite cast_lxor_self. reflexivity.
  - assert (H : forall n, (n < 32)%nat -> nth n (repeat 0 32) 0 = 0).
    { intros n Hn. do 32 (destruct n as [|n]; [reflexivity|]). lia. }
    unfold aget. symmetry. apply H. lia.
Qed.

Lemma X19_one_character_key_is_zero_witness :
  derive_key_from_string [97] (repeat 7 32) = repeat 0 32.
Proof. apply (X19_one_character_key_is_zero 97 (repeat 7 32)). reflexivity. Defined.

Lemma derived_byte_periodic key_str i :
  key_str <> [] -> 0 <= i ->
  derived_byte key_str (i + Z.of_nat (length key_str)) = derived_byte key_str i.
Proof.
  intros Hne Hi. unfold derived_byte. cbv zeta.
  assert (Hn : 0 < Z.of_nat (length key_str)) by (destruct key_str; [done | cbn; lia]).
  revert Hn. generalize (Z.of_nat (length key_str)). intros n Hn.
  assert (R : forall j, 0 <= j -> Z.rem (i + n + j) n = Z.rem (i + j) n).
  { intros j Hj. rewrite !Z.rem_mod_nonneg by lia.
    replace (i + n + j) with (i + j + 1 * n) by lia. apply Z.mod_add. lia. }
  assert (R0 : Z.rem (i + n) n = Z.rem i n).
  { specialize (R 0). rewrite !Z.add_0_r in R. apply R. lia. }
  rewrite R0.
  apply for_up_ext. intros j b Hj. rewrite R by lia. reflexivity.
Qed.

(** X20: the derived key repeats with the period of the key string: for a
    string of [n] characters, key byte [i + n] equals key byte [i], so the
    32-byte key never has more than [n] independent bytes. *)
Theorem X20_derived_key_is_periodic (key_str key : list Z) (i : Z) :
  key_str <> [] -> length key = 32%nat ->
  0 <= i -> i + Z.of_nat (length key_str) < 32 ->
  aget (derive_key_from_string key_str key) (i + Z.of_nat (length key_str)) =
  aget (derive_key_from_string key_str key) i.
Proof.
  intros Hne Hl Hi Hlt. destruct (derive_key_cells key_str key Hl) as [L C].
  cbv zeta in C. rewrite !C by lia. by apply derived_byte_periodic.
Qed.

Lemma X20_derived_key_is_periodic_witness :
  let s := [115; 101; 99; 114; 101; 116] in
  aget (derive_key_from_string s (repeat 0 32)) (3 + Z.of_nat (length s)) =
  aget (derive_key_from_string s (repeat 0 32)) 3.
Proof.
  apply (X20_derived_key_is_periodic [115; 101; 99; 114; 101; 116] (repeat 0 32) 3).
  - discriminate.
  - reflexivity.
  - lia.
  - cbn. lia.
Defined.

(** ** Sender and receiver stay in step *)

Lemma advance_rotor_ext c d r :
  rotors c = rotors d -> inverse_rotors c = inverse_rotors d ->
  rotors (advance_rotor c r) = rotors (advance_rotor d r) /\
  inverse_rotors (advance_rotor c r) = inverse_rotors (advance_rotor d r).
Proof. intros E1 E2. unfold advance_rotor. fields. by rewrite E1, E2. Qed.

Lemma carry_from_ext : forall n r c d,
  rotors c = rotors d -> inverse_rotors c = inverse_rotors d ->
  rotors (carry_from n r c) = rotors (carry_from n r d) /\
  inverse_rotors (carry_from n r c) = inverse_rotors (carry_from n r d).
Proof.
  induction n as [|n IH]; intros r c d E1 E2; [done|].
  cbn [carry_from]. rewrite E1.
  destruct (at_notch (rotor_at (rotors d) r)); [|done].
  destruct (advance_rotor_ext c d (r + 1) E1 E2) as [A1 A2]. by apply IH.
Qed.

Lemma rotate_rotors_ext c d :
  rotors c = rotors d -> inverse_rotors c = inverse_rotors d ->
  rotors (rotate_rotors c) = rotors (rotate_rotors d) /\
  inverse_rotors (rotate_rotors c) = inverse_rotors (rotate_rotors d).
Proof.
  intros E1 E2. unfold rotate_rotors.
  destruct (advance_rotor_ext c d 0 E1 E2) as [A1 A2]. by apply carry_from_ext.
Qed.

(** Two contexts with the same rotor banks and the same four feedback cells. *)
Record in_step (c d : ProblemaContext) : Prop := {
  step_initialized_l : initialized c = true;
  step_initialized_r : initialized d = true;
  step_rotors : rotors c = rotors d;
  step_inverse_rotors : inverse_rotors c = inverse_rotors d;
  step_head4 : head4 (feedback c) = head4 (feedback d);
  step_length_l : (4 <= length (feedback c))%nat;
  step_length_r : (4 <= length (feedback d))%nat
}.

Lemma char_in_step c d x :
  in_step c d ->
  exists c' d',
    fst (problema_encrypt_char (Some c) x) = Some c' /\
    fst (problema_decrypt_char (Some d) (snd (problema_encrypt_char (Some c) x))) = Some d' /\
    in_step c' d'.
Proof.
  intros [Hc Hd E1 E2 Eh Lc Ld].
  destruct (encrypt_char_bank c x Hc) as (c' & Ec & R1 & R2 & I & _ & _ & _ & F).
  rewrite Ec. cbn [fst snd].
  destruct (decrypt_char_bank d (join_bytes (xor4 (feedback c) (encrypt_core c x))) Hd)
    as (d' & Ed & R1' & R2' & I' & _ & _ & _ & F').
  rewrite Ed. cbn [fst]. exists c', d'. split; [done|]. split; [done|].
  destruct (rotate_rotors_ext c d E1 E2) as [A1 A2].
  assert (S : split_bytes (join_bytes (xor4 (feedback c) (encrypt_core c x))) =
              xor4 (feedback c) (encrypt_core c x)).
  { unfold xor4. apply split_join_bytes; apply byte_t_cast_range. }
  constructor.
  - done.
  - done.
  - by rewrite R1, R1'.
  - by rewrite R2, R2'.
  - rewrite F, F', S. unfold xor4. by rewrite !head4_put4.
  - by rewrite F, length_put4.
  - by rewrite F', length_put4.
Qed.

Lemma chars_in_step : forall cps c d,
  in_step c d ->
  exists c' d',
    fst (encrypt_chars (Some c) cps) = Some c' /\
    fst (decrypt_chars (Some d) (snd (encrypt_chars (Some c) cps))) = Some d' /\
    in_step c' d'.
Proof.
  induction cps as [|x cps IH]; intros c d H.
  - exists c, d. done.
  - destruct (char_in_step c d x H) as (c1 & d1 & E1 & D1 & H1).
    destruct (IH c1 d1 H1) as (c2 & d2 & E2 & D2 & H2).
    exists c2, d2. split; [|split; [|done]].
    + cbn [encrypt_chars]. revert E1. destruct (problema_encrypt_char (Some c) x) as [o y].
      cbn [fst]. intros ->. revert E2. by destruct (encrypt_chars (Some c1) cps).
    + cbn [encrypt_chars]. revert E1 D1.
      destruct (problema_encrypt_char (Some c) x) as [o y].
      cbn [fst snd]. intros -> D1. revert E2 D2.
      destruct (encrypt_chars (Some c1) cps) as [o2 ys]. cbn [fst snd]. intros _ D2.
      cbn [decrypt_chars]. revert D1.
      destruct (problema_decrypt_char (Some d) y) as [o3 z]. cbn [fst]. intros ->.
      revert D2. by destruct (decrypt_chars (Some d1) ys).
Qed.

(** X21: sender and receiver stay in step.  Start a string encryption and a
    string decryption from the same context in use and feed the decryption
    the code points the encryption emits: after every stream the two
    contexts have identical rotor banks (hence positions) and the same four
    feedback cells, whether or not the decrypted text equals the input. *)
Theorem X21_sender_and_receiver_stay_in_step
    (k : list Z) (c : ProblemaContext) (cps : list Z) :
  in_use k c ->
  exists c' d',
    fst (encrypt_chars (Some (encrypt_entry c)) cps) = Some c' /\
    fst (decrypt_chars (Some (decrypt_entry c))
           (snd (encrypt_chars (Some (encrypt_entry c)) cps))) = Some d' /\
    rotors c' = rotors d' /\ inverse_rotors c' = inverse_rotors d' /\
    head4 (feedback c') = head4 (feedback d').
Proof.
  intros H. pose proof (in_use_session k c H) as Hs.
  destruct (encrypt_entry_zeroed k c Hs) as (Hi & Hl & Hh).
  destruct (decrypt_entry_zeroed k c Hs) as (Hi' & Hl' & Hh').
  assert (R : rotors (encrypt_entry c) = rotors (decrypt_entry c)) by reflexivity.
  assert (R' : inverse_rotors (encrypt_entry c) = inverse_rotors (decrypt_entry c))
    by reflexivity.
  revert Hi Hl Hh Hi' Hl' Hh' R R'. generalize (encrypt_entry c), (decrypt_entry c).
  intros c1 d1 Hi Hl Hh Hi' Hl' Hh' R R'.
  destruct (chars_in_step cps c1 d1) as (c' & d' & E & D & S).
  { constructor; try assumption. by rewrite Hh, Hh'. }
  exists c', d'. split; [done|]. split; [done|]. by destruct S.
Qed.

Lemma X21_sender_and_receiver_stay_in_step_witness :
  let c := init_context blank_context key_secret in
  exists c' d',
    fst (encrypt_chars (Some (encrypt_entry c)) [50504; 72; 128512]) = Some c' /\
    fst (decrypt_chars (Some (decrypt_entry c))
           (snd (encrypt_chars (Some (encrypt_entry c)) [50504; 72; 128512]))) = Some d' /\
    rotors c' = rotors d' /\ inverse_rotors c' = inverse_rotors d' /\
    head4 (feedback c') = head4 (feedback d').
Proof.
  apply (X21_sender_and_receiver_stay_in_step key_secret
           (init_context blank_context key_secret) [50504; 72; 128512]).
  apply (use_init key_secret blank_context);
    [ repeat apply conj; reflexivity
    | split; [reflexivity | repeat constructor; unfold is_byte; lia]
    | reflexivity ].
Defined.

(** X22: in every context in use [apply_plugboard] is a bijection of
    [0, 65536), and it leaves every larger value as it is. *)
Theorem X22_plugboard_is_a_bijection (k : list Z) (c : ProblemaContext) :
  in_use k c ->
  bijection_on 65536 (apply_plugboard c) /\
  forall x, 65536 <= x -> apply_plugboard c x = x.
Proof.
  intros H. pose proof (in_use_session k c H) as Hs.
  destruct (perm_table_bijection _ _ (session_plug k c Hs)) as (B1 & B2 & B3).
  assert (E : forall x, 0 <= x < 65536 ->
            apply_plugboard c x = tget (plugboard_mapping (plugboard c)) x).
  { intros x Hx. unfold apply_plugboard, PROBLEMA_ROTOR_SIZE.
    destruct (Z.ltb_spec x 65536); [done | lia]. }
  unfold PROBLEMA_ROTOR_SIZE in B1, B2, B3.
  split; [split; [|split]|].
  - intros i Hi. rewrite E by done. by apply B1.
  - intros i j Hi Hj. rewrite !E by done. by apply B2.
  - intros y Hy. destruct (B3 y Hy) as (i & Hi & Ei). exists i. split; [done|].
    by rewrite E.
  - intros x Hx. unfold apply_plugboard, PROBLEMA_ROTOR_SIZE.
    destruct (Z.ltb_spec x 65536); [lia | done].
Qed.

Lemma X22_plugboard_is_a_bijection_witness :
  let c := init_context blank_context key_secret in
  bijection_on 65536 (apply_plugboard c) /\
  forall x, 65536 <= x -> apply_plugboard c x = x.
Proof.
  apply (X22_plugboard_is_a_bijection key_secret (init_context blank_context key_secret)).
  apply (use_init key_secret blank_context);
    [ repeat apply conj; reflexivity
    | split; [reflexivity | repeat constructor; unfold is_byte; lia]
    | reflexivity ].
Defined.

(** ** The all-zero key *)

Lemma key_byte_zero i : key_byte zero_key i = 0.
Proof. unfold key_byte, aget, zero_key. apply nth_repeat. Qed.

Lemma rotor_partner_zero r i : rotor_partner zero_key r i = 0.
Proof. unfold rotor_partner. rewrite key_byte_zero. reflexivity. Qed.

Lemma plug_ends_zero i : plug_a zero_key i = 0 /\ plug_b zero_key i = 0.
Proof. unfold plug_a, plug_b. rewrite !key_byte_zero. split; reflexivity. Qed.

Lemma chase_up_ext (A B A' B' : Z -> Z) :
  (forall j, A j = A' j) -> (forall j, B j = B' j) ->
  forall n i x, chase_up A B n i x = chase_up A' B' n i x.
Proof.
  intros HA HB. induction n as [|n IH]; intros i x; [done|].
  cbn [chase_up]. by rewrite HA, HB, IH.
Qed.

Lemma follow_up_ext (A B A' B' : Z -> Z) :
  (forall j, A j = A' j) -> (forall j, B j = B' j) ->
  forall n i x, follow_up A B n i x = follow_up A' B' n i x.
Proof.
  intros HA HB. induction n as [|n IH]; intros i x; [done|].
  cbn [follow_up]. by rewrite HA, HB, IH.
Qed.

Ltac decide_all :=
  repeat match goal with
         | |- context [Z.eqb ?a ?b] => destruct (Z.eqb_spec a b)
         | |- context [Z.leb ?a ?b] => destruct (Z.leb_spec a b)
         | |- context [Z.ltb ?a ?b] => destruct (Z.ltb_spec a b)
         end;
  cbn [andb]; try lia.

(** Swapping cell 0 with cells [i], [i+1], ... in turn moves every index of
    the range one up and the last one to 0. *)
Lemma chase_up_to_zero : forall n i x,
  0 < i -> 0 <= x ->
  chase_up (fun j => j) (fun _ => 0) n i x =
  if x =? 0 then (if Z.of_nat n =? 0 then 0 else i)
  else if (i <=? x) && (x <? i + Z.of_nat n)
       then (if x + 1 <? i + Z.of_nat n then x + 1 else 0)
       else x.
Proof.
  induction n as [|n IH]; intros i x Hi Hx.
  - cbn [chase_up]. change (Z.of_nat 0) with 0. decide_all.
  - cbn [chase_up].
    assert (Hy : (x = i /\ transpose i 0 x = 0) \/ (x = 0 /\ transpose i 0 x = i) \/
                 (x <> i /\ x <> 0 /\ transpose i 0 x = x)).
    { unfold transpose. decide_all. }
    revert Hy. generalize (transpose i 0 x). intros y Hy.
    rewrite IH by lia. rewrite Nat2Z.inj_succ. decide_all.
Qed.

Lemma rotor_entry_zero r x :
  0 <= x < 65536 -> rotor_entry zero_key r x = (x + 1) mod 65536.
Proof.
  intros Hx. unfold rotor_entry, PROBLEMA_ROTOR_SIZE.
  rewrite (chase_up_ext _ _ (fun j => j) (fun _ => 0)); [|done | apply rotor_partner_zero].
  rewrite chase_up_to_zero by lia.
  assert (E : Z.of_nat (Z.to_nat (65536 - 1)) = 65535) by lia.
  rewrite E. clear E.
  decide_all; Z.to_euclidean_division_equations; lia.
Qed.

Lemma follow_up_fixed : forall n i x, follow_up (fun _ => 0) (fun _ => 0) n i x = x.
Proof.
  induction n as [|n IH]; intros i x; [done|].
  cbn [follow_up]. rewrite IH. unfold transpose. decide_all.
Qed.

Lemma plug_entry_zero x : plug_entry zero_key x = x.
Proof.
  unfold plug_entry.
  rewrite (follow_up_ext _ _ (fun _ => 0) (fun _ => 0));
    [|intros j; apply plug_ends_zero | intros j; apply plug_ends_zero].
  apply follow_up_fixed.
Qed.

(** Under the zero key every rotor adds one and every inverse rotor
    subtracts one, at any position. *)
Lemma zero_key_steps c r y :
  session zero_key c -> 0 <= r < 8 -> 0 <= y < 65536 ->
  rotor_forward_step c r y = (y + 1) mod 65536 /\
  rotor_backward_step c r y = (y - 1) mod 65536.
Proof.
  intros [_ _ [_ _ Hs Hr _ _ IF _] [F _ _] _ _] Hr8 Hy.
  unfold rotor_forward_step, rotor_backward_step. cbv zeta.
  rewrite (Hs r Hr8). specialize (Hr r Hr8). revert Hr.
  generalize (position (rotor_at (rotors c) r)). intros p Hp.
  specialize (F r). specialize (IF r). unfold PROBLEMA_ROTOR_SIZE in *.
  assert (Fz : forall z, 0 <= z < 65536 ->
            tget (mapping (rotor_at (rotors c) r)) z = (z + 1) mod 65536).
  { intros z Hz. rewrite F by done. by apply rotor_entry_zero. }
  assert (Iz : forall z, 0 <= z < 65536 ->
            tget (mapping (rotor_at (inverse_rotors c) r)) z = (z - 1) mod 65536).
  { intros z Hz.
    assert (Hq : 0 <= (z - 1) mod 65536 < 65536) by (apply Z.mod_pos_bound; lia).
    rewrite <- (IF ((z - 1) mod 65536) Hr8 Hq) at 1.
    rewrite Fz by done. f_equal. Z.to_euclidean_division_equations; lia. }
  clear F IF. unfold u32.
  assert (H1 : 0 <= (y + p) mod 4294967296 mod 65536 < 65536)
    by (apply Z.mod_pos_bound; lia).
  rewrite Fz, Iz by done. split; Z.to_euclidean_division_equations; lia.
Qed.

Lemma apply_rotors_forward_loop c x :
  0 <= x < 65536 -> apply_rotors_forward c x = for_up 8 0 (rotor_forward_step c) x.
Proof.
  intros Hx. unfold apply_rotors_forward, PROBLEMA_ROTOR_SIZE.
  destruct (Z.geb_spec x 65536); [lia | reflexivity].
Qed.

Lemma apply_rotors_backward_loop c x :
  0 <= x < 65536 ->
  apply_rotors_backward c x = for_down 8 (0 + Z.of_nat 8 - 1) (rotor_backward_step c) x.
Proof.
  intros Hx. unfold apply_rotors_backward, PROBLEMA_ROTOR_SIZE.
  destruct (Z.geb_spec x 65536); [lia | reflexivity].
Qed.

Lemma zero_key_cores c x :
  session zero_key c -> 0 <= x -> encrypt_core c x = x /\ decrypt_core c x = x.
Proof.
  intros Hs Hx. destruct (Z.lt_ge_cases x 65536) as [L|G].
  2: { split; [by apply encrypt_core_bypass | by apply decrypt_core_bypass]. }
  pose proof (session_rotate zero_key c Hs) as Hs'.
  assert (Hp : forall y, 0 <= y < 65536 -> apply_plugboard c y = y).
  { intros y Hy.
    rewrite (apply_plugboard_by_key zero_key c y (session_tables _ _ Hs)) by lia.
    unfold plug_by_key, PROBLEMA_ROTOR_SIZE.
    destruct (Z.ltb_spec y 65536); [apply plug_entry_zero | done]. }
  unfold encrypt_core, decrypt_core. rewrite Hp by lia.
  revert Hs'. generalize (rotate_rotors c). intros c' Hs'.
  assert (S1 : forall j y, 0 <= j < 0 + Z.of_nat 8 -> 0 <= y < 65536 ->
             0 <= rotor_forward_step c j y < 65536 /\
             rotor_backward_step c' j (rotor_forward_step c j y) = y).
  { intros j y Hj Hy. assert (Hj8 : 0 <= j < 8) by lia.
    destruct (zero_key_steps c j y Hs Hj8 Hy) as [E _]. rewrite E.
    assert (Hq : 0 <= (y + 1) mod 65536 < 65536) by (apply Z.mod_pos_bound; lia).
    destruct (zero_key_steps c' j _ Hs' Hj8 Hq) as [_ E']. rewrite E'.
    split; [done|]. Z.to_euclidean_division_equations; lia. }
  assert (S2 : forall j y, 0 <= j < 0 + Z.of_nat 8 -> 0 <= y < 65536 ->
             0 <= rotor_backward_step c j y < 65536 /\
             rotor_forward_step c' j (rotor_backward_step c j y) = y).
  { intros j y Hj Hy. assert (Hj8 : 0 <= j < 8) by lia.
    destruct (zero_key_steps c j y Hs Hj8 Hy) as [_ E]. rewrite E.
    assert (Hq : 0 <= (y - 1) mod 65536 < 65536) by (apply Z.mod_pos_bound; lia).
    destruct (zero_key_steps c' j _ Hs' Hj8 Hq) as [E' _]. rewrite E'.
    split; [done|]. Z.to_euclidean_division_equations; lia. }
  assert (Hxx : 0 <= x < 65536) by lia.
  split.
  - rewrite (apply_rotors_backward_loop c') by (by apply apply_rotors_forward_bmp).
    rewrite apply_rotors_forward_loop by done.
    exact (for_down_up_inverse (fun y => 0 <= y < 65536)
             (rotor_forward_step c) (rotor_backward_step c') 8 0 x S1 Hxx).
  - rewrite Hp by (by apply apply_rotors_forward_bmp, apply_rotors_backward_bmp).
    rewrite (apply_rotors_forward_loop c') by (by apply apply_rotors_backward_bmp).
    rewrite apply_rotors_backward_loop by done.
    exact (for_up_down_inverse (fun y => 0 <= y < 65536)
             (rotor_forward_step c') (rotor_backward_step c) 8 0 x S2 Hxx).
Qed.

(** A value of type [unicode_t]. *)
Definition unicode_value (s : Z) : Prop := 0 <= s < 4294967296.

Lemma encrypt_chars_zero_key : forall cps c w,
  session zero_key c -> head4 (feedback c) = split_bytes w -> 0 <= w < 4294967296 ->
  Forall unicode_value cps ->
  snd (encrypt_chars (Some c) cps) = xor_scan w cps.
Proof.
  induction cps as [|s cps IH]; intros c w Hs Hh Hw Hall; [done|].
  apply Forall_cons in Hall as [Hsv Hall]. unfold unicode_value in Hsv.
  destruct (session_encrypt_char zero_key c s Hs) as (c1 & E1 & Hs1).
  revert E1. cbn [encrypt_chars xor_scan].
  rewrite problema_encrypt_char_eq by apply Hs. cbv zeta.
  destruct (zero_key_cores c s Hs) as [Ec _]; [lia|]. rewrite Ec.
  cbn [fst]. intros E1. injection E1 as E1.
  destruct (xor4_join (feedback c) s w Hh Hsv Hw) as [X1 X2]. rewrite X2.
  rewrite E1.
  assert (F1 : feedback c1 = put4 (feedback c) (xor4 (feedback c) s))
    by (by rewrite <- E1).
  clear E1. specialize (IH c1 (Z.lxor s w) Hs1).
  destruct (encrypt_chars (Some c1) cps) as [c2 ys]. cbn [snd] in IH |- *. f_equal.
  apply IH.
  - rewrite F1, X1. unfold split_bytes. apply head4_put4.
    rewrite (session_feedback _ _ Hs). lia.
  - by apply lxor_u32.
  - done.
Qed.

Lemma decrypt_chars_zero_key : forall cps d w,
  session zero_key d -> head4 (feedback d) = split_bytes w -> 0 <= w < 4294967296 ->
  Forall unicode_value cps ->
  snd (decrypt_chars (Some d) (xor_scan w cps)) = cps.
Proof.
  induction cps as [|s cps IH]; intros d w Hs Hh Hw Hall; [done|].
  apply Forall_cons in Hall as [Hsv Hall]. unfold unicode_value in Hsv.
  assert (Hx : 0 <= Z.lxor s w < 4294967296) by (by apply lxor_u32).
  destruct (session_decrypt_char zero_key d (Z.lxor s w) Hs) as (d1 & E1 & Hs1).
  revert E1. cbn [decrypt_chars xor_scan].
  rewrite problema_decrypt_char_eq by apply Hs. cbv zeta.
  destruct (xor4_join (feedback d) (Z.lxor s w) w Hh Hx Hw) as [_ X2].
  rewrite X2, lxor_twice.
  destruct (zero_key_cores d s Hs) as [_ Ed]; [lia|]. rewrite Ed.
  cbn [fst]. intros E1. injection E1 as E1. rewrite E1.
  assert (F1 : feedback d1 = put4 (feedback d) (split_bytes (Z.lxor s w)))
    by (by rewrite <- E1).
  clear E1. specialize (IH d1 (Z.lxor s w) Hs1).
  destruct (decrypt_chars (Some d1) (xor_scan (Z.lxor s w) cps)) as [c2 ys].
  cbn [snd] in IH |- *. f_equal.
  apply IH.
  - rewrite F1. unfold split_bytes. apply head4_put4.
    rewrite (session_feedback _ _ Hs). lia.
  - done.
  - done.
Qed.

(** X23: with the all-zero key the rotors and the plugboard cancel out.
    Starting a string encryption on a context in use with that key, every
    code point, inside the BMP or not, is emitted XOR-ed with the previously
    emitted code point, and the first one is emitted unchanged. *)
Theorem X23_zero_key_is_plain_xor_chain (c : ProblemaContext) (cps : list Z) :
  in_use zero_key c -> Forall unicode_value cps ->
  snd (encrypt_chars (Some (encrypt_entry c)) cps) = xor_scan 0 cps.
Proof.
  intros H Hall. pose proof (in_use_session zero_key c H) as Hs.
  destruct (encrypt_entry_zeroed zero_key c Hs) as (_ & _ & Hh).
  pose proof (session_encrypt_entry zero_key c Hs) as Hs1.
  revert Hh Hs1. generalize (encrypt_entry c). intros c1 Hh Hs1.
  apply encrypt_chars_zero_key; [done | done | lia | done].
Qed.

Lemma X23_zero_key_is_plain_xor_chain_witness :
  snd (encrypt_chars (Some (encrypt_entry (init_context blank_context zero_key)))
         [50504; 72; 128512]) = xor_scan 0 [50504; 72; 128512].
Proof.
  apply (X23_zero_key_is_plain_xor_chain (init_context blank_context zero_key)
           [50504; 72; 128512]).
  - zero_key_in_use.
  - repeat constructor; unfold unicode_value; lia.
Defined.

(** X24: under the all-zero key every stream of code points round-trips
    through the character loops of [problema_encrypt] and
    [problema_decrypt], for any two contexts in use with that key. *)
Theorem X24_zero_key_round_trip (c d : ProblemaContext) (cps : list Z) :
  in_use zero_key c -> in_use zero_key d -> Forall unicode_value cps ->
  snd (decrypt_chars (Some (decrypt_entry d))
         (snd (encrypt_chars (Some (encrypt_entry c)) cps))) = cps.
Proof.
  intros H1 H2 Hall.
  pose proof (in_use_session zero_key c H1) as Hs.
  pose proof (in_use_session zero_key d H2) as Hs'.
  destruct (encrypt_entry_zeroed zero_key c Hs) as (_ & _ & Hh).
  destruct (decrypt_entry_zeroed zero_key d Hs') as (_ & _ & Hh').
  pose proof (session_encrypt_entry zero_key c Hs) as Hs1.
  pose proof (session_decrypt_entry zero_key d Hs') as Hs1'.
  revert Hh Hs1 Hh' Hs1'. generalize (encrypt_entry c), (decrypt_entry d).
  intros c1 d1 Hh Hs1 Hh' Hs1'.
  rewrite (encrypt_chars_zero_key cps c1 0 Hs1 Hh); [|lia | done].
  apply decrypt_chars_zero_key; [done | done | lia | done].
Qed.

Lemma X24_zero_key_round_trip_witness :
  let c := init_context blank_context zero_key in
  snd (decrypt_chars (Some (decrypt_entry c))
         (snd (encrypt_chars (Some (encrypt_entry c)) [50504; 72; 128512]))) =
  [50504; 72; 128512].
Proof.
  apply (X24_zero_key_round_trip (init_context blank_context zero_key)
           (init_context blank_context zero_key) [50504; 72; 128512]).
  - zero_key_in_use.
  - zero_key_in_use.
  - repeat constructor; unfold unicode_value; lia.
Defined.
